(** * mathmate.js: the [BigDec] decimal kernel and the [BigNum] complex pair

    A shallow embedding of [src/index.js] (functions [BigDec], [BigNum] and
    their prototype methods).  JavaScript [bigint] values are [Z], the
    [dp] field (a small integral JS number) is [Z], JS strings are
    [string], and every function that can throw returns a [result]. *)

From Stdlib Require Import ZArith QArith Qpower Bool String Ascii List Lia.
Import ListNotations.

Local Open Scope string_scope.
Local Open Scope Z_scope.

(** ** Exceptions

    The three [new Error(...)] sites of the source are named after the
    message they carry; the other constructors are the built-in exceptions
    that the JS primitives used by the source can raise. *)

Inductive error : Type :=
| InvalidFormat        (* "Invalid number notation: '...'" *)
| DivisionByZero       (* "Can't divide by zero." *)
| NegativeSquareRoot   (* "Can't take the square root of a negative number ..." *)
| SyntaxError          (* BigInt(string) on a malformed literal *)
| RangeError           (* BigInt(number) on a non-integer, "0".repeat(-1) *)
| TypeError.           (* calling a property that is not a function *)

Inductive result (A : Type) : Type :=
| Ok (a : A)
| Throw (e : error).

Arguments Ok {A} a.
Arguments Throw {A} e.

Definition bind {A B : Type} (r : result A) (k : A -> result B) : result B :=
  match r with
  | Ok a => k a
  | Throw e => Throw e
  end.

Notation "x <- r ;; k" := (bind r (fun x => k))
  (at level 61, r at next level, right associativity).

Definition specified_error (e : error) : bool :=
  match e with
  | InvalidFormat | DivisionByZero | NegativeSquareRoot => true
  | _ => false
  end.

(** ** JS string primitives used by the source *)

Module JsString.

Definition len (s : string) : Z := Z.of_nat (String.length s).

Fixpoint take (n : nat) (s : string) : string :=
  match n, s with
  | S n', String c r => String c (take n' r)
  | _, _ => EmptyString
  end.

Fixpoint drop (n : nat) (s : string) : string :=
  match n, s with
  | S n', String _ r => drop n' r
  | _, _ => s
  end.

(** [s.substring(a, b)] for [a <= b]; both ends are clamped to the string. *)
Definition substring (a b : Z) (s : string) : string :=
  take (Z.to_nat b - Z.to_nat a) (drop (Z.to_nat a) s).

(** [s.substring(a)]. *)
Definition substring_from (a : Z) (s : string) : string :=
  drop (Z.to_nat a) s.

(** [s.slice(0, -k)] for [k > 0]: everything but the last [k] characters. *)
Definition slice_0_neg (k : Z) (s : string) : string :=
  take (Z.to_nat (Z.max (len s - k) 0)) s.

Fixpoint repeat_nat (c : ascii) (n : nat) : string :=
  match n with
  | O => EmptyString
  | S n' => String c (repeat_nat c n')
  end.

(** ["0".repeat(k)]; a negative count raises RangeError. *)
Definition repeat0 (k : Z) : result string :=
  if k <? 0 then Throw RangeError else Ok (repeat_nat "0" (Z.to_nat k)).

(** [replaceAll] of a blank by nothing. *)
Fixpoint remove_spaces (s : string) : string :=
  match s with
  | EmptyString => EmptyString
  | String c r =>
      if Ascii.eqb c " " then remove_spaces r else String c (remove_spaces r)
  end.

(** [replace] of a minus by nothing: only the first occurrence goes. *)
Fixpoint remove_first_minus (s : string) : string :=
  match s with
  | EmptyString => EmptyString
  | String c r =>
      if Ascii.eqb c "-" then r else String c (remove_first_minus r)
  end.

(** [s.indexOf(c)], [-1] when absent. *)
Fixpoint indexOf_aux (c : ascii) (s : string) (i : Z) : Z :=
  match s with
  | EmptyString => -1
  | String d r => if Ascii.eqb d c then i else indexOf_aux c r (i + 1)
  end.

Definition indexOf (c : ascii) (s : string) : Z := indexOf_aux c s 0.

Definition startsWith (c : ascii) (s : string) : bool :=
  match s with
  | String d _ => Ascii.eqb d c
  | EmptyString => false
  end.

Fixpoint endsWith (c : ascii) (s : string) : bool :=
  match s with
  | EmptyString => false
  | String d EmptyString => Ascii.eqb d c
  | String _ r => endsWith c r
  end.

(** [while (s.endsWith("0")) s = s.substring(0, s.length - 1)]. *)
Fixpoint strip_trailing_zeros (s : string) : string :=
  match s with
  | EmptyString => EmptyString
  | String c r =>
      match strip_trailing_zeros r with
      | EmptyString => if Ascii.eqb c "0" then EmptyString else String c EmptyString
      | r' => String c r'
      end
  end.

(** [while (s.startsWith("0")) s = s.substring(1)]. *)
Fixpoint strip_leading_zeros (s : string) : string :=
  match s with
  | String c r => if Ascii.eqb c "0" then strip_leading_zeros r else s
  | EmptyString => EmptyString
  end.

Definition is_digit (c : ascii) : bool :=
  let n := N_of_ascii c in ((48 <=? n) && (n <=? 57))%N.

Definition digit_value (c : ascii) : Z := Z.of_N (N_of_ascii c) - 48.

Definition digit_char (d : Z) : ascii := ascii_of_N (Z.to_N (d + 48)).

(** Every character is a decimal digit. *)
Fixpoint all_digits (s : string) : bool :=
  match s with
  | EmptyString => true
  | String c r => is_digit c && all_digits r
  end.

Fixpoint skip_digits (s : string) : string :=
  match s with
  | String c r => if is_digit c then skip_digits r else s
  | EmptyString => EmptyString
  end.

Fixpoint skip_zeros (s : string) : string :=
  match s with
  | String c r => if Ascii.eqb c "0" then skip_zeros r else s
  | EmptyString => EmptyString
  end.

Definition skip_minus (s : string) : string :=
  match s with
  | String c r => if Ascii.eqb c "-" then r else s
  | EmptyString => EmptyString
  end.

(** The number-notation regular expression of the constructor: an
    optional minus, a run of digits, then optionally a point and a run
    of digits, anchored at both ends. *)
Definition number_notation (s : string) : bool :=
  match skip_digits (skip_minus s) with
  | EmptyString => true
  | String c r =>
      Ascii.eqb c "." &&
      match skip_digits r with EmptyString => true | _ => false end
  end.

(** The power-of-ten regular expression of [inverse]: an optional minus,
    the digit 1, then only zeros, anchored at both ends. *)
Definition one_then_zeros (s : string) : bool :=
  match skip_minus s with
  | String c r =>
      Ascii.eqb c "1" &&
      match skip_zeros r with EmptyString => true | _ => false end
  | EmptyString => false
  end.

End JsString.

(** ** BigInt conversions *)

Module JsBigInt.
Import JsString.

(** Decimal digits of a non-negative integer, most significant first.
    [fuel] bounds the number of digits. *)
Fixpoint digits (fuel : nat) (n : Z) : string :=
  match fuel with
  | O => EmptyString
  | S f =>
      if n <? 10 then String (digit_char n) EmptyString
      else digits f (n / 10) ++ String (digit_char (n mod 10)) EmptyString
  end.

Definition pos_digits (p : positive) : string :=
  digits (Pos.size_nat p) (Zpos p).

(** [z.toString()] of a bigint. *)
Definition toString (z : Z) : string :=
  match z with
  | Z0 => "0"
  | Zpos p => pos_digits p
  | Zneg p => String "-" (pos_digits p)
  end.

(** Value of a run of decimal digits read left to right from [acc];
    [None] at the first character that is not a digit. *)
Fixpoint digits_value (acc : Z) (s : string) : option Z :=
  match s with
  | EmptyString => Some acc
  | String c r =>
      if is_digit c then digits_value (10 * acc + digit_value c) r else None
  end.

Definition signed_digits (neg : bool) (s : string) : result Z :=
  match s with
  | EmptyString => Throw SyntaxError
  | _ =>
      match digits_value 0 s with
      | Some n => Ok (if neg then - n else n)
      | None => Throw SyntaxError
      end
  end.

(** [BigInt(s)] on a string: the empty string is [0n], an optional sign
    must be followed by at least one digit, anything else is a
    SyntaxError.  (The strings the source passes are built from digits,
    ["-"] and ["0"] only, so white space and radix prefixes do not
    occur.) *)
Definition of_string (s : string) : result Z :=
  match s with
  | EmptyString => Ok 0
  | String c r =>
      if Ascii.eqb c "-" then signed_digits true r
      else if Ascii.eqb c "+" then signed_digits false r
      else signed_digits false s
  end.

End JsBigInt.

(** ** The Number detour of the string constructor

    [sign * val] multiplies a JS number by a string: the string is
    converted to an IEEE-754 binary64 number first.  [val] is a run of
    decimal digits there, so the conversion is the rounding of a
    non-negative integer to 53 significant bits, ties to even, with
    overflow to [Infinity].  Integers are all this needs.  (ECMAScript
    fixes this rounding for up to 20 significant digits and lets an engine
    round a longer literal at its 20th digit first; the inputs evaluated
    below have at most 19 significant digits.) *)

Module JsNumber.

Inductive number : Type :=
| NaN
| Finite (z : Z)       (* an integer-valued double; [-0] is [Finite 0] *)
| Infinite (neg : bool).

Definition round_binary64 (n : Z) : number :=
  if n <? 2 ^ 53 then Finite n
  else
    let sh := Z.log2 n - 52 in
    let q := Z.shiftr n sh in
    let r := n - Z.shiftl q sh in
    let half := 2 ^ (sh - 1) in
    let q' := if (half <? r) || ((r =? half) && Z.odd q) then q + 1 else q in
    let m := Z.shiftl q' sh in
    if m <? 2 ^ 1024 then Finite m else Infinite false.

(** [ToNumber(s)] for a string of decimal digits (the empty string is 0). *)
Definition of_digit_string (s : string) : number :=
  match JsBigInt.digits_value 0 s with
  | Some n => round_binary64 n
  | None => NaN
  end.

(** [sign * x] for [sign] in [{1, -1}]. *)
Definition mul_sign (sign : Z) (x : number) : number :=
  match x with
  | NaN => NaN
  | Finite z => Finite (sign * z)
  | Infinite neg => Infinite (if sign <? 0 then negb neg else neg)
  end.

(** [BigInt(x)] on a number: RangeError unless [x] is an integer. *)
Definition to_BigInt (x : number) : result Z :=
  match x with
  | Finite z => Ok z
  | NaN | Infinite _ => Throw RangeError
  end.

End JsNumber.

(** ** BigDec *)

Import JsString.

(** A [BigDec] object: the fields [dp] and [v], and the own property
    [sign] that [Object.assign] copies onto the object when the literal
    passed to the constructor carries one (as [abs] does).  An own [sign]
    property hides [BigDec.prototype.sign]. *)
Record BigDec : Type := mkBigDec {
  dp : Z;
  v : Z;
  sign_prop : option Z
}.

Definition FLOAT_PRECISION : Z := 20.

(** The tail of the constructor: [if (this.dp > BigDec.FLOAT_PRECISION)]. *)
Definition clamp_precision (this : BigDec) : result BigDec :=
  if dp this >? FLOAT_PRECISION then
    let diff := dp this - FLOAT_PRECISION in
    n <- JsBigInt.of_string (slice_0_neg diff (JsBigInt.toString (v this))) ;;
    Ok {| dp := FLOAT_PRECISION; v := n; sign_prop := sign_prop this |}
  else Ok this.

(** [new BigDec({dp: d, v: n})] and [new BigDec({dp: d, sign: s, v: n})]:
    the [Object.assign] branch followed by the precision clamp. *)
Definition BigDec_of_fields (d : Z) (s : option Z) (n : Z) : result BigDec :=
  clamp_precision {| dp := d; v := n; sign_prop := s |}.

(** [const ZERO = new BigDec({dp: 0, v: 0n})]. *)
Definition ZERO : BigDec := {| dp := 0; v := 0; sign_prop := None |}.

(** [new BigDec(val)] for a string [val]. *)
Definition BigDec_of_string (val : string) : result BigDec :=
  let val := remove_spaces val in
  if String.eqb val EmptyString || String.eqb val "0" then Ok ZERO else
  let val := if startsWith "+" val then substring_from 1 val else val in
  if negb (number_notation val) then Throw InvalidFormat else
  let sign := if startsWith "-" val then -1 else 1 in
  let val := if sign =? -1 then substring_from 1 val else val in
  let decimalPoint := indexOf "." val in
  let decimalPoint := if decimalPoint =? -1 then len val else decimalPoint in
  let val := (substring 0 decimalPoint val
              ++ substring_from (decimalPoint + 1) val)%string in
  let d := len val - decimalPoint in
  n <- JsNumber.to_BigInt (JsNumber.mul_sign sign (JsNumber.of_digit_string val)) ;;
  clamp_precision {| dp := d; v := n; sign_prop := None |}.

(** [BigDec(2)]: a number or bigint argument is replaced by its decimal
    string first. *)
Definition BigDec_of_bigint (n : Z) : result BigDec :=
  BigDec_of_string (JsBigInt.toString n).

Fixpoint simplify_loop (fuel : nat) (this : BigDec) : BigDec :=
  match fuel with
  | O => this
  | S f =>
      if (dp this >? 0) && (Z.rem (v this) 10 =? 0) then
        simplify_loop f {| dp := dp this - 1; v := Z.quot (v this) 10;
                           sign_prop := sign_prop this |}
      else this
  end.

(** [dp] drops by one per turn of the [while], so [dp] turns suffice. *)
Definition _simplifyPrecision (this : BigDec) : BigDec :=
  simplify_loop (Z.to_nat (dp this)) this.

Definition isZero (this : BigDec) : bool := v this =? 0.

Definition clone (this : BigDec) : result BigDec :=
  BigDec_of_fields (dp this) None (v this).

Definition negate (this : BigDec) : result BigDec :=
  BigDec_of_fields (dp this) None (- v this).

Definition digitCount (this : BigDec) : Z := len (JsBigInt.toString (v this)).

Definition posDigitCount (this : BigDec) : Z := digitCount this - dp this.

Definition eq (this dec : BigDec) : bool :=
  (v this =? v dec) && (dp this =? dp dec).

(** [this.sign()]: the prototype method, unless an own property [sign]
    is in the way (a number is not callable). *)
Definition sign (this : BigDec) : result Z :=
  match sign_prop this with
  | Some _ => Throw TypeError
  | None => Ok (if v this >? 0 then 1 else if v this =? 0 then 0 else -1)
  end.

Definition cmp (this dec : BigDec) : result Z :=
  if eq this dec then Ok 0 else
  signT <- sign this ;;
  signD <- sign dec ;;
  if negb (signT =? signD) then Ok (if signT >? signD then 1 else -1) else
  let thD := posDigitCount this in
  let deD := posDigitCount dec in
  if negb (thD =? deD) then Ok (if thD >? deD then 1 else -1) else
  Ok (if v this >? v dec then 1 else -1).

Definition gt (this dec : BigDec) : result bool :=
  c <- cmp this dec ;; Ok (c =? 1).

Definition lt (this dec : BigDec) : result bool :=
  c <- cmp this dec ;; Ok (c =? -1).

Definition shiftLeft (this : BigDec) (amount : Z) : result BigDec :=
  zeros <- repeat0 amount ;;
  n <- JsBigInt.of_string (JsBigInt.toString (v this) ++ zeros) ;;
  BigDec_of_fields (dp this + amount) None n.

Definition abs (this : BigDec) : result BigDec :=
  BigDec_of_fields (dp this) (Some 1) (v this).

Definition add (this b : BigDec) : result BigDec :=
  let a := this in
  ab <- (if negb (dp a =? dp b) then
           let len := Z.abs (dp a - dp b) in
           b' <- (if dp a >? dp b then shiftLeft b len else Ok b) ;;
           a' <- (if dp b' >? dp a then shiftLeft a len else Ok a) ;;
           Ok (a', b')
         else Ok (a, b)) ;;
  BigDec_of_fields (dp (fst ab)) None (v (fst ab) + v (snd ab)).

Definition sub (this dec : BigDec) : result BigDec :=
  d <- negate dec ;; add this d.

Definition mul (this dec : BigDec) : result BigDec :=
  BigDec_of_fields (dp this + dp dec) None (v this * v dec).

(** The long-division [for] loop of [inverse]; [result] is the string of
    quotients so far. *)
Fixpoint inverse_loop (fuel : nat) (n vUse : Z) (result : string) : string :=
  match fuel with
  | O => result
  | S f =>
      let mod' := Z.rem n vUse in
      let result := (result ++ JsBigInt.toString (Z.quot n vUse))%string in
      if mod' =? 0 then result else inverse_loop f (mod' * 10) vUse result
  end.

Definition minus_unless_positive (n : Z) : string :=
  if n >? 0 then EmptyString else "-".

(** The arguments of ["0".repeat] in [inverse] are a string length and the
    negation of a non-positive number, so [repeat] cannot throw there. *)
Definition inverse (this : BigDec) : result BigDec :=
  if isZero this then Throw DivisionByZero else
  let vStr := JsBigInt.toString (v this) in
  if one_then_zeros vStr then
    let vStr := remove_first_minus vStr in
    let d := len vStr - 1 - dp this in
    if d >? 0 then BigDec_of_fields d None 1
    else
      n <- JsBigInt.of_string
             (minus_unless_positive (v this) ++ "1"
              ++ repeat_nat "0" (Z.to_nat (- d))) ;;
      BigDec_of_fields 0 None n
  else
    let count := digitCount this in
    n <- JsBigInt.of_string ("1" ++ repeat_nat "0" (Z.to_nat count)) ;;
    let vUse := if v this >? 0 then v this else - v this in
    let result := inverse_loop (Z.to_nat FLOAT_PRECISION) n vUse EmptyString in
    m <- JsBigInt.of_string (minus_unless_positive (v this) ++ result) ;;
    BigDec_of_fields (count + len result - 1 - dp this) None m.

Definition div (this dec : BigDec) : result BigDec :=
  i <- inverse dec ;;
  p <- mul this i ;;
  Ok (_simplifyPrecision p).

Definition square (this : BigDec) : result BigDec := mul this this.

Definition cube (this : BigDec) : result BigDec :=
  m <- mul this this ;; mul this m.

(** One pass of the Newton loop of [sqrt] per unit of fuel.  The boolean
    of the result tells whether the precision warning was logged.  [two]
    is [BigDec(2)], which [div] rebuilds from the number 2 at each call. *)
Fixpoint sqrt_loop (fuel : nat) (this two x : BigDec) : result (BigDec * bool) :=
  match fuel with
  | O => Ok (x, true)
  | S f =>
      a <- div this x ;;
      b <- add x a ;;
      c <- div b two ;;
      dx <- sub c x ;;
      if isZero dx then Ok (x, false) else sqrt_loop f this two c
  end.

Definition sqrt_iterations : nat := Z.to_nat 100000.

Definition sqrt_logged (this : BigDec) : result (BigDec * bool) :=
  if v this <? 0 then Throw NegativeSquareRoot else
  if (v this =? 0) || (v this =? 1) then Ok (this, false) else
  two <- BigDec_of_bigint 2 ;;
  x <- div this two ;;
  sqrt_loop sqrt_iterations this two x.

Definition sqrt (this : BigDec) : result BigDec :=
  r <- sqrt_logged this ;; Ok (fst r).

(** The count of ["0".repeat] is positive under its guard. *)
Definition toString (this : BigDec) : string :=
  if isZero this then "0" else
  let str := JsBigInt.toString (v this) in
  let str := if startsWith "-" str then substring_from 1 str else str in
  let str := if len str <? dp this
             then (repeat_nat "0" (Z.to_nat (dp this - len str)) ++ str)%string
             else str in
  let str := if dp this >? 0 then
               let pnt := len str - dp this in
               strip_trailing_zeros
                 (substring 0 pnt str ++ "." ++ substring_from pnt str)
             else str in
  let str := strip_leading_zeros str in
  let str := if startsWith "." str then ("0" ++ str)%string else str in
  let sign := if v this >=? 0 then EmptyString else "-" in
  (sign ++ str)%string.

(** The branch of [inverse] that returns [{dp, v: 1n}]: the magnitude
    is a one followed by zeros and the scale left over is positive. *)
Definition positive_scale_shortcut (x : BigDec) : bool :=
  let vStr := JsBigInt.toString (v x) in
  one_then_zeros vStr && (len (remove_first_minus vStr) - 1 - dp x >? 0).

(** The object with fields [dp] and [v] and no own [sign] property. *)
Definition dec (d n : Z) : BigDec := {| dp := d; v := n; sign_prop := None |}.

(** ** BigNum *)

Record BigNum : Type := mkBigNum { re : BigDec; im : BigDec }.

(** [new BigNum(re, im)] on two [BigDec] instances: [BigDec(x)] hands an
    instance back unchanged. *)
Definition BigNum_of (r i : BigDec) : BigNum := {| re := r; im := i |}.

(** [new BigNum(re)] on one [BigDec] instance: [im] defaults to ["0"]. *)
Definition BigNum_of_re (r : BigDec) : result BigNum :=
  i <- BigDec_of_string "0" ;; Ok (BigNum_of r i).

(** [new BigNum(re, im)] on two strings that are not in the [a+bi] form. *)
Definition BigNum_of_strings (r i : string) : result BigNum :=
  r' <- BigDec_of_string r ;;
  i' <- BigDec_of_string i ;;
  Ok (BigNum_of r' i').

(** [abs] returns a [BigNum] on its first two paths and a [BigDec] on the
    third. *)
Inductive abs_value : Type :=
| AbsNum (z : BigNum)
| AbsDec (d : BigDec).

Definition BigNum_abs (this : BigNum) : result abs_value :=
  if isZero (re this) then Ok (AbsNum this) else
  if isZero (im this) then z <- BigNum_of_re (im this) ;; Ok (AbsNum z) else
  r2 <- square (re this) ;;
  i2 <- square (im this) ;;
  s <- add r2 i2 ;;
  d <- sqrt s ;;
  Ok (AbsDec d).

Definition BigNum_isZero (this : BigNum) : bool :=
  isZero (re this) && isZero (im this).

(** The remaining [BigNum] methods.  [BigNum(num)] hands a [BigNum]
    instance back unchanged; arguments are evaluated left to right. *)

Definition BigNum_clone (this : BigNum) : result BigNum :=
  r <- clone (re this) ;;
  i <- clone (im this) ;;
  Ok (BigNum_of r i).

Definition BigNum_negate (this : BigNum) : result BigNum :=
  r <- negate (re this) ;;
  i <- negate (im this) ;;
  Ok (BigNum_of r i).

Definition BigNum_add (this num : BigNum) : result BigNum :=
  r <- add (re this) (re num) ;;
  i <- add (im this) (im num) ;;
  Ok (BigNum_of r i).

Definition BigNum_sub (this num : BigNum) : result BigNum :=
  r <- sub (re this) (re num) ;;
  i <- sub (im this) (im num) ;;
  Ok (BigNum_of r i).

Definition BigNum_mul (this num : BigNum) : result BigNum :=
  rr <- mul (re this) (re num) ;;
  ii <- mul (im this) (im num) ;;
  r <- sub rr ii ;;
  ri <- mul (re this) (im num) ;;
  ir <- mul (im this) (re num) ;;
  i <- add ri ir ;;
  Ok (BigNum_of r i).

Definition BigNum_inverse (this : BigNum) : result BigNum :=
  r2 <- square (re this) ;;
  i2 <- square (im this) ;;
  bottom <- add r2 i2 ;;
  r <- div (re this) bottom ;;
  q <- div (im this) bottom ;;
  i <- negate q ;;
  Ok (BigNum_of r i).

Definition BigNum_div (this num : BigNum) : result BigNum :=
  i <- BigNum_inverse num ;; BigNum_mul this i.

(** [toString] of a [BigNum]; [this.im.sign()] can throw. *)
Definition BigNum_toString (this : BigNum) : result string :=
  let isReZero := isZero (re this) in
  let isImZero := isZero (im this) in
  if isReZero && isImZero then Ok "0" else
  let r := if negb isReZero then toString (re this) else EmptyString in
  if negb isImZero then
    let str := toString (im this) in
    s <- sign (im this) ;;
    Ok (r ++ (if (s =? 1)%Z then " + " ++ str ++ "i"
              else " - " ++ substring_from 1 str ++ "i"))%string
  else Ok r.

(** ** The string form of the [BigNum] constructor *)

Definition is_sign (c : ascii) : bool := Ascii.eqb c "+" || Ascii.eqb c "-".

(** A run of digits, then optionally a point and a run of digits, up to
    the end of the string. *)
Definition digits_point_digits (s : string) : bool :=
  match skip_digits s with
  | EmptyString => true
  | String c r =>
      Ascii.eqb c "." &&
      match skip_digits r with EmptyString => true | _ => false end
  end.

(** The head of the complex notation past its optional sign: a run of
    digits, optionally a point and a run of digits, then a sign; what
    follows that sign is returned. *)
Definition after_real_part (s : string) : option string :=
  let s1 := skip_digits s in
  let s2 := match s1 with
            | String c r => if Ascii.eqb c "." then skip_digits r else s1
            | EmptyString => s1
            end in
  match s2 with
  | String c r => if is_sign c then Some r else None
  | EmptyString => None
  end.

Fixpoint remove_last (s : string) : string :=
  match s with
  | EmptyString => EmptyString
  | String c EmptyString => EmptyString
  | String c r => String c (remove_last r)
  end.

(** The three alternatives for the imaginary part: the letter i followed
    by a number, a number followed by i, or i alone (which the first
    covers). *)
Definition imaginary_notation (s : string) : bool :=
  match s with
  | String c r => Ascii.eqb c "i" && digits_point_digits r
  | EmptyString => false
  end
  || (endsWith "i" s && digits_point_digits (remove_last s)).

(** The regular expression of the [BigNum] constructor.  Its optional
    leading sign is either taken, or left to be the sign that separates an
    empty real part from the imaginary part. *)
Definition complex_notation (s : string) : bool :=
  match s with
  | String c r =>
      is_sign c &&
      match after_real_part r with
      | Some t => imaginary_notation t
      | None => false
      end
  | EmptyString => false
  end
  || match after_real_part s with
     | Some t => imaginary_notation t
     | None => false
     end.

(** [s.split] on the signs, the signs kept as elements of their own. *)
Fixpoint split_signs (s : string) : list string :=
  match s with
  | EmptyString => [EmptyString]
  | String c r =>
      if is_sign c then EmptyString :: String c EmptyString :: split_signs r
      else match split_signs r with
           | h :: t => String c h :: t
           | [] => [String c EmptyString]
           end
  end.

(** [replace] of the first letter i by nothing. *)
Fixpoint remove_first_i (s : string) : string :=
  match s with
  | EmptyString => EmptyString
  | String c r => if Ascii.eqb c "i" then r else String c (remove_first_i r)
  end.

(** [new BigNum(re, im)] on two strings.  The regular expression
    guarantees a sign, hence three elements of the split. *)
Definition BigNum_new (re' im' : string) : result BigNum :=
  if complex_notation (remove_spaces re') then
    match split_signs (remove_spaces re') with
    | s0 :: s1 :: s2 :: _ =>
        let body := remove_first_i s2 in
        let im2 := (s1 ++ (if String.eqb body EmptyString then "1" else body))%string in
        r <- BigDec_of_string s0 ;;
        i <- BigDec_of_string im2 ;;
        Ok (BigNum_of r i)
    | _ => Throw TypeError
    end
  else
    r <- BigDec_of_string re' ;;
    i <- BigDec_of_string im' ;;
    Ok (BigNum_of r i).

(** ** Decimal literals

    The strings the number notation accepts: an optional minus, a run of
    digits [a], and optionally a point followed by a run of digits [b]. *)

Definition minus_if (neg : bool) : string :=
  if neg then "-" else EmptyString.

Definition integer_literal (neg : bool) (a : string) : string :=
  (minus_if neg ++ a)%string.

Definition decimal_literal (neg : bool) (a b : string) : string :=
  (minus_if neg ++ a ++ "." ++ b)%string.

Definition signed (neg : bool) (n : Z) : Z := if neg then - n else n.

(** ** Numeric value *)

Local Open Scope Q_scope.

(** [v * 10^(-dp)]. *)
Definition value (x : BigDec) : Q := inject_Z (v x) * (10 # 1) ^ (- dp x).

Local Close Scope Q_scope.


(** * Facts about the string and BigInt primitives *)

Module DigitFacts.
Import JsBigInt.

Lemma digit_char_is_digit d : 0 <= d < 10 -> is_digit (digit_char d) = true.
Proof.
  intros H.
  assert (C : d = 0 \/ d = 1 \/ d = 2 \/ d = 3 \/ d = 4 \/ d = 5 \/ d = 6
              \/ d = 7 \/ d = 8 \/ d = 9) by lia.
  repeat (destruct C as [-> | C]; [reflexivity |]); subst; reflexivity.
Qed.

Lemma digit_value_char d : 0 <= d < 10 -> digit_value (digit_char d) = d.
Proof.
  intros H.
  assert (C : d = 0 \/ d = 1 \/ d = 2 \/ d = 3 \/ d = 4 \/ d = 5 \/ d = 6
              \/ d = 7 \/ d = 8 \/ d = 9) by lia.
  repeat (destruct C as [-> | C]; [reflexivity |]); subst; reflexivity.
Qed.

Lemma digit_value_range c : is_digit c = true -> 0 <= digit_value c < 10.
Proof.
  unfold is_digit, digit_value. intros H.
  apply andb_true_iff in H as [H1 H2].
  apply N.leb_le in H1, H2. lia.
Qed.

Lemma digit_not_sign c :
  is_digit c = true -> Ascii.eqb c "-" = false /\ Ascii.eqb c "+" = false.
Proof.
  intros H. split; apply Ascii.eqb_neq; intros ->; discriminate H.
Qed.

Lemma all_digits_app s t :
  all_digits (s ++ t) = all_digits s && all_digits t.
Proof.
  induction s as [| c s IH]; simpl; [reflexivity |].
  rewrite IH. apply andb_assoc.
Qed.

Lemma all_digits_take k s : all_digits s = true -> all_digits (take k s) = true.
Proof.
  revert s. induction k as [| k IH]; intros [| c s]; simpl; auto.
  intros H. apply andb_true_iff in H as [H1 H2].
  rewrite H1. simpl. auto.
Qed.

Lemma all_digits_zeros k : all_digits (repeat_nat "0" k) = true.
Proof. induction k; simpl; auto. Qed.

Lemma digits_value_app s t acc :
  digits_value acc (s ++ t) =
  match digits_value acc s with
  | Some a => digits_value a t
  | None => None
  end.
Proof.
  revert acc. induction s as [| c s IH]; intros acc; simpl; [reflexivity |].
  destruct (is_digit c); [apply IH | reflexivity].
Qed.

Lemma digits_value_zeros k acc :
  digits_value acc (repeat_nat "0" k) = Some (acc * 10 ^ Z.of_nat k).
Proof.
  revert acc. induction k as [| k IH]; intros acc.
  - simpl. f_equal. lia.
  - cbn [repeat_nat digits_value]. change (is_digit "0") with true. cbv iota.
    rewrite IH. change (digit_value "0") with 0.
    rewrite Nat2Z.inj_succ, Z.pow_succ_r by lia. f_equal. lia.
Qed.

Lemma digits_value_all s :
  all_digits s = true ->
  forall acc, 0 <= acc -> exists m, digits_value acc s = Some m /\ 0 <= m.
Proof.
  induction s as [| c s IH]; cbn [all_digits digits_value]; intros H acc Hacc.
  - eauto.
  - apply andb_true_iff in H as [H1 H2]. rewrite H1.
    pose proof (digit_value_range c H1).
    apply IH; [assumption | lia].
Qed.

Lemma digits_all fuel n : 0 <= n -> all_digits (digits fuel n) = true.
Proof.
  revert n. induction fuel as [| f IH]; intros n Hn; simpl; [reflexivity |].
  destruct (Z.ltb_spec n 10).
  - simpl. rewrite digit_char_is_digit by lia. reflexivity.
  - rewrite all_digits_app, IH by (apply Z.div_pos; lia).
    simpl. rewrite digit_char_is_digit; [reflexivity |].
    apply Z.mod_pos_bound; lia.
Qed.

Lemma digits_nonempty fuel n : digits (S fuel) n <> EmptyString.
Proof.
  simpl. destruct (n <? 10); [discriminate |].
  destruct (digits fuel (n / 10)); discriminate.
Qed.

(** Reading back the digits of [n] gives [n], as long as the fuel
    covers its length. *)
Lemma digits_value_digits fuel n :
  0 <= n < 10 ^ Z.of_nat fuel -> digits_value 0 (digits fuel n) = Some n.
Proof.
  revert n. induction fuel as [| f IH]; intros n Hn.
  - change (10 ^ Z.of_nat 0) with 1 in Hn. simpl. f_equal. lia.
  - cbn [digits]. rewrite Nat2Z.inj_succ, Z.pow_succ_r in Hn by lia.
    destruct (Z.ltb_spec n 10).
    + cbn [digits_value].
      rewrite digit_char_is_digit, digit_value_char by lia.
      f_equal.
    + rewrite digits_value_app, IH.
      * cbn [digits_value].
        rewrite digit_char_is_digit, digit_value_char
          by (apply Z.mod_pos_bound; lia).
        f_equal. pose proof (Z.div_mod n 10). lia.
      * split; [apply Z.div_pos; lia |].
        apply Z.div_lt_upper_bound; lia.
Qed.

Lemma pos_lt_pow10_size p : Zpos p < 10 ^ Z.of_nat (Pos.size_nat p).
Proof.
  induction p as [p IH | p IH |]; cbn [Pos.size_nat];
    [| | reflexivity];
    rewrite Nat2Z.inj_succ, Z.pow_succ_r by lia; lia.
Qed.

Lemma pos_digits_value p : digits_value 0 (pos_digits p) = Some (Zpos p).
Proof.
  apply digits_value_digits. pose proof (pos_lt_pow10_size p). lia.
Qed.

Lemma pos_digits_all p : all_digits (pos_digits p) = true.
Proof. apply digits_all. lia. Qed.

Lemma pos_digits_nonempty p : pos_digits p <> EmptyString.
Proof.
  unfold pos_digits. destruct p; cbn [Pos.size_nat]; apply digits_nonempty.
Qed.

(** A non-empty run of digits is a BigInt literal. *)
Lemma of_string_digits s :
  s <> EmptyString -> all_digits s = true ->
  forall m, digits_value 0 s = Some m -> of_string s = Ok m.
Proof.
  destruct s as [| c r]; [congruence |]. intros _ H m Hm.
  simpl in H. apply andb_true_iff in H as [Hc _].
  destruct (digit_not_sign c Hc) as [E1 E2].
  unfold of_string. rewrite E1, E2. unfold signed_digits. rewrite Hm.
  reflexivity.
Qed.

Lemma of_string_minus_digits s :
  s <> EmptyString ->
  forall m, digits_value 0 s = Some m -> of_string (String "-" s) = Ok (- m).
Proof.
  intros Hs m Hm. unfold of_string. change (Ascii.eqb "-" "-") with true.
  cbv iota. unfold signed_digits. destruct s; [congruence |].
  rewrite Hm. reflexivity.
Qed.

Lemma toString_nonneg_all z : 0 <= z -> all_digits (toString z) = true.
Proof.
  destruct z; intros H; [reflexivity | apply pos_digits_all | lia].
Qed.

Lemma toString_nonempty z : toString z <> EmptyString.
Proof.
  destruct z; simpl; [discriminate | apply pos_digits_nonempty | discriminate].
Qed.

(** [BigInt(z.toString() + "0".repeat(k))] is [z * 10^k]. *)
Lemma of_string_toString_zeros z k :
  of_string (toString z ++ repeat_nat "0" k) = Ok (z * 10 ^ Z.of_nat k).
Proof.
  destruct z as [| p | p].
  - change (toString 0) with "0".
    apply of_string_digits.
    + discriminate.
    + rewrite all_digits_app, all_digits_zeros. reflexivity.
    + rewrite digits_value_app. change (digits_value 0 "0") with (Some 0).
      apply digits_value_zeros.
  - cbn [toString]. apply of_string_digits.
    + pose proof (pos_digits_nonempty p).
      destruct (pos_digits p); [congruence | discriminate].
    + rewrite all_digits_app, pos_digits_all, all_digits_zeros. reflexivity.
    + rewrite digits_value_app, pos_digits_value. apply digits_value_zeros.
  - cbn [toString append].
    rewrite of_string_minus_digits with (m := Zpos p * 10 ^ Z.of_nat k).
    + f_equal. lia.
    + pose proof (pos_digits_nonempty p).
      destruct (pos_digits p); [congruence | discriminate].
    + rewrite digits_value_app, pos_digits_value. apply digits_value_zeros.
Qed.

End DigitFacts.

(** * Facts about the constructor *)

Section Constructor.

Lemma clamp_small x : dp x <= FLOAT_PRECISION -> clamp_precision x = Ok x.
Proof.
  intros H. unfold clamp_precision.
  destruct (Z.gtb_spec (dp x) FLOAT_PRECISION); [lia | reflexivity].
Qed.

(** Every object that leaves the constructor has [dp <= FLOAT_PRECISION]. *)
Lemma clamp_dp x r : clamp_precision x = Ok r -> dp r <= FLOAT_PRECISION.
Proof.
  unfold clamp_precision.
  destruct (Z.gtb_spec (dp x) FLOAT_PRECISION) as [G | G].
  - destruct (JsBigInt.of_string _); cbn [bind]; [| discriminate].
    intros [= <-]. cbn [dp]. lia.
  - intros [= <-]. exact G.
Qed.

Lemma BigDec_of_fields_dp d s n r :
  BigDec_of_fields d s n = Ok r -> dp r <= FLOAT_PRECISION.
Proof. apply clamp_dp. Qed.

Lemma BigDec_of_string_dp val r :
  BigDec_of_string val = Ok r -> dp r <= FLOAT_PRECISION.
Proof.
  unfold BigDec_of_string.
  destruct (_ || _); [intros [= <-]; cbn; unfold FLOAT_PRECISION; lia |].
  destruct (negb _); [discriminate |].
  destruct (JsNumber.to_BigInt _); cbn [bind]; [| discriminate].
  apply clamp_dp.
Qed.

Lemma ZERO_constructed : BigDec_of_fields 0 None 0 = Ok ZERO.
Proof. reflexivity. Qed.

(** The [while] of [_simplifyPrecision] has met its exit condition when
    the model stops. *)
Lemma simplify_loop_done fuel x :
  dp x <= Z.of_nat fuel ->
  let r := simplify_loop fuel x in
  (dp r >? 0) && (Z.rem (v r) 10 =? 0) = false.
Proof.
  revert x. induction fuel as [| f IH]; intros x H; cbn [simplify_loop].
  - cbv zeta. destruct (Z.gtb_spec (dp x) 0); [lia | reflexivity].
  - destruct ((dp x >? 0) && (Z.rem (v x) 10 =? 0)) eqn:E.
    + apply IH. cbn [dp]. lia.
    + exact E.
Qed.

Lemma _simplifyPrecision_done x :
  let r := _simplifyPrecision x in
  (dp r >? 0) && (Z.rem (v r) 10 =? 0) = false.
Proof. apply simplify_loop_done. lia. Qed.

End Constructor.

(** * Addition *)

Section Addition.
Import DigitFacts.

Lemma shiftLeft_exact x k :
  0 <= k -> dp x + k <= FLOAT_PRECISION ->
  shiftLeft x k =
  Ok {| dp := dp x + k; v := v x * 10 ^ k; sign_prop := None |}.
Proof.
  intros Hk Hd. unfold shiftLeft, repeat0.
  destruct (Z.ltb_spec k 0); [lia |]. cbn [bind].
  rewrite of_string_toString_zeros. cbn [bind].
  rewrite Z2Nat.id by lia.
  unfold BigDec_of_fields. apply clamp_small. exact Hd.
Qed.

(** [add] aligns the operand of smaller scale and adds the magnitudes. *)
Lemma add_aligned x y :
  dp x <= FLOAT_PRECISION -> dp y <= FLOAT_PRECISION ->
  add x y =
  Ok {| dp := Z.max (dp x) (dp y);
        v := v x * 10 ^ (Z.max (dp x) (dp y) - dp x)
             + v y * 10 ^ (Z.max (dp x) (dp y) - dp y);
        sign_prop := None |}.
Proof.
  intros Hx Hy. unfold add.
  destruct (Z.eqb_spec (dp x) (dp y)) as [E | E]; cbn [negb bind fst snd].
  - unfold BigDec_of_fields. rewrite clamp_small by exact Hx.
    rewrite E, Z.max_id, Z.sub_diag. do 2 f_equal. change (10 ^ 0) with 1. lia.
  - destruct (Z.gtb_spec (dp x) (dp y)) as [G | G].
    + rewrite shiftLeft_exact by lia. cbn [bind dp].
      destruct (Z.gtb_spec (dp y + Z.abs (dp x - dp y)) (dp x)); [lia |].
      cbn [bind fst snd v]. unfold BigDec_of_fields.
      rewrite clamp_small by exact Hx.
      rewrite Z.max_l, Z.sub_diag by lia. change (10 ^ 0) with 1.
      replace (Z.abs (dp x - dp y)) with (dp x - dp y) by lia.
      do 2 f_equal. lia.
    + cbn [bind]. destruct (Z.gtb_spec (dp y) (dp x)); [| lia].
      rewrite shiftLeft_exact by lia. cbn [bind fst snd v dp].
      unfold BigDec_of_fields. rewrite clamp_small by (cbn [dp]; lia).
      rewrite Z.max_r, Z.sub_diag by lia. change (10 ^ 0) with 1.
      replace (Z.abs (dp x - dp y)) with (dp y - dp x) by lia.
      f_equal. f_equal; [lia | f_equal; lia].
Qed.

Lemma negate_small x :
  dp x <= FLOAT_PRECISION ->
  negate x = Ok {| dp := dp x; v := - v x; sign_prop := None |}.
Proof. intros H. unfold negate, BigDec_of_fields. apply clamp_small. exact H. Qed.

Local Open Scope Q_scope.

Lemma ten_nonzero : ~ (10 # 1) == 0.
Proof. discriminate. Qed.

(** Scaling the magnitude by [10^k] and the scale by [k] keeps the value. *)
Lemma value_rescale n d k :
  (0 <= k)%Z ->
  inject_Z (n * 10 ^ k) * (10 # 1) ^ (- (d + k)) == inject_Z n * (10 # 1) ^ (- d).
Proof.
  intros Hk.
  rewrite inject_Z_mult, Zpower_Qpower by exact Hk.
  change (inject_Z 10) with (10 # 1).
  replace (- (d + k))%Z with (- k + - d)%Z by lia.
  rewrite (Qpower_plus _ _ _ ten_nonzero).
  rewrite Qpower_opp.
  field. apply Qpower_not_0. exact ten_nonzero.
Qed.

Lemma value_aligned n d m : (d <= m)%Z ->
  value {| dp := m; v := n * 10 ^ (m - d); sign_prop := None |}
  == inject_Z n * (10 # 1) ^ (- d).
Proof.
  intros H. unfold value. cbn [dp v].
  replace (- m)%Z with (- (d + (m - d)))%Z by lia.
  apply value_rescale. lia.
Qed.

Lemma value_sum m a b :
  value {| dp := m; v := a + b; sign_prop := None |}
  == value {| dp := m; v := a; sign_prop := None |}
     + value {| dp := m; v := b; sign_prop := None |}.
Proof. unfold value. cbn [dp v]. rewrite inject_Z_plus. ring. Qed.

End Addition.

(** * Reciprocal *)

Section Reciprocal.
Import DigitFacts.

Lemma of_string_all_digits s :
  all_digits s = true -> exists m, JsBigInt.of_string s = Ok m /\ 0 <= m.
Proof.
  intros H. destruct s as [| c r] eqn:E.
  - exists 0. split; [reflexivity | lia].
  - rewrite <- E in *.
    destruct (digits_value_all s H 0) as [m [Hm Hpos]]; [lia |].
    exists m. split; [| exact Hpos].
    apply of_string_digits; [rewrite E; discriminate | exact H | exact Hm].
Qed.

(** A prefix of the decimal string of a negative bigint is empty, a lone
    minus, or a negative literal. *)
Lemma of_string_take_negative p k :
  JsBigInt.of_string (take k (JsBigInt.toString (Zneg p))) = Throw SyntaxError
  \/ exists m, JsBigInt.of_string (take k (JsBigInt.toString (Zneg p))) = Ok m
               /\ m <= 0.
Proof.
  cbn [JsBigInt.toString]. destruct k as [| k]; cbn [take].
  - right. exists 0. split; [reflexivity | lia].
  - unfold JsBigInt.of_string. change (Ascii.eqb "-" "-") with true. cbv iota.
    unfold JsBigInt.signed_digits.
    destruct (take k (JsBigInt.pos_digits p)) as [| c r] eqn:E; [left; reflexivity |].
    rewrite <- E.
    destruct (digits_value_all (take k (JsBigInt.pos_digits p))
                (all_digits_take _ _ (pos_digits_all p)) 0) as [m [Hm Hpos]];
      [lia |].
    rewrite Hm. right. exists (- m). split; [reflexivity | lia].
Qed.

Lemma clamp_nonneg d s n :
  0 <= n ->
  exists r, clamp_precision {| dp := d; v := n; sign_prop := s |} = Ok r
            /\ 0 <= v r.
Proof.
  intros Hn. unfold clamp_precision. cbn [dp v sign_prop].
  destruct (d >? FLOAT_PRECISION).
  - unfold slice_0_neg.
    destruct (of_string_all_digits
                (take (Z.to_nat (Z.max (len (JsBigInt.toString n)
                                        - (d - FLOAT_PRECISION)) 0))
                      (JsBigInt.toString n))) as [m [Hm Hpos]].
    + apply all_digits_take, toString_nonneg_all, Hn.
    + rewrite Hm. cbn [bind]. eexists. split; [reflexivity | exact Hpos].
  - eexists. split; [reflexivity | exact Hn].
Qed.

Lemma clamp_nonpos d s n :
  n <= 0 ->
  clamp_precision {| dp := d; v := n; sign_prop := s |} = Throw SyntaxError
  \/ exists r, clamp_precision {| dp := d; v := n; sign_prop := s |} = Ok r
               /\ v r <= 0.
Proof.
  intros Hn. destruct n as [| p | p]; [| lia |].
  - right. destruct (clamp_nonneg d s 0) as [r [Hr Hv]]; [lia |].
    exists r. split; [exact Hr |].
    revert Hr. unfold clamp_precision. cbn [dp v sign_prop].
    destruct (d >? FLOAT_PRECISION).
    + unfold slice_0_neg. change (JsBigInt.toString 0) with "0".
      destruct (Z.to_nat _) as [| [| k]]; cbn; intros [= <-]; cbn; lia.
    + intros [= <-]. cbn. lia.
  - unfold clamp_precision. cbn [dp v sign_prop].
    destruct (d >? FLOAT_PRECISION).
    + unfold slice_0_neg.
      destruct (of_string_take_negative p
                  (Z.to_nat (Z.max (len (JsBigInt.toString (Zneg p))
                                    - (d - FLOAT_PRECISION)) 0)))
        as [E | [m [E Hm]]]; rewrite E; cbn [bind].
      * left. reflexivity.
      * right. eexists. split; [reflexivity | exact Hm].
    + right. eexists. split; [reflexivity | cbn; lia].
Qed.

Lemma inverse_loop_digits fuel : forall n vUse res,
  0 <= n -> 0 < vUse -> all_digits res = true ->
  all_digits (inverse_loop fuel n vUse res) = true.
Proof.
  induction fuel as [| f IH]; intros n vUse res Hn Hv Hres;
    cbn [inverse_loop]; [exact Hres |].
  assert (Hq : all_digits (res ++ JsBigInt.toString (Z.quot n vUse)) = true).
  { rewrite all_digits_app, Hres. apply toString_nonneg_all.
    apply Z.quot_pos; lia. }
  destruct (Z.rem n vUse =? 0); [exact Hq |].
  apply IH; [| exact Hv | exact Hq].
  pose proof (Z.rem_nonneg n vUse). lia.
Qed.

Lemma append_nonempty_r s t : t <> EmptyString -> (s ++ t)%string <> EmptyString.
Proof. destruct s; simpl; [auto | discriminate]. Qed.

Lemma append_nonempty_l s t : s <> EmptyString -> (s ++ t)%string <> EmptyString.
Proof. destruct s; simpl; [congruence | discriminate]. Qed.

Lemma inverse_loop_keeps fuel : forall n vUse res,
  res <> EmptyString -> inverse_loop fuel n vUse res <> EmptyString.
Proof.
  induction fuel as [| f IH]; intros n vUse res H; cbn [inverse_loop];
    [exact H |].
  destruct (Z.rem n vUse =? 0).
  - apply append_nonempty_l, H.
  - apply IH, append_nonempty_l, H.
Qed.

Lemma inverse_loop_nonempty fuel n vUse :
  inverse_loop (S fuel) n vUse EmptyString <> EmptyString.
Proof.
  cbn [inverse_loop]. destruct (Z.rem n vUse =? 0).
  - apply append_nonempty_r, toString_nonempty.
  - apply inverse_loop_keeps, append_nonempty_r, toString_nonempty.
Qed.

Lemma one_and_zeros k :
  JsBigInt.digits_value 0 ("1" ++ repeat_nat "0" k) = Some (10 ^ Z.of_nat k).
Proof.
  rewrite digits_value_app. change (JsBigInt.digits_value 0 "1") with (Some 1).
  cbv iota. rewrite digits_value_zeros. f_equal. lia.
Qed.

Lemma of_string_one_and_zeros k :
  JsBigInt.of_string ("1" ++ repeat_nat "0" k) = Ok (10 ^ Z.of_nat k).
Proof.
  apply of_string_digits; [discriminate | | apply one_and_zeros].
  rewrite all_digits_app, all_digits_zeros. reflexivity.
Qed.

(** The quotient string of the long division is a BigInt literal of a
    non-negative number. *)
Lemma inverse_loop_value count vUse :
  0 < vUse ->
  let res := inverse_loop (Z.to_nat FLOAT_PRECISION)
               (10 ^ Z.of_nat count) vUse EmptyString in
  exists m, 0 <= m /\ JsBigInt.of_string res = Ok m
            /\ JsBigInt.of_string (String "-" res) = Ok (- m).
Proof.
  intros Hv res.
  assert (Hall : all_digits res = true).
  { apply inverse_loop_digits; [lia | exact Hv | reflexivity]. }
  assert (Hne : res <> EmptyString) by apply inverse_loop_nonempty.
  destruct (digits_value_all res Hall 0) as [m [Hm Hpos]]; [lia |].
  exists m. split; [exact Hpos |]. split.
  - apply of_string_digits; assumption.
  - apply of_string_minus_digits; assumption.
Qed.

End Reciprocal.

Section ReciprocalSign.
Import DigitFacts.

Lemma inverse_positive x :
  0 < v x -> exists r, inverse x = Ok r /\ 0 <= v r.
Proof.
  intros Hv. unfold inverse, isZero.
  destruct (Z.eqb_spec (v x) 0); [lia |].
  unfold minus_unless_positive.
  destruct (Z.gtb_spec (v x) 0); [| lia].
  destruct (one_then_zeros _).
  - destruct (_ >? 0).
    + apply clamp_nonneg. lia.
    + change (EmptyString ++ ?s)%string with s.
      rewrite of_string_one_and_zeros. cbn [bind].
      apply clamp_nonneg. apply Z.pow_nonneg. lia.
  - rewrite of_string_one_and_zeros. cbn [bind append].
    destruct (inverse_loop_value (Z.to_nat (digitCount x)) (v x) Hv)
      as [m [Hm [E _]]].
    rewrite E. cbn [bind]. apply clamp_nonneg. exact Hm.
Qed.

Lemma inverse_negative x :
  v x < 0 -> positive_scale_shortcut x = false ->
  inverse x = Throw SyntaxError
  \/ exists r, inverse x = Ok r /\ v r <= 0.
Proof.
  intros Hv Hs. unfold inverse, isZero.
  destruct (Z.eqb_spec (v x) 0); [lia |].
  unfold minus_unless_positive.
  destruct (Z.gtb_spec (v x) 0); [lia |].
  unfold positive_scale_shortcut in Hs. cbv zeta in Hs.
  destruct (one_then_zeros _).
  - rewrite andb_true_l in Hs. rewrite Hs.
    change ("-" ++ "1" ++ ?s)%string with (String "-" ("1" ++ s)).
    rewrite of_string_minus_digits with (m := 10 ^ Z.of_nat (Z.to_nat (- (len (remove_first_minus (JsBigInt.toString (v x))) - 1 - dp x))));
      [| discriminate | apply one_and_zeros].
    cbn [bind]. apply clamp_nonpos.
    assert (0 <= 10 ^ Z.of_nat (Z.to_nat (- (len (remove_first_minus (JsBigInt.toString (v x))) - 1 - dp x))))
      by (apply Z.pow_nonneg; lia).
    lia.
  - rewrite of_string_one_and_zeros. cbn [bind].
    assert (Hu : 0 < - v x) by lia.
    destruct (inverse_loop_value (Z.to_nat (digitCount x)) (- v x) Hu)
      as [m [Hm [_ E]]].
    change ("-" ++ ?s)%string with (String "-" s).
    rewrite E. cbn [bind]. apply clamp_nonpos. lia.
Qed.

End ReciprocalSign.


Section ReciprocalZero.

Lemma clamp_zero d s :
  exists r, clamp_precision {| dp := d; v := 0; sign_prop := s |} = Ok r
            /\ v r = 0.
Proof.
  destruct (clamp_nonneg d s 0) as [r [Hr Hlo]]; [lia |].
  destruct (clamp_nonpos d s 0) as [E | [r' [Hr' Hhi]]]; [lia | congruence |].
  exists r. split; [exact Hr |].
  assert (r' = r) by congruence. subst. lia.
Qed.

Lemma bind_throw {A B : Type} (r : result A) (k : A -> result B) e :
  bind r k = Throw e ->
  r = Throw e \/ exists a, r = Ok a /\ k a = Throw e.
Proof.
  destruct r as [a | e']; cbn [bind]; intros H.
  - right. exists a. split; [reflexivity | exact H].
  - left. congruence.
Qed.

Lemma of_string_throw s e : JsBigInt.of_string s = Throw e -> e = SyntaxError.
Proof.
  unfold JsBigInt.of_string, JsBigInt.signed_digits.
  repeat match goal with
         | |- context [match ?t with _ => _ end] => destruct t
         end; congruence.
Qed.

Lemma clamp_throw x e : clamp_precision x = Throw e -> e = SyntaxError.
Proof.
  unfold clamp_precision. destruct (dp x >? FLOAT_PRECISION); [| discriminate].
  intros H. apply bind_throw in H as [H | [a [_ H]]]; [| discriminate].
  exact (of_string_throw _ _ H).
Qed.

(** Past the zero test, the only exception [inverse] can raise is the
    SyntaxError of a BigInt literal. *)
Lemma inverse_throw x e :
  v x <> 0 -> inverse x = Throw e -> e = SyntaxError.
Proof.
  intros Hv. unfold inverse, isZero.
  destruct (Z.eqb_spec (v x) 0); [contradiction |].
  destruct (one_then_zeros _).
  - destruct (_ >? 0); [apply clamp_throw |].
    intros H. apply bind_throw in H as [H | [a [_ H]]].
    + exact (of_string_throw _ _ H).
    + exact (clamp_throw _ _ H).
  - intros H. apply bind_throw in H as [H | [a [_ H]]].
    + exact (of_string_throw _ _ H).
    + apply bind_throw in H as [H | [b [_ H]]].
      * exact (of_string_throw _ _ H).
      * exact (clamp_throw _ _ H).
Qed.

(** [DivisionByZero] is raised by [inverse] on zero and on nothing else. *)
Lemma inverse_DivisionByZero_iff x :
  inverse x = Throw DivisionByZero <-> v x = 0.
Proof.
  split.
  - intros H. destruct (Z.eq_dec (v x) 0) as [E | N]; [exact E |].
    pose proof (inverse_throw x _ N H). discriminate.
  - intros E. unfold inverse, isZero. rewrite E. reflexivity.
Qed.

End ReciprocalZero.

(** * The scale invariant

    Every [BigDec] is built by the constructor, which clamps [dp] to
    [FLOAT_PRECISION]; the only in-place update, [_simplifyPrecision],
    lowers [dp].  So each operation hands back an object within the
    ceiling. *)

Section Invariant.

Lemma bind_ok {A B : Type} (r : result A) (k : A -> result B) b :
  bind r k = Ok b -> exists a, r = Ok a /\ k a = Ok b.
Proof.
  destruct r as [a | e]; cbn [bind]; intros H; [| discriminate].
  exists a. split; [reflexivity | exact H].
Qed.

Ltac unbind H :=
  let a := fresh "a" in
  let E := fresh "E" in
  apply bind_ok in H as [a [E H]].

Lemma add_dp x y r : add x y = Ok r -> dp r <= FLOAT_PRECISION.
Proof. unfold add. intros H. unbind H. exact (clamp_dp _ _ H). Qed.

Lemma mul_dp x y r : mul x y = Ok r -> dp r <= FLOAT_PRECISION.
Proof. apply clamp_dp. Qed.

Lemma negate_dp x r : negate x = Ok r -> dp r <= FLOAT_PRECISION.
Proof. apply clamp_dp. Qed.

Lemma abs_dp x r : abs x = Ok r -> dp r <= FLOAT_PRECISION.
Proof. apply clamp_dp. Qed.

Lemma sub_dp x y r : sub x y = Ok r -> dp r <= FLOAT_PRECISION.
Proof. unfold sub. intros H. unbind H. exact (add_dp _ _ _ H). Qed.

Lemma inverse_dp x r : inverse x = Ok r -> dp r <= FLOAT_PRECISION.
Proof.
  unfold inverse. destruct (isZero x); [discriminate |].
  destruct (one_then_zeros _).
  - destruct (_ >? 0); [apply clamp_dp |].
    intros H. unbind H. exact (clamp_dp _ _ H).
  - intros H. unbind H. unbind H. exact (clamp_dp _ _ H).
Qed.

Lemma simplify_loop_dp fuel x : dp (simplify_loop fuel x) <= dp x.
Proof.
  revert x. induction fuel as [| f IH]; intros x; cbn [simplify_loop]; [lia |].
  destruct (_ && _); [| lia].
  etransitivity; [apply IH |]. cbn [dp]. lia.
Qed.

Lemma div_dp x y r : div x y = Ok r -> dp r <= FLOAT_PRECISION.
Proof.
  unfold div. intros H. unbind H. unbind H. injection H as <-.
  etransitivity; [apply simplify_loop_dp | exact (mul_dp _ _ _ E0)].
Qed.

Lemma sqrt_loop_dp fuel this two : forall x r,
  dp x <= FLOAT_PRECISION ->
  sqrt_loop fuel this two x = Ok r -> dp (fst r) <= FLOAT_PRECISION.
Proof.
  induction fuel as [| f IH]; intros x r Hx; cbn [sqrt_loop].
  - intros [= <-]. exact Hx.
  - intros H. unbind H. unbind H. unbind H. unbind H.
    destruct (isZero _).
    + injection H as <-. exact Hx.
    + apply (IH _ _ (div_dp _ _ _ E1) H).
Qed.

Lemma sqrt_dp x r :
  dp x <= FLOAT_PRECISION -> sqrt x = Ok r -> dp r <= FLOAT_PRECISION.
Proof.
  intros Hx. unfold sqrt, sqrt_logged. intros H. unbind H. injection H as <-.
  destruct (v x <? 0); [discriminate |].
  destruct (_ || _).
  - injection E as <-. exact Hx.
  - unbind E. unbind E.
    exact (sqrt_loop_dp _ _ _ _ _ (div_dp _ _ _ E1) E).
Qed.

End Invariant.

(** * The two stripping loops of [toString] *)

Section Stripping.

Lemma strip_trailing_zeros_spec s :
  endsWith "0" (strip_trailing_zeros s) = false
  /\ exists k, s = (strip_trailing_zeros s ++ repeat_nat "0" k)%string.
Proof.
  induction s as [| c r [IH1 [k IH2]]]; cbn [strip_trailing_zeros].
  - split; [reflexivity | exists 0%nat; reflexivity].
  - destruct (strip_trailing_zeros r) as [| c' r'] eqn:E.
    + destruct (Ascii.eqb_spec c "0") as [-> | N].
      * split; [reflexivity |]. exists (S k). cbn. f_equal. exact IH2.
      * split.
        -- cbn. apply Ascii.eqb_neq. exact N.
        -- exists k. cbn. f_equal. exact IH2.
    + split.
      * exact IH1.
      * exists k. cbn [append]. f_equal. exact IH2.
Qed.

Lemma strip_leading_zeros_spec s :
  startsWith "0" (strip_leading_zeros s) = false
  /\ exists k, s = (repeat_nat "0" k ++ strip_leading_zeros s)%string.
Proof.
  induction s as [| c r [IH1 [k IH2]]]; cbn [strip_leading_zeros].
  - split; [reflexivity | exists 0%nat; reflexivity].
  - destruct (Ascii.eqb_spec c "0") as [-> | N].
    + split; [exact IH1 |]. exists (S k). cbn. f_equal. exact IH2.
    + split.
      * cbn. apply Ascii.eqb_neq. exact N.
      * exists 0%nat. reflexivity.
Qed.

End Stripping.

(** * The claims *)

Section Claims.
Import DigitFacts.

(** C1: parsing is meant to build the magnitude as the unbounded integer
    written by the digits.  The constructor computes [BigInt(sign * val)],
    so the digits pass through a binary64 number: the 19-digit input
    1234567890123456789 is accepted and yields the magnitude
    1234567890123456768, not the integer its digits write. *)
Theorem parse_19_digits_rounded :
  number_notation "1234567890123456789" = true
  /\ JsBigInt.digits_value 0 "1234567890123456789" = Some 1234567890123456789
  /\ BigDec_of_string "1234567890123456789" = Ok (dec 0 1234567890123456768)
  /\ 1234567890123456768 <> 1234567890123456789.
Proof. repeat split; try (vm_compute; reflexivity). discriminate. Qed.

(** C2: [cmp] is documented to return 1 exactly when [this > dec].  With
    equal signs and equal integer-part digit counts it compares the raw
    magnitudes without aligning the scales: 0.5 against 0.45 gives -1
    although 0.45 < 0.5. *)
Theorem cmp_unaligned_magnitudes :
  BigDec_of_string "0.5" = Ok (dec 1 5)
  /\ BigDec_of_string "0.45" = Ok (dec 2 45)
  /\ cmp (dec 1 5) (dec 2 45) = Ok (-1)
  /\ (value (dec 2 45) < value (dec 1 5))%Q.
Proof. repeat split; vm_compute; reflexivity. Qed.

(** C3: for all decimals [x] and [y] (objects of the constructor, hence of
    scale at most [FLOAT_PRECISION]), [x.add(y)] returns a decimal of value
    exactly [value x + value y] and [x.sub(y)], which is
    [x.add(y.negate())], one of value exactly [value x - value y]; the
    scale of both is the larger input scale; and 0.1 plus 0.2 renders as
    0.3. *)
Theorem add_sub_exact x y :
  dp x <= FLOAT_PRECISION -> dp y <= FLOAT_PRECISION ->
  (exists r, add x y = Ok r
             /\ (value r == value x + value y)%Q
             /\ dp r = Z.max (dp x) (dp y))
  /\ sub x y = (n <- negate y ;; add x n)
  /\ (exists r, sub x y = Ok r
                /\ (value r == value x - value y)%Q
                /\ dp r = Z.max (dp x) (dp y))
  /\ (a <- BigDec_of_string "0.1" ;; b <- BigDec_of_string "0.2" ;;
      r <- add a b ;; Ok (toString r)) = Ok "0.3".
Proof.
  intros Hx Hy. split; [| split; [reflexivity | split; [| reflexivity]]].
  - rewrite add_aligned by assumption.
    eexists. split; [reflexivity |]. split; [| reflexivity].
    rewrite value_sum, !value_aligned by lia. reflexivity.
  - unfold sub. rewrite negate_small by assumption. cbn [bind].
    rewrite add_aligned by assumption. cbn [dp v].
    eexists. split; [reflexivity |]. split; [| reflexivity].
    rewrite value_sum, !value_aligned by lia.
    unfold value. rewrite inject_Z_opp. ring.
Qed.

(** [add_sub_exact] at 0.1 and 0.25. *)
Lemma add_sub_exact_witness :
  dp (dec 1 1) <= FLOAT_PRECISION /\ dp (dec 2 25) <= FLOAT_PRECISION
  /\ exists r, add (dec 1 1) (dec 2 25) = Ok r
               /\ (value r == value (dec 1 1) + value (dec 2 25))%Q
               /\ dp r = Z.max (dp (dec 1 1)) (dp (dec 2 25)).
Proof.
  assert (H1 : dp (dec 1 1) <= FLOAT_PRECISION) by (vm_compute; discriminate).
  assert (H2 : dp (dec 2 25) <= FLOAT_PRECISION) by (vm_compute; discriminate).
  split; [exact H1 |]. split; [exact H2 |].
  exact (proj1 (add_sub_exact (dec 1 1) (dec 2 25) H1 H2)).
Defined.

(** C4: [abs] is meant to return the decimal with the sign forced to +1.
    It passes [sign: 1] to a constructor that keeps the sign inside [v],
    so [v] is copied unchanged: the absolute value of -5 is still -5 and
    renders with its minus. *)
Theorem abs_keeps_negative :
  BigDec_of_string "-5" = Ok (dec 0 (-5))
  /\ abs (dec 0 (-5)) = Ok {| dp := 0; v := -5; sign_prop := Some 1 |}
  /\ toString {| dp := 0; v := -5; sign_prop := Some 1 |} = "-5"
  /\ (value {| dp := 0; v := (-5)%Z; sign_prop := Some 1%Z |} < 0)%Q.
Proof. repeat split; vm_compute; reflexivity. Qed.

(** Reciprocals are cut at the precision ceiling, so the reciprocal of an
    operand beyond 10^20 in magnitude is zero: for the negative
    -2 * 10^21 the quotient string is 50 at scale 24, and the clamp drops
    four characters of its three. *)
Lemma inverse_sign_underflow :
  BigDec_of_string "-2000000000000000000000" = Ok (dec 0 (-2 * 10 ^ 21))
  /\ isZero (dec 0 (-2 * 10 ^ 21)) = false
  /\ sign (dec 0 (-2 * 10 ^ 21)) = Ok (-1)
  /\ inverse (dec 0 (-2 * 10 ^ 21)) = Ok (dec 20 0)
  /\ sign (dec 20 0) = Ok 0
  /\ isZero (dec 20 0) = true.
Proof. repeat split; vm_compute; reflexivity. Qed.

(** Outside the power-of-ten path with a positive scale left over, the
    reciprocal never has the sign opposite to its operand: [inverse]
    returns a decimal that is zero or has the sign of [x]; the only other
    outcome is the SyntaxError of the precision clamp, and only for
    negative [x]. *)
Lemma inverse_sign_kept x :
  v x <> 0 ->
  (v x <? 0) && positive_scale_shortcut x = false ->
  (v x < 0 /\ inverse x = Throw SyntaxError)
  \/ exists r, inverse x = Ok r /\ 0 <= Z.sgn (v x) * v r.
Proof.
  intros Hv Hs. destruct (Z.ltb_spec (v x) 0) as [L | G].
  - rewrite andb_true_l in Hs.
    destruct (inverse_negative x L Hs) as [E | [r [E Hr]]].
    + left. split; assumption.
    + right. exists r. split; [exact E |].
      rewrite (Z.sgn_neg (v x)) by exact L. lia.
  - right. destruct (inverse_positive x) as [r [E Hr]]; [lia |].
    exists r. split; [exact E |].
    rewrite (Z.sgn_pos (v x)) by lia. lia.
Qed.

(** [inverse_sign_kept] at -4, whose reciprocal comes back negative. *)
Lemma inverse_sign_kept_witness :
  v (dec 0 (-4)) <> 0
  /\ (v (dec 0 (-4)) <? 0) && positive_scale_shortcut (dec 0 (-4)) = false
  /\ ((v (dec 0 (-4)) < 0 /\ inverse (dec 0 (-4)) = Throw SyntaxError)
      \/ exists r, inverse (dec 0 (-4)) = Ok r
                   /\ 0 <= Z.sgn (v (dec 0 (-4))) * v r).
Proof.
  assert (H1 : v (dec 0 (-4)) <> 0) by (vm_compute; discriminate).
  assert (H2 : (v (dec 0 (-4)) <? 0)
               && positive_scale_shortcut (dec 0 (-4)) = false)
    by (vm_compute; reflexivity).
  split; [exact H1 |]. split; [exact H2 |].
  exact (inverse_sign_kept (dec 0 (-4)) H1 H2).
Defined.

(** On the power-of-ten path with a positive scale [d] left over,
    [inverse] returns [new BigDec({dp, v: 1n})]: whenever [d] is within
    the precision ceiling, the reciprocal of a negative operand is the
    positive [10^-d]. *)
Lemma inverse_shortcut_positive x :
  v x < 0 -> positive_scale_shortcut x = true ->
  len (remove_first_minus (JsBigInt.toString (v x))) - 1 - dp x
  <= FLOAT_PRECISION ->
  inverse x
  = Ok (dec (len (remove_first_minus (JsBigInt.toString (v x))) - 1 - dp x)
            1).
Proof.
  intros Hv Hs Hd. unfold inverse, isZero.
  destruct (Z.eqb_spec (v x) 0); [lia |].
  unfold positive_scale_shortcut in Hs. cbv zeta in Hs.
  apply andb_prop in Hs. destruct Hs as [H1 H2].
  rewrite H1. cbv zeta. rewrite H2.
  unfold BigDec_of_fields. apply clamp_small. cbn [dp]. exact Hd.
Qed.

(** C5: the reciprocal is meant to have the sign of its operand, also on
    the power-of-ten path.  That path has two returns: the one for a
    scale of zero or below prefixes the minus of a negative operand (the
    reciprocal of -0.1 is -10), as the long division does (the reciprocal
    of -4 is negative), but the one for a positive scale builds
    [{dp, v: 1n}] whatever the sign.  So the reciprocal of the negative,
    non-zero -10 is the positive 0.1, the same object as the reciprocal
    of 10. *)
Theorem inverse_minus_ten_positive :
  BigDec_of_string "-10" = Ok (dec 0 (-10))
  /\ isZero (dec 0 (-10)) = false
  /\ sign (dec 0 (-10)) = Ok (-1)
  /\ positive_scale_shortcut (dec 0 (-10)) = true
  /\ inverse (dec 0 (-10)) = Ok (dec 1 1)
  /\ sign (dec 1 1) = Ok 1
  /\ toString (dec 1 1) = "0.1"
  /\ inverse (dec 0 10) = Ok (dec 1 1)
  /\ (BigDec_of_string "-0.1" = Ok (dec 1 (-1))
      /\ positive_scale_shortcut (dec 1 (-1)) = false
      /\ inverse (dec 1 (-1)) = Ok (dec 0 (-10)))
  /\ (exists r, inverse (dec 0 (-4)) = Ok r /\ sign r = Ok (-1)).
Proof.
  repeat split; try (vm_compute; reflexivity).
  exists (dec 3 (-25)). split; vm_compute; reflexivity.
Qed.

(** The quotients of the Newton iteration are truncated, not rounded:
    already the first one for 9, 9 / 4.5, comes out as
    1.99999999999999999998, and the iteration settles on
    2.99999999999999999996, whose square is not 9. *)
Lemma sqrt_nine_inexact :
  BigDec_of_string "9" = Ok (dec 0 9)
  /\ mul (dec 0 3) (dec 0 3) = Ok (dec 0 9)
  /\ div (dec 0 9) (dec 0 2) = Ok (dec 1 45)
  /\ div (dec 0 9) (dec 1 45) = Ok (dec 20 199999999999999999998)
  /\ sqrt (dec 0 9) = Ok (dec 20 299999999999999999996)
  /\ toString (dec 20 299999999999999999996) = "2.99999999999999999996"
  /\ mul (dec 20 299999999999999999996) (dec 20 299999999999999999996)
     = Ok (dec 20 899999999999999999976)
  /\ ~ (value (dec 20 899999999999999999976) == value (dec 0 9))%Q.
Proof.
  repeat split; try (vm_compute; reflexivity).
  intros H. vm_compute in H. discriminate H.
Qed.

(** C6: the square root is meant to be exact on perfect squares, 0.01
    among them.  [sqrt] returns its operand when [v] is [0n] or [1n], and
    that test does not look at the scale: every decimal of magnitude 1
    is handed back, whatever its scale.  So the square root of 0.01, the
    square of the decimal 0.1, is 0.01, whose square is 0.0001 and not
    0.01.  The iteration itself, started as the code starts it at
    0.01 / 2, stops at exactly 0.1. *)
Theorem sqrt_hundredth_unchanged :
  BigDec_of_string "0.01" = Ok (dec 2 1)
  /\ BigDec_of_string "0.1" = Ok (dec 1 1)
  /\ mul (dec 1 1) (dec 1 1) = Ok (dec 2 1)
  /\ sqrt (dec 2 1) = Ok (dec 2 1)
  /\ mul (dec 2 1) (dec 2 1) = Ok (dec 4 1)
  /\ toString (dec 4 1) = "0.0001"
  /\ ~ (value (dec 4 1) == value (dec 2 1))%Q
  /\ (forall d s,
         sqrt {| dp := d; v := 1; sign_prop := s |}
         = Ok {| dp := d; v := 1; sign_prop := s |})
  /\ (two <- BigDec_of_bigint 2 ;;
      x <- div (dec 2 1) two ;;
      sqrt_loop sqrt_iterations (dec 2 1) two x) = Ok (dec 1 1, false).
Proof.
  repeat split; try (vm_compute; reflexivity).
  intros H. vm_compute in H. discriminate H.
Qed.

(** Where the square root is exact: a decimal of magnitude zero and the
    decimal one are returned unchanged, and [sqrt(4)] is 2 (the seed 4/2
    is already the root); in these cases [sqrt(x).mul(sqrt(x))] has
    numeric value exactly [x]. *)
Lemma sqrt_exact_cases :
  (forall d s,
      let x := {| dp := d; v := 0; sign_prop := s |} in
      sqrt x = Ok x
      /\ exists m, mul x x = Ok m /\ (value m == value x)%Q)
  /\ (BigDec_of_string "0" = Ok (dec 0 0)
      /\ sqrt (dec 0 0) = Ok (dec 0 0))
  /\ (BigDec_of_string "1" = Ok (dec 0 1)
      /\ sqrt (dec 0 1) = Ok (dec 0 1)
      /\ mul (dec 0 1) (dec 0 1) = Ok (dec 0 1))
  /\ (BigDec_of_string "4" = Ok (dec 0 4)
      /\ sqrt (dec 0 4) = Ok (dec 0 2)
      /\ mul (dec 0 2) (dec 0 2) = Ok (dec 0 4)
      /\ BigDec_of_string "2" = Ok (dec 0 2)).
Proof.
  split; [| repeat split; vm_compute; reflexivity].
  intros d s x. subst x. split; [reflexivity |].
  unfold mul, BigDec_of_fields. cbn [dp v]. change (0 * 0) with 0.
  destruct (clamp_zero (d + d) None) as [m [E Hm]].
  exists m. split; [exact E |].
  unfold value. rewrite Hm. cbn [v].
  change (inject_Z 0) with 0%Q. rewrite !Qmult_0_l. reflexivity.
Qed.

(** C7: rendering is meant to leave no trailing point.  [toString]
    strips the trailing zeros of the fraction and stops at the point,
    which stays: 99.9 plus 0.1 is stored as 1000 with scale 1 and renders
    with a point at its end. *)
Theorem toString_trailing_point :
  BigDec_of_string "99.9" = Ok (dec 1 999)
  /\ BigDec_of_string "0.1" = Ok (dec 1 1)
  /\ add (dec 1 999) (dec 1 1) = Ok (dec 1 1000)
  /\ toString (dec 1 1000) = "100."
  /\ endsWith "." (toString (dec 1 1000)) = true.
Proof. repeat split; vm_compute; reflexivity. Qed.

(** C8: the magnitude of a complex number with zero imaginary part is
    meant to be the absolute value of its real part.  [abs] returns
    [new BigNum(this.im)] there, the complex zero: for -3 + 0i it is 0,
    not 3.  With a zero real part it returns the number itself, so
    0 - 3i is handed back as it is. *)
Theorem BigNum_abs_real_is_zero :
  BigNum_of_strings "-3" "0" = Ok (BigNum_of (dec 0 (-3)) ZERO)
  /\ isZero (im (BigNum_of (dec 0 (-3)) ZERO)) = true
  /\ BigNum_abs (BigNum_of (dec 0 (-3)) ZERO) = Ok (AbsNum (BigNum_of ZERO ZERO))
  /\ BigNum_isZero (BigNum_of ZERO ZERO) = true
  /\ BigNum_abs (BigNum_of ZERO (dec 0 (-3)))
     = Ok (AbsNum (BigNum_of ZERO (dec 0 (-3)))).
Proof. repeat split; vm_compute; reflexivity. Qed.

(** C9: a reciprocal is meant to raise on zero only.  [DivisionByZero]
    is indeed raised exactly on zero, but the non-zero
    -30000000000000000000 makes [inverse] raise a SyntaxError: the long
    division yields 21 digits at scale 41, and the precision clamp cuts
    the last 21 characters of the 22-character string of the negative
    magnitude, leaving a lone minus for [BigInt].  Any [y.div(x)] fails
    with it. *)
Theorem inverse_nonzero_throws :
  (forall x, inverse x = Throw DivisionByZero <-> isZero x = true)
  /\ BigDec_of_string "-30000000000000000000"
     = Ok (dec 0 (-30000000000000000000))
  /\ isZero (dec 0 (-30000000000000000000)) = false
  /\ inverse (dec 0 (-30000000000000000000)) = Throw SyntaxError
  /\ (forall y, div y (dec 0 (-30000000000000000000)) = Throw SyntaxError).
Proof.
  split.
  { intros x. rewrite inverse_DivisionByZero_iff. unfold isZero.
    symmetry. apply Z.eqb_eq. }
  repeat split; try (vm_compute; reflexivity).
Qed.

(** C10: there is an input accepted by the number notation, the negative
    number whose only non-zero digit is the 21st after the point, on
    which the constructor raises an exception that is none of
    InvalidFormat, DivisionByZero and NegativeSquareRoot, while the same
    digits without the minus parse to zero. *)
Theorem constructor_unspecified_error :
  number_notation "-0.000000000000000000001" = true
  /\ len (substring_from 3 "-0.000000000000000000001") = 21
  /\ (exists e, BigDec_of_string "-0.000000000000000000001" = Throw e
                /\ specified_error e = false)
  /\ number_notation "0.000000000000000000001" = true
  /\ (exists z, BigDec_of_string "0.000000000000000000001" = Ok z
                /\ isZero z = true).
Proof.
  repeat split; try (vm_compute; reflexivity).
  - exists SyntaxError. split; vm_compute; reflexivity.
  - exists (dec 20 0). split; vm_compute; reflexivity.
Qed.

End Claims.

(** * Arithmetic of digit strings *)

Section DigitArithmetic.
Import DigitFacts JsBigInt.

Lemma len_cons c s : len (String c s) = len s + 1.
Proof. unfold len. cbn [String.length]. lia. Qed.

Lemma len_nonneg s : 0 <= len s.
Proof. unfold len. lia. Qed.

Lemma len_app s t : len (s ++ t) = len s + len t.
Proof.
  induction s as [| c s IH]; cbn [append]; [reflexivity |].
  rewrite !len_cons, IH. lia.
Qed.

Lemma len_repeat c k : len (repeat_nat c k) = Z.of_nat k.
Proof.
  induction k as [| k IH]; [reflexivity |].
  cbn [repeat_nat]. rewrite len_cons, IH. lia.
Qed.

(** The value of a run of digits, its bound, and how an accumulator
    enters it. *)
Lemma digits_value_acc s :
  all_digits s = true ->
  exists m, digits_value 0 s = Some m
            /\ 0 <= m < 10 ^ len s
            /\ forall acc, digits_value acc s = Some (acc * 10 ^ len s + m).
Proof.
  induction s as [| c r IH]; cbn [all_digits]; intros H.
  - exists 0. cbn [digits_value]. change (10 ^ len "") with 1.
    repeat split; try lia. intros acc. f_equal. lia.
  - apply andb_true_iff in H as [Hc Hr].
    destruct (IH Hr) as [mr [_ [Hb Hacc]]].
    pose proof (digit_value_range c Hc) as Hd.
    pose proof (len_nonneg r) as Hl.
    assert (HP : 0 < 10 ^ len r) by (apply Z.pow_pos_nonneg; lia).
    exists (digit_value c * 10 ^ len r + mr).
    cbn [digits_value]. rewrite Hc, len_cons, Z.pow_add_r by lia.
    change (10 ^ 1) with 10.
    split; [| split].
    + rewrite Hacc. f_equal; lia.
    + nia.
    + intros acc. rewrite Hacc. f_equal. ring.
Qed.

Lemma take_drop j s : s = (take j s ++ drop j s)%string.
Proof.
  revert s. induction j as [| j IH]; intros [| c r]; cbn; try reflexivity.
  f_equal. apply IH.
Qed.

Lemma len_take j s : len (take j s) = Z.min (Z.of_nat j) (len s).
Proof.
  revert s. induction j as [| j IH]; intros [| c r]; cbn [take].
  - reflexivity.
  - pose proof (len_nonneg (String c r)). change (len "") with 0. lia.
  - change (len "") with 0. lia.
  - rewrite !len_cons, IH. lia.
Qed.

Lemma all_digits_drop j s : all_digits s = true -> all_digits (drop j s) = true.
Proof.
  revert s. induction j as [| j IH]; intros [| c r]; cbn; auto.
  intros H. apply andb_true_iff in H as [_ H]. auto.
Qed.

(** Dropping the last [k] digits divides the value by [10^k]. *)
Lemma digits_value_prefix s n k :
  all_digits s = true -> digits_value 0 s = Some n ->
  0 <= k <= len s ->
  digits_value 0 (take (Z.to_nat (len s - k)) s) = Some (n / 10 ^ k).
Proof.
  intros Hs Hn Hk.
  set (j := Z.to_nat (len s - k)).
  pose proof (take_drop j s) as Hsplit.
  assert (H1 : all_digits (take j s) = true) by (apply all_digits_take, Hs).
  assert (H2 : all_digits (drop j s) = true) by (apply all_digits_drop, Hs).
  destruct (digits_value_acc _ H1) as [m1 [E1 _]].
  destruct (digits_value_acc _ H2) as [m2 [_ [B2 A2]]].
  assert (Hlen : len (drop j s) = k).
  { pose proof (f_equal len Hsplit) as E. rewrite len_app, len_take in E.
    unfold j in E at 1. rewrite Z2Nat.id in E by lia. lia. }
  rewrite Hlen in *.
  rewrite Hsplit, digits_value_app, E1, A2 in Hn. injection Hn as <-.
  rewrite E1. f_equal.
  apply Z.div_unique with (r := m2); lia.
Qed.

Lemma of_string_digits_value s m :
  all_digits s = true -> digits_value 0 s = Some m -> of_string s = Ok m.
Proof.
  intros Hs Hm. destruct s as [| c r] eqn:E.
  - cbn in Hm. injection Hm as <-. reflexivity.
  - rewrite <- E in *. apply of_string_digits; [rewrite E; discriminate | |];
      assumption.
Qed.

Lemma startsWith_app c s t :
  s <> EmptyString -> startsWith c (s ++ t) = startsWith c s.
Proof. destruct s; [congruence | reflexivity]. Qed.

Lemma digit_char_nonzero d :
  0 < d < 10 -> Ascii.eqb (digit_char d) "0" = false.
Proof.
  intros H.
  assert (C : d = 1 \/ d = 2 \/ d = 3 \/ d = 4 \/ d = 5 \/ d = 6
              \/ d = 7 \/ d = 8 \/ d = 9) by lia.
  repeat (destruct C as [-> | C]; [reflexivity |]); subst; reflexivity.
Qed.

(** The decimal string of a positive number does not start with a zero. *)
Lemma digits_leading fuel : forall n,
  0 < n < 10 ^ Z.of_nat fuel -> startsWith "0" (digits fuel n) = false.
Proof.
  induction fuel as [| f IH]; intros n Hn.
  - change (10 ^ Z.of_nat 0) with 1 in Hn. lia.
  - cbn [digits]. rewrite Nat2Z.inj_succ, Z.pow_succ_r in Hn by lia.
    destruct (Z.ltb_spec n 10).
    + cbn [startsWith]. apply digit_char_nonzero. lia.
    + assert (Hq : 0 < n / 10 < 10 ^ Z.of_nat f).
      { split; [apply Z.div_str_pos; lia | apply Z.div_lt_upper_bound; lia]. }
      rewrite startsWith_app; [apply IH, Hq |].
      destruct f as [| f']; [| apply digits_nonempty].
      change (10 ^ Z.of_nat 0) with 1 in Hq. lia.
Qed.

Lemma pos_digits_leading p : startsWith "0" (pos_digits p) = false.
Proof.
  apply digits_leading. pose proof (pos_lt_pow10_size p). lia.
Qed.

Lemma digit_value_zero c : is_digit c = true -> digit_value c = 0 -> c = "0"%char.
Proof.
  unfold digit_value. intros _ H.
  rewrite <- (ascii_N_embedding c).
  replace (N_of_ascii c) with 48%N by lia. reflexivity.
Qed.

Lemma digit_value_one c : is_digit c = true -> digit_value c = 1 -> c = "1"%char.
Proof.
  unfold digit_value. intros _ H.
  rewrite <- (ascii_N_embedding c).
  replace (N_of_ascii c) with 49%N by lia. reflexivity.
Qed.

(** A decimal string without a leading zero has as many digits as its
    value needs. *)
Lemma digits_value_lower c r m :
  all_digits (String c r) = true -> startsWith "0" (String c r) = false ->
  digits_value 0 (String c r) = Some m -> 10 ^ len r <= m.
Proof.
  cbn [all_digits startsWith]. intros H Hz Hm.
  apply andb_true_iff in H as [Hc Hr].
  destruct (digits_value_acc r Hr) as [mr [_ [B A]]].
  cbn [digits_value] in Hm. rewrite Hc, A in Hm. injection Hm as <-.
  pose proof (digit_value_range c Hc).
  assert (digit_value c <> 0).
  { intros E. apply digit_value_zero in E; [| exact Hc]. subst c. discriminate. }
  nia.
Qed.

Lemma pos_digits_bounds p :
  10 ^ (len (pos_digits p) - 1) <= Zpos p < 10 ^ len (pos_digits p).
Proof.
  pose proof (pos_digits_all p) as Ha.
  pose proof (pos_digits_value p) as Hv.
  pose proof (pos_digits_leading p) as Hz.
  destruct (digits_value_acc _ Ha) as [m [E [B _]]].
  assert (m = Zpos p) by congruence. subst m.
  split; [| lia].
  destruct (pos_digits p) as [| c r] eqn:Ed;
    [exfalso; exact (pos_digits_nonempty p Ed) |].
  rewrite len_cons. replace (len r + 1 - 1) with (len r) by lia.
  exact (digits_value_lower c r _ Ha Hz Hv).
Qed.

End DigitArithmetic.

(** * The precision clamp of the constructor *)

Section Clamp.
Import DigitFacts JsBigInt.

Lemma take_all_len s j : len s <= Z.of_nat j -> take j s = s.
Proof.
  revert j. induction s as [| c r IH]; intros [| j]; cbn [take];
    rewrite ?len_cons; intros H; try reflexivity.
  - pose proof (len_nonneg r). lia.
  - f_equal. apply IH. lia.
Qed.

Lemma slice_nonneg_digits p k :
  0 < k ->
  of_string (slice_0_neg k (pos_digits p)) = Ok (Zpos p / 10 ^ k).
Proof.
  intros Hk. unfold slice_0_neg.
  pose proof (pos_digits_bounds p) as [_ Hub].
  destruct (Z.le_gt_cases k (len (pos_digits p))) as [Hle | Hgt].
  - rewrite Z.max_l by lia.
    apply of_string_digits_value.
    + apply all_digits_take, pos_digits_all.
    + apply digits_value_prefix;
        [apply pos_digits_all | apply pos_digits_value | lia].
  - rewrite Z.max_r by lia. cbn [Z.to_nat take].
    rewrite Z.div_small; [reflexivity |].
    split; [lia |].
    eapply Z.lt_le_trans; [exact Hub |].
    apply Z.pow_le_mono_r; lia.
Qed.

Lemma slice_negative_digits p k :
  0 < k ->
  of_string (slice_0_neg k (toString (Zneg p))) =
  if len (pos_digits p) =? k then Throw SyntaxError
  else Ok (- (Zpos p / 10 ^ k)).
Proof.
  intros Hk. unfold slice_0_neg. cbn [toString]. rewrite len_cons.
  pose proof (pos_digits_bounds p) as [_ Hub].
  pose proof (len_nonneg (pos_digits p)) as Hl.
  destruct (Z.eqb_spec (len (pos_digits p)) k) as [E | N].
  - replace (Z.max (len (pos_digits p) + 1 - k) 0) with 1 by lia.
    change (Z.to_nat 1) with 1%nat. cbn [take]. reflexivity.
  - destruct (Z.lt_ge_cases k (len (pos_digits p))) as [Hlt | Hge].
    + replace (Z.to_nat (Z.max (len (pos_digits p) + 1 - k) 0))
        with (S (Z.to_nat (len (pos_digits p) - k))) by lia.
      cbn [take].
      apply of_string_minus_digits.
      * intros E. apply (f_equal len) in E. rewrite len_take in E.
        change (len "") with 0 in E. lia.
      * apply digits_value_prefix;
          [apply pos_digits_all | apply pos_digits_value | lia].
    + replace (Z.max (len (pos_digits p) + 1 - k) 0) with 0 by lia.
      cbn [Z.to_nat take of_string].
      rewrite Z.div_small; [reflexivity |].
      split; [lia |].
      eapply Z.lt_le_trans; [exact Hub |].
      apply Z.pow_le_mono_r; lia.
Qed.

(** What the constructor does to a scale above the ceiling: the
    magnitude loses its last [dp - 20] digits (it is truncated toward
    zero) and the scale becomes 20; but a negative magnitude of exactly
    [dp - 20] digits is cut down to its minus sign, and the constructor
    throws. *)
Lemma clamp_truncates x :
  FLOAT_PRECISION < dp x ->
  clamp_precision x =
  if (v x <? 0) && (digitCount x - 1 =? dp x - FLOAT_PRECISION)
  then Throw SyntaxError
  else Ok {| dp := FLOAT_PRECISION;
             v := Z.quot (v x) (10 ^ (dp x - FLOAT_PRECISION));
             sign_prop := sign_prop x |}.
Proof.
  intros H. unfold clamp_precision, digitCount.
  destruct (Z.gtb_spec (dp x) FLOAT_PRECISION) as [_ | G]; [| lia].
  set (k := dp x - FLOAT_PRECISION). assert (Hk : 0 < k) by (unfold k; lia).
  assert (HP : 0 < 10 ^ k) by (apply Z.pow_pos_nonneg; lia).
  destruct (v x) as [| p | p].
  - cbn [Z.ltb Z.compare andb].
    unfold slice_0_neg. change (toString 0) with "0". change (len "0") with 1.
    replace (Z.max (1 - k) 0) with 0 by lia. cbn [Z.to_nat take of_string bind].
    rewrite Z.quot_0_l by lia. reflexivity.
  - cbn [Z.ltb Z.compare andb toString].
    rewrite slice_nonneg_digits by exact Hk. cbn [bind].
    rewrite Z.quot_div_nonneg by lia. reflexivity.
  - change (Zneg p <? 0) with true. cbn [andb].
    rewrite slice_negative_digits by exact Hk.
    cbn [toString]. rewrite len_cons.
    replace (len (pos_digits p) + 1 - 1) with (len (pos_digits p)) by lia.
    destruct (len (pos_digits p) =? k); [reflexivity |]. cbn [bind].
    do 2 f_equal. change (Zneg p) with (- Zpos p).
    rewrite Z.quot_opp_l, Z.quot_div_nonneg by lia. reflexivity.
Qed.

End Clamp.

(** * Algebra of [add] and [mul] *)

Section Algebra.

Lemma add_comm_aligned x y :
  dp x <= FLOAT_PRECISION -> dp y <= FLOAT_PRECISION -> add x y = add y x.
Proof.
  intros Hx Hy. rewrite !add_aligned by assumption.
  rewrite (Z.max_comm (dp y) (dp x)). do 2 f_equal. lia.
Qed.

Lemma pow10_split a b c :
  a <= b -> b <= c -> 10 ^ (b - a) * 10 ^ (c - b) = 10 ^ (c - a).
Proof.
  intros H1 H2. rewrite <- Z.pow_add_r by lia. f_equal. lia.
Qed.

Lemma add_assoc_aligned x y z :
  dp x <= FLOAT_PRECISION -> dp y <= FLOAT_PRECISION ->
  dp z <= FLOAT_PRECISION ->
  (r <- add x y ;; add r z) = (r <- add y z ;; add x r).
Proof.
  intros Hx Hy Hz.
  rewrite (add_aligned x y), (add_aligned y z) by assumption. cbn [bind].
  rewrite !add_aligned by (cbn [dp]; lia). cbn [dp v].
  rewrite Z.max_assoc.
  set (M := Z.max (Z.max (dp x) (dp y)) (dp z)).
  f_equal. f_equal.
  rewrite !Z.mul_add_distr_r, <- !Z.mul_assoc.
  rewrite !pow10_split by lia.
  lia.
Qed.

Lemma add_negate_zero x :
  dp x <= FLOAT_PRECISION ->
  exists r, (n <- negate x ;; add x n) = Ok r /\ isZero r = true.
Proof.
  intros Hx. rewrite negate_small by exact Hx. cbn [bind].
  rewrite add_aligned by (cbn [dp]; exact Hx). cbn [dp v].
  eexists. split; [reflexivity |].
  unfold isZero. cbn [v]. apply Z.eqb_eq. lia.
Qed.

Lemma mul_comm_fields x y : mul x y = mul y x.
Proof.
  unfold mul. rewrite (Z.add_comm (dp y)), (Z.mul_comm (v y)). reflexivity.
Qed.

Lemma mul_small x y :
  dp x + dp y <= FLOAT_PRECISION ->
  mul x y = Ok {| dp := dp x + dp y; v := v x * v y; sign_prop := None |}.
Proof. intros H. unfold mul, BigDec_of_fields. apply clamp_small. exact H. Qed.

Lemma mul_assoc_small x y z :
  dp x + dp y <= FLOAT_PRECISION -> dp y + dp z <= FLOAT_PRECISION ->
  dp x + dp y + dp z <= FLOAT_PRECISION ->
  (r <- mul x y ;; mul r z) = (r <- mul y z ;; mul x r).
Proof.
  intros H1 H2 H3. rewrite (mul_small x y), (mul_small y z) by assumption.
  cbn [bind]. rewrite !mul_small by (cbn [dp]; lia). cbn [dp v].
  do 2 f_equal; lia.
Qed.

Local Open Scope Q_scope.

Lemma value_product x y :
  value {| dp := dp x + dp y; v := v x * v y; sign_prop := None |}
  == value x * value y.
Proof.
  unfold value. cbn [dp v]. rewrite inject_Z_mult.
  replace (- (dp x + dp y))%Z with (- dp x + - dp y)%Z by lia.
  rewrite (Qpower_plus _ _ _ ten_nonzero). ring.
Qed.

(** One turn of the [while] of [_simplifyPrecision] keeps the value. *)
Lemma value_simplify_step x :
  Z.rem (v x) 10 = 0%Z ->
  value {| dp := dp x - 1; v := Z.quot (v x) 10; sign_prop := sign_prop x |}
  == value x.
Proof.
  intros H. unfold value. cbn [dp v].
  pose proof (Z.quot_rem' (v x) 10) as E. rewrite H, Z.add_0_r in E.
  rewrite <- (value_rescale (Z.quot (v x) 10) (dp x - 1) 1) by lia.
  replace (Z.quot (v x) 10 * 10 ^ 1)%Z with (v x)
    by (change (10 ^ 1)%Z with 10%Z; lia).
  replace (dp x - 1 + 1)%Z with (dp x) by lia.
  reflexivity.
Qed.

Lemma value_simplify_loop fuel x : value (simplify_loop fuel x) == value x.
Proof.
  revert x. induction fuel as [| f IH]; intros x; cbn [simplify_loop];
    [reflexivity |].
  destruct (dp x >? 0)%Z; cbn [andb]; [| reflexivity].
  destruct (Z.eqb_spec (Z.rem (v x) 10) 0) as [E | N]; [| reflexivity].
  rewrite IH. apply value_simplify_step. exact E.
Qed.

End Algebra.

(** * The long division of [inverse] *)

Section LongDivision.
Import DigitFacts JsBigInt.

Lemma toString_single_digit q :
  0 <= q < 10 -> toString q = String (digit_char q) EmptyString.
Proof.
  intros H. destruct q as [| p | p]; [reflexivity | | lia].
  cbn [toString]. unfold pos_digits.
  destruct (Pos.size_nat p) as [| f] eqn:E; [destruct p; discriminate E |].
  cbn [digits]. destruct (Z.ltb_spec (Zpos p) 10); [reflexivity | lia].
Qed.

Lemma inverse_loop_S f n vUse res :
  inverse_loop (S f) n vUse res =
  if Z.rem n vUse =? 0 then (res ++ toString (Z.quot n vUse))%string
  else inverse_loop f (Z.rem n vUse * 10) vUse
         (res ++ toString (Z.quot n vUse)).
Proof. reflexivity. Qed.

(** While every quotient is a single digit, the quotient string reads
    as the integer quotient of the scaled dividend. *)
Lemma inverse_loop_quotient fuel : forall n vUse res R,
  0 < vUse -> 0 <= n < 10 * vUse ->
  all_digits res = true -> digits_value 0 res = Some R ->
  exists j, 1 <= j <= Z.of_nat (S fuel)
    /\ all_digits (inverse_loop (S fuel) n vUse res) = true
    /\ len (inverse_loop (S fuel) n vUse res) = len res + j
    /\ digits_value 0 (inverse_loop (S fuel) n vUse res)
       = Some (R * 10 ^ j + (n * 10 ^ (j - 1)) / vUse).
Proof.
  induction fuel as [| f IH]; intros n vUse res R Hv Hn Hres HR.
  - assert (Hq : 0 <= n / vUse < 10).
    { split; [apply Z.div_pos; lia | apply Z.div_lt_upper_bound; lia]. }
    exists 1. cbn [inverse_loop].
    rewrite Z.quot_div_nonneg, toString_single_digit by lia.
    assert (Hres' : all_digits (res ++ String (digit_char (n / vUse)) "") = true).
    { rewrite all_digits_app, Hres. cbn [all_digits andb].
      rewrite digit_char_is_digit by lia. reflexivity. }
    assert (Hval : digits_value 0 (res ++ String (digit_char (n / vUse)) "")
                   = Some (R * 10 ^ 1 + n * 10 ^ (1 - 1) / vUse)).
    { rewrite digits_value_app, HR. cbn [digits_value].
      rewrite digit_char_is_digit, digit_value_char by lia.
      f_equal. change (10 ^ (1 - 1)) with 1. change (10 ^ 1) with 10.
      rewrite Z.mul_1_r. lia. }
    assert (Hlen : len (res ++ String (digit_char (n / vUse)) "") = len res + 1).
    { rewrite len_app. reflexivity. }
    split; [lia |].
    destruct (Z.rem n vUse =? 0); repeat split; assumption.
  - assert (Hq : 0 <= n / vUse < 10).
    { split; [apply Z.div_pos; lia | apply Z.div_lt_upper_bound; lia]. }
    rewrite inverse_loop_S.
    rewrite Z.quot_div_nonneg, Z.rem_mod_nonneg, toString_single_digit by lia.
    set (res1 := (res ++ String (digit_char (n / vUse)) "")%string).
    assert (Hres' : all_digits res1 = true).
    { unfold res1. rewrite all_digits_app, Hres. cbn [all_digits andb].
      rewrite digit_char_is_digit by lia. reflexivity. }
    assert (Hval1 : digits_value 0 res1 = Some (10 * R + n / vUse)).
    { unfold res1. rewrite digits_value_app, HR. cbn [digits_value].
      rewrite digit_char_is_digit, digit_value_char by lia. reflexivity. }
    assert (Hlen : len res1 = len res + 1).
    { unfold res1. rewrite len_app. reflexivity. }
    destruct (Z.eqb_spec (n mod vUse) 0) as [E | N].
    + exists 1. split; [lia |]. repeat split; try assumption.
      rewrite Hval1. f_equal. change (10 ^ (1 - 1)) with 1. change (10 ^ 1) with 10.
      rewrite Z.mul_1_r. lia.
    + pose proof (Z.mod_pos_bound n vUse Hv) as Hm.
      destruct (IH (n mod vUse * 10) vUse res1 (10 * R + n / vUse) Hv)
        as [j [Hj [Ha [Hl Hd]]]]; [lia | exact Hres' | exact Hval1 |].
      exists (j + 1). split; [lia |].
      split; [exact Ha |]. split; [rewrite Hl; lia |].
      rewrite Hd. f_equal.
      replace (j + 1 - 1) with j by lia.
      rewrite (Z.pow_add_r 10 j 1) by lia. change (10 ^ 1) with 10.
      replace (n mod vUse * 10 * 10 ^ (j - 1)) with (n mod vUse * 10 ^ j).
      2:{ replace j with (j - 1 + 1) at 1 by lia.
          rewrite Z.pow_add_r by lia. change (10 ^ 1) with 10. ring. }
      pose proof (Z.div_mod n vUse ltac:(lia)) as Hdm.
      replace (n * 10 ^ j)
        with (n / vUse * 10 ^ j * vUse + n mod vUse * 10 ^ j) by nia.
      rewrite Z.div_add_l by lia. ring.
Qed.

End LongDivision.

(** * Powers of ten and the reciprocal of a positive decimal *)

Section PositiveReciprocal.
Import DigitFacts JsBigInt.

Lemma skip_zeros_all r :
  skip_zeros r = EmptyString -> r = repeat_nat "0" (String.length r).
Proof.
  induction r as [| c r IH]; cbn [skip_zeros String.length repeat_nat];
    [reflexivity |].
  destruct (Ascii.eqb_spec c "0") as [-> | N]; [| discriminate].
  intros H. f_equal. apply IH, H.
Qed.

Lemma zero_value_zeros r :
  all_digits r = true -> digits_value 0 r = Some 0 ->
  skip_zeros r = EmptyString.
Proof.
  induction r as [| c r IH]; [reflexivity |].
  cbn [all_digits]. intros H Hv. apply andb_true_iff in H as [Hc Hr].
  destruct (digits_value_acc r Hr) as [mr [E [B A]]].
  cbn [digits_value] in Hv. rewrite Hc, A in Hv. injection Hv as Hv.
  pose proof (digit_value_range c Hc) as Hd.
  assert (HP : 0 < 10 ^ len r) by (apply Z.pow_pos_nonneg; [lia | apply len_nonneg]).
  assert (digit_value c = 0 /\ mr = 0) as [Hc0 Hm0] by nia.
  apply digit_value_zero in Hc0; [| exact Hc]. subst c mr.
  cbn [skip_zeros]. change (Ascii.eqb "0" "0") with true. cbv iota.
  apply IH; assumption.
Qed.

Lemma skip_minus_digits s : all_digits s = true -> skip_minus s = s.
Proof.
  destruct s as [| c r]; [reflexivity |]. cbn [all_digits skip_minus].
  intros H. apply andb_true_iff in H as [Hc _].
  destruct (digit_not_sign c Hc) as [E _]. rewrite E. reflexivity.
Qed.

Lemma remove_first_minus_digits s :
  all_digits s = true -> remove_first_minus s = s.
Proof.
  induction s as [| c r IH]; [reflexivity |].
  cbn [all_digits remove_first_minus].
  intros H. apply andb_true_iff in H as [Hc Hr].
  destruct (digit_not_sign c Hc) as [E _]. rewrite E, IH by exact Hr.
  reflexivity.
Qed.

(** The pattern of [inverse] holds for a positive magnitude exactly when
    it is a power of ten. *)
Lemma one_then_zeros_iff p :
  one_then_zeros (pos_digits p) = true
  <-> Zpos p = 10 ^ (len (pos_digits p) - 1).
Proof.
  pose proof (pos_digits_all p) as Ha.
  pose proof (pos_digits_value p) as Hv.
  pose proof (pos_digits_leading p) as Hz.
  unfold one_then_zeros. rewrite skip_minus_digits by exact Ha.
  destruct (pos_digits p) as [| c r] eqn:Ed;
    [exfalso; exact (pos_digits_nonempty p Ed) |].
  rewrite len_cons. replace (len r + 1 - 1) with (len r) by lia.
  pose proof Ha as Ha'. cbn [all_digits] in Ha'.
  apply andb_true_iff in Ha' as [Hc Hr].
  destruct (digits_value_acc r Hr) as [mr [E [B A]]].
  pose proof Hv as Hv'. cbn [digits_value] in Hv'. rewrite Hc, A in Hv'.
  injection Hv' as Hp.
  pose proof (digit_value_range c Hc) as Hd.
  assert (HP : 0 < 10 ^ len r) by (apply Z.pow_pos_nonneg; [lia | apply len_nonneg]).
  split.
  - intros H. apply andb_true_iff in H as [H1 H2].
    apply Ascii.eqb_eq in H1. subst c.
    destruct (skip_zeros r) eqn:Es; [| discriminate].
    apply skip_zeros_all in Es.
    assert (Hone : digits_value 0 ("1" ++ repeat_nat "0" (String.length r))
                   = Some (10 ^ len r)) by apply one_and_zeros.
    rewrite <- Es in Hone. cbn [append] in Hone. congruence.
  - intros H.
    assert (digit_value c = 1 /\ mr = 0) as [Hc1 Hm0].
    { rewrite H in Hp. generalize dependent (10 ^ len r). intros P.
      generalize dependent (digit_value c). intros d. intros.
      assert (C : d = 0 \/ d = 1 \/ 2 <= d) by lia.
      destruct C as [-> | [-> | C]]; [lia | lia | nia]. }
    apply digit_value_one in Hc1; [| exact Hc]. subst c mr.
    change (Ascii.eqb "1" "1") with true. cbn [andb].
    rewrite zero_value_zeros; [reflexivity | exact Hr | exact E].
Qed.

(** Cutting a truncated quotient at the ceiling is truncating at the
    ceiling. *)
Lemma quotient_recut e k n :
  0 < n -> 0 <= e -> 0 < k ->
  (10 ^ e / n) / 10 ^ k = 10 ^ (e - k) / n.
Proof.
  intros Hn He Hk.
  assert (HK : 0 < 10 ^ k) by (apply Z.pow_pos_nonneg; lia).
  rewrite Z.div_div by lia.
  destruct (Z.le_gt_cases k e) as [Hle | Hgt].
  - replace e with (e - k + k) at 1 by lia.
    rewrite (Z.pow_add_r 10 (e - k) k) by lia.
    apply Z.div_mul_cancel_r; lia.
  - rewrite (Z.pow_neg_r 10 (e - k)) by lia. rewrite Z.div_0_l by lia.
    apply Z.div_small. split; [apply Z.pow_nonneg; lia |].
    assert (10 ^ e < 10 ^ k) by (apply Z.pow_lt_mono_r; lia). nia.
Qed.

(** The reciprocal of a positive decimal is the exact reciprocal cut
    (not rounded) at the scale of the result. *)
Lemma inverse_positive_value x :
  0 < v x ->
  exists r, inverse x = Ok r
            /\ v r = 10 ^ (dp r + dp x) / v x
            /\ dp r <= FLOAT_PRECISION
            /\ sign_prop r = None.
Proof.
  intros Hv. unfold inverse, isZero, minus_unless_positive, digitCount.
  destruct (Z.eqb_spec (v x) 0); [lia |].
  destruct (Z.gtb_spec (v x) 0); [| lia].
  destruct (v x) as [| p | p] eqn:Ev; try lia.
  cbn [toString].
  pose proof (pos_digits_bounds p) as [Hlo Hhi].
  pose proof (len_nonneg (pos_digits p)) as HL.
  set (L := len (pos_digits p)) in *.
  destruct (one_then_zeros (pos_digits p)) eqn:Epat.
  - apply one_then_zeros_iff in Epat. fold L in Epat.
    rewrite remove_first_minus_digits by apply pos_digits_all. fold L.
    assert (HL1 : 1 <= L).
    { destruct (Z.le_gt_cases 1 L); [assumption |].
      rewrite Z.pow_neg_r in Epat by lia. lia. }
    destruct (Z.gtb_spec (L - 1 - dp x) 0) as [G | G].
    + unfold BigDec_of_fields.
      destruct (Z.le_gt_cases (L - 1 - dp x) FLOAT_PRECISION) as [Hs | Hb].
      * rewrite clamp_small by exact Hs.
        eexists. split; [reflexivity |]. cbn [dp v sign_prop].
        repeat split; try assumption.
        replace (L - 1 - dp x + dp x) with (L - 1) by lia.
        rewrite Epat, Z.div_same; [reflexivity |].
        apply Z.pow_nonzero; lia.
      * rewrite clamp_truncates by (cbn [dp]; lia). cbn [dp v sign_prop].
        change (1 <? 0) with false. cbn [andb].
        eexists. split; [reflexivity |]. cbn [dp v sign_prop].
        repeat split; try reflexivity.
        rewrite Z.quot_div_nonneg; [| lia | apply Z.pow_pos_nonneg; lia].
        pose proof (quotient_recut (L - 1) (L - 1 - dp x - FLOAT_PRECISION)
                      (Zpos p) ltac:(lia) ltac:(lia) ltac:(lia)) as Q.
        rewrite <- Epat, Z.div_same in Q by lia.
        rewrite Q. f_equal. f_equal. lia.
    + change (EmptyString ++ ?s)%string with s.
      rewrite of_string_one_and_zeros. cbn [bind].
      unfold BigDec_of_fields. rewrite clamp_small by (cbn [dp]; unfold FLOAT_PRECISION; lia).
      eexists. split; [reflexivity |]. cbn [dp v sign_prop].
      repeat split; try (unfold FLOAT_PRECISION; lia).
      rewrite Z2Nat.id by lia. rewrite Epat.
      replace (0 + dp x) with (- (L - 1 - dp x) + (L - 1)) by lia.
      rewrite Z.pow_add_r by lia.
      rewrite Z.div_mul; [reflexivity |]. apply Z.pow_nonzero; lia.
  - assert (Hne : Zpos p <> 10 ^ (L - 1)).
    { intros E. apply one_then_zeros_iff in E. congruence. }
    rewrite of_string_one_and_zeros. cbn [bind].
    rewrite Z2Nat.id by lia.
    assert (Hn : 0 <= 10 ^ L < 10 * Zpos p).
    { split; [apply Z.pow_nonneg; lia |].
      replace L with (L - 1 + 1) by lia.
      destruct (Z.le_gt_cases 1 L) as [H1 | H1].
      - rewrite Z.pow_add_r by lia. change (10 ^ 1) with 10. lia.
      - replace (L - 1 + 1) with 0 by lia. change (10 ^ 0) with 1. lia. }
    change (Z.to_nat FLOAT_PRECISION) with 20%nat.
    destruct (inverse_loop_quotient 19 (10 ^ L) (Zpos p) EmptyString 0
                ltac:(lia) Hn eq_refl eq_refl) as [j [Hj [Ha [Hl Hd]]]].
    set (res := inverse_loop 20 (10 ^ L) (Zpos p) EmptyString) in *.
    change (EmptyString ++ res)%string with res.
    rewrite (of_string_digits_value res _ Ha Hd). cbn [bind].
    change (len EmptyString) with 0 in Hl. rewrite Hl. rewrite Z.add_0_l.
    rewrite Z.mul_0_l, Z.add_0_l.
    assert (HL1 : 1 <= L).
    { destruct (Z.le_gt_cases 1 L); [assumption |].
      rewrite (Z.pow_neg_r 10 (L - 1)) in Hlo by lia. 
      assert (L = 0) by lia. subst L.
      destruct (pos_digits p) eqn:Ed;
        [exfalso; exact (pos_digits_nonempty p Ed) |].
      rewrite len_cons in H0. pose proof (len_nonneg s). lia. }
    rewrite <- Z.pow_add_r by lia.
    unfold BigDec_of_fields.
    destruct (Z.le_gt_cases (L + j - 1 - dp x) FLOAT_PRECISION) as [Hs | Hb].
    + rewrite clamp_small by exact Hs.
      eexists. split; [reflexivity |]. cbn [dp v sign_prop].
      repeat split; try assumption.
      do 2 f_equal. lia.
    + rewrite clamp_truncates by (cbn [dp]; lia). cbn [dp v sign_prop].
      assert (Hq : 0 <= 10 ^ (L + (j - 1)) / Zpos p).
      { apply Z.div_pos; [apply Z.pow_nonneg |]; lia. }
      destruct (Z.ltb_spec (10 ^ (L + (j - 1)) / Zpos p) 0); [lia |].
      cbn [andb].
      eexists. split; [reflexivity |]. cbn [dp v sign_prop].
      repeat split; try reflexivity.
      rewrite Z.quot_div_nonneg; [| lia | apply Z.pow_pos_nonneg; lia].
      rewrite quotient_recut by lia.
      do 2 f_equal. lia.
Qed.

End PositiveReciprocal.

(** * The reciprocal of a negative decimal *)

Section NegativeReciprocal.
Import DigitFacts JsBigInt.

Lemma pos_digits_len_unique p k :
  10 ^ (k - 1) <= Zpos p < 10 ^ k -> len (pos_digits p) = k.
Proof.
  intros [Hlo Hhi].
  pose proof (pos_digits_bounds p) as [Blo Bhi].
  pose proof (len_nonneg (pos_digits p)) as HL.
  set (L := len (pos_digits p)) in *.
  assert (Hk : 1 <= k).
  { destruct (Z.le_gt_cases 1 k); [assumption |].
    destruct (Z.eq_dec k 0) as [-> | N].
    - change (10 ^ 0) with 1 in Hhi. lia.
    - rewrite (Z.pow_neg_r 10 k) in Hhi by lia. lia. }
  destruct (Z.lt_trichotomy L k) as [Hlt | [E | Hgt]]; [| exact E |].
  - assert (10 ^ L <= 10 ^ (k - 1)) by (apply Z.pow_le_mono_r; lia). lia.
  - assert (10 ^ k <= 10 ^ (L - 1)) by (apply Z.pow_le_mono_r; lia). lia.
Qed.

Lemma pos_digits_len_pos p : 1 <= len (pos_digits p).
Proof.
  destruct (pos_digits p) eqn:Ed;
    [exfalso; exact (pos_digits_nonempty p Ed) |].
  rewrite len_cons. pose proof (len_nonneg s). lia.
Qed.

(** The quotient string of a negative operand outside the power-of-ten
    pattern.  [digitCount] counts the minus sign, so the dividend is
    [10^(D+1)] for a magnitude of [D] digits and the first quotient has two
    digits. *)
Lemma inverse_loop_negative p :
  one_then_zeros (pos_digits p) = false ->
  let D := len (pos_digits p) in
  let res := inverse_loop (Z.to_nat FLOAT_PRECISION) (10 ^ (D + 1)) (Zpos p)
               EmptyString in
  exists j, 0 <= j <= 19
    /\ all_digits res = true
    /\ len res = 2 + j
    /\ digits_value 0 res = Some (10 ^ (D + 1 + j) / Zpos p)
    /\ 10 ^ (1 + j) <= 10 ^ (D + 1 + j) / Zpos p < 10 ^ (2 + j).
Proof.
  intros Hpat D res.
  pose proof (pos_digits_bounds p) as [Hlo Hhi]. fold D in Hlo, Hhi.
  pose proof (pos_digits_len_pos p) as HD. fold D in HD.
  assert (Hne : Zpos p <> 10 ^ (D - 1)).
  { intros E. apply one_then_zeros_iff in E. congruence. }
  assert (Hbound : forall j, 0 <= j ->
            10 ^ (1 + j) <= 10 ^ (D + 1 + j) / Zpos p < 10 ^ (2 + j)).
  { intros j Hj. split.
    - apply Z.div_le_lower_bound; [lia |].
      replace (D + 1 + j) with (D + (1 + j)) by lia.
      rewrite (Z.pow_add_r 10 D (1 + j)) by lia.
      assert (0 < 10 ^ (1 + j)) by (apply Z.pow_pos_nonneg; lia).
      apply Z.mul_le_mono_nonneg_r; lia.
    - apply Z.div_lt_upper_bound; [lia |].
      replace (D + 1 + j) with (D - 1 + (2 + j)) by lia.
      rewrite (Z.pow_add_r 10 (D - 1) (2 + j)) by lia.
      assert (0 < 10 ^ (2 + j)) by (apply Z.pow_pos_nonneg; lia).
      apply Z.mul_lt_mono_pos_r; lia. }
  unfold res. change (Z.to_nat FLOAT_PRECISION) with 20%nat.
  rewrite inverse_loop_S. change (EmptyString ++ ?s)%string with s.
  set (n := 10 ^ (D + 1)).
  assert (Hn : 0 < n) by (apply Z.pow_pos_nonneg; lia).
  pose proof (Hbound 0 ltac:(lia)) as Hq0.
  replace (D + 1 + 0) with (D + 1) in Hq0 by lia.
  change (10 ^ (1 + 0)) with 10 in Hq0. change (10 ^ (2 + 0)) with 100 in Hq0.
  fold n in Hq0.
  rewrite Z.quot_div_nonneg, Z.rem_mod_nonneg by lia.
  destruct (n / Zpos p) as [| q | q] eqn:Eq; try lia.
  assert (Hlen : len (toString (Zpos q)) = 2).
  { apply pos_digits_len_unique. change (10 ^ (2 - 1)) with 10.
    change (10 ^ 2) with 100. lia. }
  destruct (Z.eqb_spec (n mod Zpos p) 0) as [E | N].
  - exists 0. split; [lia |]. split; [apply pos_digits_all |].
    split; [rewrite Hlen; lia |].
    replace (D + 1 + 0) with (D + 1) by lia. fold n. rewrite Eq.
    split; [apply pos_digits_value |].
    change (10 ^ (1 + 0)) with 10. change (10 ^ (2 + 0)) with 100. lia.
  - pose proof (Z.mod_pos_bound n (Zpos p) ltac:(lia)) as Hm.
    destruct (inverse_loop_quotient 18 (n mod Zpos p * 10) (Zpos p)
                (toString (Zpos q)) (Zpos q) ltac:(lia) ltac:(lia)
                (pos_digits_all q) (pos_digits_value q))
      as [j [Hj [Ha [Hl Hd]]]].
    exists j. split; [lia |]. split; [exact Ha |].
    split; [rewrite Hl, Hlen; lia |].
    assert (Hval : Zpos q * 10 ^ j + n mod Zpos p * 10 * 10 ^ (j - 1) / Zpos p
                   = 10 ^ (D + 1 + j) / Zpos p).
    { replace (n mod Zpos p * 10 * 10 ^ (j - 1)) with (n mod Zpos p * 10 ^ j).
      2:{ replace j with (j - 1 + 1) at 1 by lia.
          rewrite Z.pow_add_r by lia. change (10 ^ 1) with 10. ring. }
      rewrite (Z.pow_add_r 10 (D + 1) j) by lia. fold n.
      pose proof (Z.div_mod n (Zpos p) ltac:(lia)) as Hdm. rewrite Eq in Hdm.
      replace (n * 10 ^ j)
        with (Zpos q * 10 ^ j * Zpos p + n mod Zpos p * 10 ^ j) by nia.
      rewrite Z.div_add_l by lia. reflexivity. }
    rewrite Hd, Hval. split; [reflexivity |]. apply Hbound. lia.
Qed.

(** The reciprocal of a negative decimal whose magnitude is not a power
    of ten.  It throws when the integer part has 20 digits; otherwise the
    result is a tenth of the reciprocal, cut at the scale of the result:
    the minus sign was counted as a digit. *)
Lemma inverse_negative_value x :
  v x < 0 -> one_then_zeros (toString (v x)) = false ->
  if posDigitCount x =? 21 then inverse x = Throw SyntaxError
  else exists r, inverse x = Ok r
                 /\ v r = - (10 ^ (dp r + dp x - 1) / (- v x))
                 /\ dp r <= FLOAT_PRECISION
                 /\ sign_prop r = None.
Proof.
  intros Hv Hpat.
  unfold inverse, isZero, minus_unless_positive, posDigitCount, digitCount.
  destruct (Z.eqb_spec (v x) 0); [lia |].
  destruct (Z.gtb_spec (v x) 0); [lia |].
  rewrite Hpat.
  destruct (v x) as [| p | p] eqn:Ev; try lia.
  cbn [toString Z.opp] in *. rewrite len_cons.
  assert (Hpat' : one_then_zeros (pos_digits p) = false).
  { revert Hpat. unfold one_then_zeros. cbn [skip_minus].
    change (Ascii.eqb "-" "-") with true. cbv iota.
    rewrite skip_minus_digits by apply pos_digits_all. auto. }
  pose proof (pos_digits_len_pos p) as HD.
  destruct (inverse_loop_negative p Hpat') as [j [Hj [Ha [Hl [Hd Hb]]]]].
  set (D := len (pos_digits p)) in *.
  rewrite of_string_one_and_zeros. cbn [bind].
  rewrite Z2Nat.id by lia.
  set (res := inverse_loop (Z.to_nat FLOAT_PRECISION) (10 ^ (D + 1)) (Zpos p)
                EmptyString) in *.
  change ("-" ++ res)%string with (String "-" res).
  rewrite (of_string_minus_digits res) with (m := 10 ^ (D + 1 + j) / Zpos p);
    [| intros E; rewrite E in Hl; change (len "") with 0 in Hl; lia | exact Hd].
  cbn [bind]. rewrite Hl.
  set (R := 10 ^ (D + 1 + j) / Zpos p) in *.
  assert (HR : 0 < R).
  { assert (0 < 10 ^ (1 + j)) by (apply Z.pow_pos_nonneg; lia). lia. }
  unfold BigDec_of_fields.
  destruct (Z.le_gt_cases (D + 1 + (2 + j) - 1 - dp x) FLOAT_PRECISION)
    as [Hs | Hbig].
  - rewrite clamp_small by exact Hs.
    destruct (Z.eqb_spec (D + 1 - dp x) 21) as [E | N];
      [unfold FLOAT_PRECISION in Hs; lia |].
    eexists. split; [reflexivity |]. cbn [dp v sign_prop].
    repeat split; try assumption.
    unfold R. do 3 f_equal. lia.
  - rewrite clamp_truncates by (cbn [dp]; lia). cbn [dp v sign_prop].
    unfold digitCount. cbn [v].
    destruct R as [| r | r] eqn:ER; try lia.
    cbn [Z.opp toString]. rewrite len_cons.
    change (Zneg r <? 0) with true. cbn [andb].
    assert (Hlr : len (pos_digits r) = 2 + j).
    { apply pos_digits_len_unique.
      replace (2 + j - 1) with (1 + j) by lia. exact Hb. }
    rewrite Hlr.
    replace (2 + j + 1 - 1) with (2 + j) by lia.
    unfold FLOAT_PRECISION in *.
    destruct (Z.eqb_spec (D + 1 - dp x) 21) as [E | N].
    + destruct (Z.eqb_spec (2 + j) (D + 1 + (2 + j) - 1 - dp x - 20));
        [reflexivity | lia].
    + destruct (Z.eqb_spec (2 + j) (D + 1 + (2 + j) - 1 - dp x - 20)); [lia |].
      eexists. split; [reflexivity |]. cbn [dp v sign_prop].
      repeat split; try lia.
      change (Zneg r) with (- Zpos r).
      rewrite Z.quot_opp_l by (apply Z.pow_nonzero; lia).
      rewrite Z.quot_div_nonneg; [| lia | apply Z.pow_pos_nonneg; lia].
      rewrite <- ER. unfold R.
      rewrite quotient_recut by lia.
      do 3 f_equal. lia.
Qed.

End NegativeReciprocal.

(** * The order computed by [cmp] *)

Section Comparison.

Lemma sign_plain x :
  sign_prop x = None -> sign x = Ok (Z.sgn (v x)).
Proof.
  intros H. unfold sign. rewrite H. f_equal.
  destruct (v x); reflexivity.
Qed.

(** [cmp] on objects without an own [sign] property, as a lexicographic
    comparison of sign, integer-part digit count and raw magnitude. *)
Lemma cmp_plain x y :
  sign_prop x = None -> sign_prop y = None ->
  cmp x y =
  Ok (if (v x =? v y) && (dp x =? dp y) then 0
      else if negb (Z.sgn (v x) =? Z.sgn (v y))
           then (if Z.sgn (v x) >? Z.sgn (v y) then 1 else -1)
      else if negb (posDigitCount x =? posDigitCount y)
           then (if posDigitCount x >? posDigitCount y then 1 else -1)
      else if v x >? v y then 1 else -1).
Proof.
  intros Hx Hy. unfold cmp, eq. rewrite (sign_plain x Hx), (sign_plain y Hy).
  cbn [bind].
  repeat match goal with
         | |- context [if ?b then _ else _] => destruct b
         end; reflexivity.
Qed.

Lemma posDigitCount_same x y :
  v x = v y -> dp x = dp y -> posDigitCount x = posDigitCount y.
Proof.
  unfold posDigitCount, digitCount. intros E H. rewrite E, H. reflexivity.
Qed.

Lemma posDigitCount_dp x y :
  v x = v y -> posDigitCount x = posDigitCount y -> dp x = dp y.
Proof.
  unfold posDigitCount, digitCount. intros E H. rewrite E in H. lia.
Qed.

(** When [cmp] answers 1. *)
Lemma cmp_one_iff x y :
  sign_prop x = None -> sign_prop y = None ->
  (cmp x y = Ok 1 <->
   Z.sgn (v x) > Z.sgn (v y)
   \/ (Z.sgn (v x) = Z.sgn (v y)
       /\ (posDigitCount x > posDigitCount y
           \/ (posDigitCount x = posDigitCount y /\ v x > v y)))).
Proof.
  intros Hx Hy. rewrite (cmp_plain x y Hx Hy).
  pose proof (posDigitCount_same x y) as P.
  destruct (Z.eqb_spec (v x) (v y)) as [E1 | E1];
    destruct (Z.eqb_spec (dp x) (dp y)) as [E2 | E2]; cbn [andb];
    try (split; [discriminate | specialize (P E1 E2); lia]);
    destruct (Z.eqb_spec (Z.sgn (v x)) (Z.sgn (v y))) as [E3 | E3]; cbn [negb];
    try (destruct (Z.gtb_spec (Z.sgn (v x)) (Z.sgn (v y)));
         (split; [intros HH; first [discriminate HH | lia]
                 | intros FF; first [reflexivity | exfalso; lia]]));
    destruct (Z.eqb_spec (posDigitCount x) (posDigitCount y)) as [E4 | E4];
    cbn [negb];
    try (destruct (Z.gtb_spec (posDigitCount x) (posDigitCount y));
         (split; [intros HH; first [discriminate HH | lia]
                 | intros FF; first [reflexivity | exfalso; lia]]));
    destruct (Z.gtb_spec (v x) (v y));
    (split; [intros HH; first [discriminate HH | lia]
            | intros FF; first [reflexivity | exfalso; lia]]).
Qed.

Lemma cmp_minus_one_iff x y :
  sign_prop x = None -> sign_prop y = None ->
  (cmp x y = Ok (-1) <->
   Z.sgn (v x) < Z.sgn (v y)
   \/ (Z.sgn (v x) = Z.sgn (v y)
       /\ (posDigitCount x < posDigitCount y
           \/ (posDigitCount x = posDigitCount y /\ v x < v y)))).
Proof.
  intros Hx Hy. rewrite (cmp_plain x y Hx Hy).
  pose proof (posDigitCount_same x y) as P.
  pose proof (posDigitCount_dp x y) as P'.
  destruct (Z.eqb_spec (v x) (v y)) as [E1 | E1];
    destruct (Z.eqb_spec (dp x) (dp y)) as [E2 | E2]; cbn [andb];
    try (split; [discriminate | specialize (P E1 E2); lia]);
    destruct (Z.eqb_spec (Z.sgn (v x)) (Z.sgn (v y))) as [E3 | E3]; cbn [negb];
    try (destruct (Z.gtb_spec (Z.sgn (v x)) (Z.sgn (v y)));
         (split; [intros HH; first [discriminate HH | lia]
                 | intros FF; first [reflexivity | exfalso; lia]]));
    destruct (Z.eqb_spec (posDigitCount x) (posDigitCount y)) as [E4 | E4];
    cbn [negb];
    try (destruct (Z.gtb_spec (posDigitCount x) (posDigitCount y));
         (split; [intros HH; first [discriminate HH | lia]
                 | intros FF; first [reflexivity | exfalso; lia]]));
    destruct (Z.gtb_spec (v x) (v y));
    (split; [intros HH; first [discriminate HH | lia]
            | intros FF; first [reflexivity | exfalso; lia]]).
Qed.

Lemma cmp_zero_iff x y :
  sign_prop x = None -> sign_prop y = None ->
  (cmp x y = Ok 0 <-> eq x y = true).
Proof.
  intros Hx Hy. rewrite (cmp_plain x y Hx Hy). unfold eq.
  destruct ((v x =? v y) && (dp x =? dp y)); [tauto |].
  split; [| discriminate].
  repeat match goal with
         | |- context [if ?b then _ else _] => destruct b
         end; discriminate.
Qed.

Lemma cmp_values x y :
  sign_prop x = None -> sign_prop y = None ->
  cmp x y = Ok 0 \/ cmp x y = Ok 1 \/ cmp x y = Ok (-1).
Proof.
  intros Hx Hy. rewrite (cmp_plain x y Hx Hy).
  repeat match goal with
         | |- context [if ?b then _ else _] => destruct b
         end; auto.
Qed.

Lemma cmp_antisym x y :
  sign_prop x = None -> sign_prop y = None ->
  (cmp x y = Ok 1 <-> cmp y x = Ok (-1)).
Proof.
  intros Hx Hy. rewrite (cmp_one_iff x y Hx Hy), (cmp_minus_one_iff y x Hy Hx).
  lia.
Qed.

Lemma cmp_trans x y z :
  sign_prop x = None -> sign_prop y = None -> sign_prop z = None ->
  cmp x y = Ok 1 -> cmp y z = Ok 1 -> cmp x z = Ok 1.
Proof.
  intros Hx Hy Hz.
  rewrite (cmp_one_iff x y Hx Hy), (cmp_one_iff y z Hy Hz),
    (cmp_one_iff x z Hx Hz).
  lia.
Qed.

End Comparison.

(** * What the operations can throw *)

Section Throws.

Lemma shiftLeft_throw x k e :
  0 <= k -> shiftLeft x k = Throw e -> e = SyntaxError.
Proof.
  intros Hk. unfold shiftLeft, repeat0.
  destruct (Z.ltb_spec k 0) as [L | _]; [lia |]. cbn [bind].
  intros H. apply bind_throw in H as [H | [a [_ H]]].
  - exact (of_string_throw _ _ H).
  - exact (clamp_throw _ _ H).
Qed.

Lemma add_throw x y e : add x y = Throw e -> e = SyntaxError.
Proof.
  unfold add. intros H. apply bind_throw in H as [H | [a [_ H]]];
    [| exact (clamp_throw _ _ H)].
  destruct (negb (dp x =? dp y)); [| discriminate].
  apply bind_throw in H as [H | [b [Hb H]]].
  - destruct (dp x >? dp y); [| discriminate].
    apply shiftLeft_throw in H; [exact H | lia].
  - apply bind_throw in H as [H | [c [_ H]]]; [| discriminate].
    destruct (dp b >? dp x); [| discriminate].
    apply shiftLeft_throw in H; [exact H | lia].
Qed.

Lemma mul_throw x y e : mul x y = Throw e -> e = SyntaxError.
Proof. apply clamp_throw. Qed.

Lemma negate_throw x e : negate x = Throw e -> e = SyntaxError.
Proof. apply clamp_throw. Qed.

Lemma sub_throw x y e : sub x y = Throw e -> e = SyntaxError.
Proof.
  unfold sub. intros H. apply bind_throw in H as [H | [a [_ H]]].
  - exact (negate_throw _ _ H).
  - exact (add_throw _ _ _ H).
Qed.

Lemma inverse_throw_kinds x e :
  inverse x = Throw e -> e = DivisionByZero \/ e = SyntaxError.
Proof.
  intros H. destruct (Z.eq_dec (v x) 0) as [E | N].
  - left. apply inverse_DivisionByZero_iff in E. congruence.
  - right. exact (inverse_throw x e N H).
Qed.

Lemma div_throw x y e :
  div x y = Throw e -> e = DivisionByZero \/ e = SyntaxError.
Proof.
  unfold div. intros H. apply bind_throw in H as [H | [a [_ H]]].
  - exact (inverse_throw_kinds _ _ H).
  - apply bind_throw in H as [H | [b [_ H]]]; [| discriminate].
    right. exact (mul_throw _ _ _ H).
Qed.

Lemma sqrt_loop_throw fuel this two : forall x e,
  sqrt_loop fuel this two x = Throw e ->
  e = DivisionByZero \/ e = SyntaxError.
Proof.
  induction fuel as [| f IH]; intros x e; cbn [sqrt_loop]; [discriminate |].
  intros H.
  apply bind_throw in H as [H | [a [_ H]]]; [exact (div_throw _ _ _ H) |].
  apply bind_throw in H as [H | [b [_ H]]];
    [right; exact (add_throw _ _ _ H) |].
  apply bind_throw in H as [H | [c [_ H]]]; [exact (div_throw _ _ _ H) |].
  apply bind_throw in H as [H | [d [_ H]]];
    [right; exact (sub_throw _ _ _ H) |].
  destruct (isZero d); [discriminate |].
  exact (IH _ _ H).
Qed.

Lemma two_parsed : BigDec_of_bigint 2 = Ok (dec 0 2).
Proof. reflexivity. Qed.

Lemma sqrt_throw x e :
  sqrt x = Throw e ->
  (e = NegativeSquareRoot /\ v x < 0)
  \/ (0 <= v x /\ (e = DivisionByZero \/ e = SyntaxError)).
Proof.
  unfold sqrt, sqrt_logged. intros H.
  apply bind_throw in H as [H | [a [_ H]]]; [| discriminate].
  destruct (Z.ltb_spec (v x) 0) as [L | G].
  - left. split; [congruence | exact L].
  - right. split; [exact G |].
    destruct (_ || _); [discriminate |].
    rewrite two_parsed in H. cbn [bind] in H.
    apply bind_throw in H as [H | [b [_ H]]].
    + exact (div_throw _ _ _ H).
    + exact (sqrt_loop_throw _ _ _ _ _ H).
Qed.

End Throws.

(** * Rendering at scale zero and below *)

Section IntegerRendering.
Import DigitFacts.

Lemma strip_leading_zeros_id s :
  startsWith "0" s = false -> strip_leading_zeros s = s.
Proof.
  destruct s as [| c r]; [reflexivity |]. cbn [startsWith strip_leading_zeros].
  intros ->. reflexivity.
Qed.

Lemma digit_not_point c :
  is_digit c = true -> Ascii.eqb c "." = false /\ Ascii.eqb c " " = false.
Proof.
  intros H. split; apply Ascii.eqb_neq; intros ->; discriminate H.
Qed.

Lemma pos_digits_cons p :
  exists c r, JsBigInt.pos_digits p = String c r /\ is_digit c = true
              /\ Ascii.eqb c "0" = false.
Proof.
  pose proof (pos_digits_all p) as Ha.
  pose proof (pos_digits_leading p) as Hz.
  destruct (JsBigInt.pos_digits p) as [| c r] eqn:Ed;
    [exfalso; exact (pos_digits_nonempty p Ed) |].
  cbn [all_digits] in Ha. apply andb_true_iff in Ha as [Hc _].
  exists c, r. auto.
Qed.

(** With a scale of zero or below, [toString] prints the magnitude and
    nothing of the scale. *)
Lemma toString_scale_ignored x :
  dp x <= 0 -> toString x = JsBigInt.toString (v x).
Proof.
  intros Hd. unfold toString, isZero.
  destruct (v x) as [| p | p] eqn:Ev; [reflexivity | |].
  - change (Zpos p =? 0) with false. cbv iota. cbn [JsBigInt.toString].
    destruct (pos_digits_cons p) as [c [r [E [Hc Hz]]]].
    pose proof (pos_digits_len_pos p) as HL.
    rewrite E in *.
    destruct (digit_not_sign c Hc) as [Hm _].
    destruct (digit_not_point c Hc) as [Hp _].
    cbn [startsWith]. rewrite Hm.
    destruct (Z.ltb_spec (len (String c r)) (dp x)); [lia |].
    destruct (Z.gtb_spec (dp x) 0); [lia |].
    cbn [strip_leading_zeros]. rewrite Hz. cbn [startsWith]. rewrite Hp.
    reflexivity.
  - change (Zneg p =? 0) with false. cbv iota. cbn [JsBigInt.toString].
    cbn [startsWith]. change (Ascii.eqb "-" "-") with true. cbv iota.
    change (substring_from 1 (String "-" (JsBigInt.pos_digits p))) with (JsBigInt.pos_digits p).
    destruct (pos_digits_cons p) as [c [r [E [Hc Hz]]]].
    pose proof (pos_digits_len_pos p) as HL.
    rewrite E in *.
    destruct (digit_not_point c Hc) as [Hp _].
    destruct (Z.ltb_spec (len (String c r)) (dp x)); [lia |].
    destruct (Z.gtb_spec (dp x) 0); [lia |].
    cbn [strip_leading_zeros]. rewrite Hz. cbn [startsWith]. rewrite Hp.
    reflexivity.
Qed.

End IntegerRendering.

(** * Parsing a literal *)

Section Parsing.
Import DigitFacts JsBigInt.

Lemma remove_spaces_app s t :
  remove_spaces (s ++ t) = (remove_spaces s ++ remove_spaces t)%string.
Proof.
  induction s as [| c s IH]; cbn [append remove_spaces]; [reflexivity |].
  destruct (Ascii.eqb c " "); [exact IH | cbn [append]; f_equal; exact IH].
Qed.

Lemma remove_spaces_digits s : all_digits s = true -> remove_spaces s = s.
Proof.
  induction s as [| c s IH]; cbn [all_digits remove_spaces]; [reflexivity |].
  intros H. apply andb_true_iff in H as [Hc Hs].
  destruct (digit_not_point c Hc) as [_ E]. rewrite E, IH by exact Hs.
  reflexivity.
Qed.

Lemma remove_spaces_minus_if neg : remove_spaces (minus_if neg) = minus_if neg.
Proof. destruct neg; reflexivity. Qed.

Lemma skip_digits_app a t :
  all_digits a = true -> skip_digits (a ++ t) = skip_digits t.
Proof.
  induction a as [| c a IH]; cbn [all_digits append skip_digits]; [reflexivity |].
  intros H. apply andb_true_iff in H as [Hc Ha]. rewrite Hc. exact (IH Ha).
Qed.

Lemma skip_digits_all a : all_digits a = true -> skip_digits a = EmptyString.
Proof.
  induction a as [| c a IH]; cbn [all_digits skip_digits]; [reflexivity |].
  intros H. apply andb_true_iff in H as [Hc Ha]. rewrite Hc. exact (IH Ha).
Qed.

Lemma indexOf_aux_point a t i :
  all_digits a = true ->
  indexOf_aux "." (a ++ String "." t) i = i + len a.
Proof.
  revert i. induction a as [| c a IH]; intros i; cbn [all_digits append indexOf_aux].
  - intros _. change (Ascii.eqb "." ".") with true. cbv iota.
    change (len "") with 0. lia.
  - intros H. apply andb_true_iff in H as [Hc Ha].
    destruct (digit_not_point c Hc) as [E _]. rewrite E, IH, len_cons by exact Ha.
    lia.
Qed.

Lemma indexOf_aux_digits a i :
  all_digits a = true -> indexOf_aux "." a i = -1.
Proof.
  revert i. induction a as [| c a IH]; intros i; cbn [all_digits indexOf_aux];
    [reflexivity |].
  intros H. apply andb_true_iff in H as [Hc Ha].
  destruct (digit_not_point c Hc) as [E _]. rewrite E. exact (IH _ Ha).
Qed.

Lemma take_app_exact a t : take (String.length a) (a ++ t) = a.
Proof. induction a as [| c a IH]; cbn; [destruct t; reflexivity | f_equal; exact IH]. Qed.

Lemma drop_app_exact a t : drop (String.length a) (a ++ t) = t.
Proof. induction a as [| c a IH]; cbn; [reflexivity | exact IH]. Qed.

Lemma append_empty_r s : (s ++ EmptyString)%string = s.
Proof. induction s as [| c s IH]; cbn; [reflexivity | f_equal; exact IH]. Qed.

Lemma len_to_nat s : Z.to_nat (len s) = String.length s.
Proof. unfold len. lia. Qed.

Lemma drop_past_point a b :
  drop (S (String.length a)) (a ++ String "." b) = b.
Proof. induction a as [| c a IH]; cbn; [reflexivity | exact IH]. Qed.

(** The constructor past its notation test, on a body made of the digits
    [a], a point and the digits [b]. *)
Lemma constructor_tail_point sign a b n :
  all_digits a = true -> all_digits b = true ->
  digits_value 0 (a ++ b) = Some n ->
  (let decimalPoint := indexOf "." (a ++ String "." b) in
   let decimalPoint :=
     if decimalPoint =? -1 then len (a ++ String "." b) else decimalPoint in
   let val := (substring 0 decimalPoint (a ++ String "." b)
               ++ substring_from (decimalPoint + 1) (a ++ String "." b))%string in
   let d := len val - decimalPoint in
   m <- JsNumber.to_BigInt
          (JsNumber.mul_sign sign (JsNumber.of_digit_string val)) ;;
   clamp_precision {| dp := d; v := m; sign_prop := None |})
  = (m <- JsNumber.to_BigInt
            (JsNumber.mul_sign sign (JsNumber.round_binary64 n)) ;;
     clamp_precision (dec (len b) m)).
Proof.
  intros Ha Hb Hn. cbv zeta. unfold indexOf.
  rewrite indexOf_aux_point by exact Ha. rewrite Z.add_0_l.
  pose proof (len_nonneg a) as HL.
  destruct (Z.eqb_spec (len a) (-1)); [lia |].
  unfold substring, substring_from.
  change (Z.to_nat 0) with 0%nat. cbn [drop]. rewrite Nat.sub_0_r.
  rewrite len_to_nat, take_app_exact.
  replace (Z.to_nat (len a + 1)) with (S (String.length a)) by (unfold len; lia).
  rewrite drop_past_point.
  unfold JsNumber.of_digit_string. rewrite Hn.
  rewrite len_app. replace (len a + len b - len a) with (len b) by lia.
  reflexivity.
Qed.

(** The same on a body of digits only. *)
Lemma constructor_tail_digits sign a n :
  all_digits a = true -> digits_value 0 a = Some n ->
  (let decimalPoint := indexOf "." a in
   let decimalPoint := if decimalPoint =? -1 then len a else decimalPoint in
   let val := (substring 0 decimalPoint a
               ++ substring_from (decimalPoint + 1) a)%string in
   let d := len val - decimalPoint in
   m <- JsNumber.to_BigInt
          (JsNumber.mul_sign sign (JsNumber.of_digit_string val)) ;;
   clamp_precision {| dp := d; v := m; sign_prop := None |})
  = (m <- JsNumber.to_BigInt
            (JsNumber.mul_sign sign (JsNumber.round_binary64 n)) ;;
     Ok (dec 0 m)).
Proof.
  intros Ha Hn. cbv zeta. unfold indexOf.
  rewrite indexOf_aux_digits by exact Ha. change (-1 =? -1) with true. cbv iota.
  unfold substring, substring_from.
  change (Z.to_nat 0) with 0%nat. cbn [drop]. rewrite Nat.sub_0_r.
  rewrite len_to_nat.
  rewrite (take_all_len a (String.length a)) by (unfold len; lia).
  replace (drop (Z.to_nat (len a + 1)) a) with EmptyString.
  2:{ replace (Z.to_nat (len a + 1)) with (S (String.length a)) by (unfold len; lia).
      clear. induction a as [| c a IH]; cbn; [reflexivity | exact IH]. }
  rewrite append_empty_r.
  unfold JsNumber.of_digit_string. rewrite Hn.
  rewrite Z.sub_diag.
  destruct (JsNumber.to_BigInt _); cbn [bind]; [| reflexivity].
  apply clamp_small. unfold dec, FLOAT_PRECISION. cbn [dp]. lia.
Qed.

End Parsing.

Section ParsingLiterals.
Import DigitFacts.

Lemma eqb_empty_app_point (r b : string) :
  String.eqb (r ++ String "." b) EmptyString = false.
Proof. destruct r; reflexivity. Qed.

Lemma round_small n :
  0 <= n < 2 ^ 53 -> JsNumber.round_binary64 n = JsNumber.Finite n.
Proof.
  intros H. unfold JsNumber.round_binary64.
  destruct (Z.ltb_spec n (2 ^ 53)); [reflexivity | lia].
Qed.

Lemma signed_number (neg : bool) n :
  JsNumber.to_BigInt
    (JsNumber.mul_sign (if neg then -1 else 1) (JsNumber.Finite n))
  = Ok (signed neg n).
Proof.
  destruct neg; cbn [JsNumber.mul_sign JsNumber.to_BigInt signed]; f_equal; lia.
Qed.

(** What the constructor does with a literal that has a point. *)
Lemma parse_decimal_literal neg a b n :
  all_digits a = true -> all_digits b = true ->
  JsBigInt.digits_value 0 (a ++ b) = Some n ->
  BigDec_of_string (decimal_literal neg a b) =
  (m <- JsNumber.to_BigInt
          (JsNumber.mul_sign (if neg then -1 else 1)
             (JsNumber.round_binary64 n)) ;;
   clamp_precision (dec (len b) m)).
Proof.
  intros Ha Hb Hn. unfold BigDec_of_string, decimal_literal.
  rewrite !remove_spaces_app, remove_spaces_minus_if,
    (remove_spaces_digits a Ha).
  change (remove_spaces ".") with ".".
  rewrite (remove_spaces_digits b Hb).
  change ("." ++ b)%string with (String "." b).
  destruct neg; cbn [minus_if append].
  - cbn [String.eqb Ascii.eqb Bool.eqb orb startsWith].
    change (Ascii.eqb "-" "+") with false. cbv iota.
    change (Ascii.eqb "-" "-") with true. cbv iota.
    unfold number_notation. cbn [skip_minus].
    change (Ascii.eqb "-" "-") with true. cbv iota.
    rewrite (skip_digits_app a _ Ha). cbn [skip_digits].
    change (is_digit ".") with false. cbv iota.
    change (Ascii.eqb "." ".") with true.
    rewrite (skip_digits_all b Hb). cbn [andb negb].
    change (-1 =? -1) with true. cbv iota.
    change (substring_from 1 (String "-" (a ++ String "." b)))
      with (a ++ String "." b)%string.
    exact (constructor_tail_point (-1) a b n Ha Hb Hn).
  - destruct a as [| c r].
    + cbn [append String.eqb Ascii.eqb Bool.eqb orb startsWith].
      change (Ascii.eqb "." "+") with false. cbv iota.
      change (Ascii.eqb "." "-") with false. cbv iota.
      unfold number_notation. cbn [skip_minus].
      change (Ascii.eqb "." "-") with false. cbv iota.
      cbn [skip_digits]. change (is_digit ".") with false. cbv iota.
      change (Ascii.eqb "." ".") with true.
      rewrite (skip_digits_all b Hb). cbn [andb negb].
      change (1 =? -1) with false. cbv iota.
      exact (constructor_tail_point 1 EmptyString b n Ha Hb Hn).
    + pose proof Ha as Ha'. cbn [all_digits] in Ha'.
      apply andb_true_iff in Ha' as [Hc Hr].
      destruct (digit_not_sign c Hc) as [Em Ep].
      cbn [append]. cbn [String.eqb]. rewrite eqb_empty_app_point.
      replace (if Ascii.eqb c "0" then false else false) with false
        by (destruct (Ascii.eqb c "0"); reflexivity).
      cbn [orb startsWith]. rewrite Ep.
      unfold number_notation. cbn [skip_minus]. rewrite Em.
      change (String c (r ++ String "." b))
        with (String c r ++ String "." b)%string.
      rewrite (skip_digits_app (String c r) _ Ha). cbn [skip_digits].
      change (is_digit ".") with false. cbv iota.
      change (Ascii.eqb "." ".") with true.
      rewrite (skip_digits_all b Hb). cbn [andb negb].
      cbn [append startsWith]. rewrite Em.
      change (1 =? -1) with false. cbv iota.
      exact (constructor_tail_point 1 (String c r) b n Ha Hb Hn).
Qed.

(** What the constructor does with a literal without a point. *)
Lemma parse_integer_literal neg a n :
  all_digits a = true -> JsBigInt.digits_value 0 a = Some n ->
  BigDec_of_string (integer_literal neg a) =
  (m <- JsNumber.to_BigInt
          (JsNumber.mul_sign (if neg then -1 else 1)
             (JsNumber.round_binary64 n)) ;;
   Ok (dec 0 m)).
Proof.
  intros Ha Hn. unfold BigDec_of_string, integer_literal.
  rewrite !remove_spaces_app, remove_spaces_minus_if,
    (remove_spaces_digits a Ha).
  destruct neg; cbn [minus_if append].
  - cbn [String.eqb Ascii.eqb Bool.eqb orb startsWith].
    change (Ascii.eqb "-" "+") with false. cbv iota.
    change (Ascii.eqb "-" "-") with true. cbv iota.
    unfold number_notation. cbn [skip_minus].
    change (Ascii.eqb "-" "-") with true. cbv iota.
    rewrite (skip_digits_all a Ha). cbn [negb].
    change (-1 =? -1) with true. cbv iota.
    change (substring_from 1 (String "-" a)) with a.
    exact (constructor_tail_digits (-1) a n Ha Hn).
  - destruct (String.eqb_spec a EmptyString) as [-> | N1].
    + cbn in Hn. injection Hn as <-. reflexivity.
    + destruct (String.eqb_spec a "0") as [-> | N2].
      * cbn in Hn. injection Hn as <-. reflexivity.
      * cbn [orb].
        destruct a as [| c r]; [congruence |].
        pose proof Ha as Ha'. cbn [all_digits] in Ha'.
        apply andb_true_iff in Ha' as [Hc Hr].
        destruct (digit_not_sign c Hc) as [Em Ep].
        cbn [startsWith]. rewrite Ep.
        unfold number_notation. cbn [skip_minus]. rewrite Em.
        rewrite (skip_digits_all _ Ha). cbn [negb].
        cbn [startsWith]. rewrite Em.
        change (1 =? -1) with false. cbv iota.
        exact (constructor_tail_digits 1 (String c r) n Ha Hn).
Qed.

End ParsingLiterals.

(** * Exact sums, differences and products *)

Section ExactArithmetic.

Local Open Scope Q_scope.

Lemma add_value x y :
  (dp x <= FLOAT_PRECISION)%Z -> (dp y <= FLOAT_PRECISION)%Z ->
  exists r, add x y = Ok r
            /\ value r == value x + value y
            /\ dp r = Z.max (dp x) (dp y)
            /\ sign_prop r = None.
Proof.
  intros Hx Hy. rewrite add_aligned by assumption.
  eexists. split; [reflexivity |]. cbn [dp sign_prop].
  split; [| split; reflexivity].
  rewrite value_sum, !value_aligned by lia. reflexivity.
Qed.

Lemma sub_value x y :
  (dp x <= FLOAT_PRECISION)%Z -> (dp y <= FLOAT_PRECISION)%Z ->
  exists r, sub x y = Ok r
            /\ value r == value x - value y
            /\ dp r = Z.max (dp x) (dp y)
            /\ sign_prop r = None.
Proof.
  intros Hx Hy. unfold sub. rewrite negate_small by assumption. cbn [bind].
  rewrite add_aligned by assumption. cbn [dp v].
  eexists. split; [reflexivity |]. cbn [dp sign_prop].
  split; [| split; reflexivity].
  rewrite value_sum, !value_aligned by lia.
  unfold value. rewrite inject_Z_opp. ring.
Qed.

Lemma mul_value x y :
  (dp x + dp y <= FLOAT_PRECISION)%Z ->
  exists r, mul x y = Ok r
            /\ value r == value x * value y
            /\ dp r = (dp x + dp y)%Z
            /\ sign_prop r = None.
Proof.
  intros H. rewrite mul_small by exact H.
  eexists. split; [reflexivity |]. cbn [dp sign_prop].
  split; [apply value_product | split; reflexivity].
Qed.

End ExactArithmetic.

(** * Complex arithmetic *)

Section Complex.

Local Open Scope Q_scope.

Lemma BigNum_add_value z w :
  (dp (re z) <= FLOAT_PRECISION)%Z -> (dp (im z) <= FLOAT_PRECISION)%Z ->
  (dp (re w) <= FLOAT_PRECISION)%Z -> (dp (im w) <= FLOAT_PRECISION)%Z ->
  exists r, BigNum_add z w = Ok r
            /\ value (re r) == value (re z) + value (re w)
            /\ value (im r) == value (im z) + value (im w).
Proof.
  intros H1 H2 H3 H4. unfold BigNum_add.
  destruct (add_value (re z) (re w) H1 H3) as [a [Ea [Va _]]].
  destruct (add_value (im z) (im w) H2 H4) as [b [Eb [Vb _]]].
  rewrite Ea, Eb. cbn [bind].
  eexists. split; [reflexivity |]. cbn [re im BigNum_of]. split; assumption.
Qed.

Lemma BigNum_sub_value z w :
  (dp (re z) <= FLOAT_PRECISION)%Z -> (dp (im z) <= FLOAT_PRECISION)%Z ->
  (dp (re w) <= FLOAT_PRECISION)%Z -> (dp (im w) <= FLOAT_PRECISION)%Z ->
  exists r, BigNum_sub z w = Ok r
            /\ value (re r) == value (re z) - value (re w)
            /\ value (im r) == value (im z) - value (im w).
Proof.
  intros H1 H2 H3 H4. unfold BigNum_sub.
  destruct (sub_value (re z) (re w) H1 H3) as [a [Ea [Va _]]].
  destruct (sub_value (im z) (im w) H2 H4) as [b [Eb [Vb _]]].
  rewrite Ea, Eb. cbn [bind].
  eexists. split; [reflexivity |]. cbn [re im BigNum_of]. split; assumption.
Qed.

Lemma BigNum_mul_value z w :
  (dp (re z) + dp (re w) <= FLOAT_PRECISION)%Z ->
  (dp (im z) + dp (im w) <= FLOAT_PRECISION)%Z ->
  (dp (re z) + dp (im w) <= FLOAT_PRECISION)%Z ->
  (dp (im z) + dp (re w) <= FLOAT_PRECISION)%Z ->
  exists r, BigNum_mul z w = Ok r
            /\ value (re r)
               == value (re z) * value (re w) - value (im z) * value (im w)
            /\ value (im r)
               == value (re z) * value (im w) + value (im z) * value (re w).
Proof.
  intros H1 H2 H3 H4. unfold BigNum_mul.
  destruct (mul_value (re z) (re w) H1) as [rr [Err [Vrr [Drr _]]]].
  destruct (mul_value (im z) (im w) H2) as [ii [Eii [Vii [Dii _]]]].
  destruct (mul_value (re z) (im w) H3) as [ri [Eri [Vri [Dri _]]]].
  destruct (mul_value (im z) (re w) H4) as [ir [Eir [Vir [Dir _]]]].
  rewrite Err, Eii. cbn [bind].
  destruct (sub_value rr ii) as [a [Ea [Va _]]]; [lia | lia |].
  rewrite Ea, Eri, Eir. cbn [bind].
  destruct (add_value ri ir) as [b [Eb [Vb _]]]; [lia | lia |].
  rewrite Eb. cbn [bind].
  eexists. split; [reflexivity |]. cbn [re im BigNum_of].
  split.
  - rewrite Va, Vrr, Vii. reflexivity.
  - rewrite Vb, Vri, Vir. reflexivity.
Qed.

Local Close Scope Q_scope.

Lemma square_of_zero x :
  v x = 0 ->
  exists r, square x = Ok r /\ v r = 0 /\ dp r <= FLOAT_PRECISION.
Proof.
  intros E. unfold square, mul, BigDec_of_fields. rewrite E.
  change (0 * 0) with 0.
  destruct (clamp_zero (dp x + dp x) None) as [r [Hr Hv]].
  exists r. split; [exact Hr |]. split; [exact Hv |].
  exact (clamp_dp _ _ Hr).
Qed.

(** The reciprocal of the complex zero. *)
Lemma BigNum_inverse_zero z :
  BigNum_isZero z = true -> BigNum_inverse z = Throw DivisionByZero.
Proof.
  unfold BigNum_isZero, isZero. intros H.
  apply andb_true_iff in H as [Hr Hi].
  apply Z.eqb_eq in Hr, Hi.
  unfold BigNum_inverse.
  destruct (square_of_zero (re z) Hr) as [r2 [E2 [V2 D2]]].
  destruct (square_of_zero (im z) Hi) as [i2 [E3 [V3 D3]]].
  rewrite E2, E3. cbn [bind].
  rewrite add_aligned by assumption. cbn [bind].
  unfold div at 1. unfold inverse at 1, isZero. cbn [v].
  rewrite V2, V3, !Z.mul_0_l. reflexivity.
Qed.

Lemma BigNum_div_zero w z :
  BigNum_isZero z = true -> BigNum_div w z = Throw DivisionByZero.
Proof.
  intros H. unfold BigNum_div. rewrite (BigNum_inverse_zero z H). reflexivity.
Qed.

End Complex.

(** * Division and comparison after [abs] *)

Section DivisionAndAbs.

Local Open Scope Q_scope.

Lemma reciprocal_value i y :
  (0 <= dp i + dp y)%Z -> (v i * v y = 10 ^ (dp i + dp y))%Z ->
  value i * value y == 1.
Proof.
  intros He H. unfold value.
  transitivity (inject_Z (v i * v y) * ((10 # 1) ^ (- dp i) * (10 # 1) ^ (- dp y))).
  { rewrite inject_Z_mult. ring. }
  rewrite <- (Qpower_plus _ _ _ ten_nonzero), H.
  rewrite Zpower_Qpower by exact He. change (inject_Z 10) with (10 # 1).
  rewrite <- (Qpower_plus _ _ _ ten_nonzero).
  replace (dp i + dp y + (- dp i + - dp y))%Z with 0%Z by lia.
  reflexivity.
Qed.

Lemma div_exact_value x y i :
  inverse y = Ok i ->
  (0 <= dp i + dp y)%Z -> (v i * v y = 10 ^ (dp i + dp y))%Z ->
  (dp x + dp i <= FLOAT_PRECISION)%Z ->
  exists r, div x y = Ok r /\ value r * value y == value x.
Proof.
  intros Hi He Hex Hd. unfold div. rewrite Hi. cbn [bind].
  rewrite mul_small by exact Hd. cbn [bind].
  eexists. split; [reflexivity |].
  unfold _simplifyPrecision. rewrite value_simplify_loop, value_product.
  rewrite <- Qmult_assoc, (reciprocal_value i y He Hex). ring.
Qed.

Local Close Scope Q_scope.

Lemma abs_sign_prop x r : abs x = Ok r -> sign_prop r = Some 1.
Proof.
  unfold abs, BigDec_of_fields, clamp_precision. cbn [dp v sign_prop].
  destruct (dp x >? FLOAT_PRECISION).
  - destruct (JsBigInt.of_string _); cbn [bind]; [| discriminate].
    intros [= <-]. reflexivity.
  - intros [= <-]. reflexivity.
Qed.

Lemma cmp_own_sign_left r y :
  sign_prop r <> None -> eq r y = false -> cmp r y = Throw TypeError.
Proof.
  intros Hs He. unfold cmp. rewrite He. unfold sign.
  destruct (sign_prop r); [reflexivity | congruence].
Qed.

Lemma cmp_own_sign_right r y :
  sign_prop y = None -> sign_prop r <> None -> eq y r = false ->
  cmp y r = Throw TypeError.
Proof.
  intros Hy Hs He. unfold cmp. rewrite He. unfold sign. rewrite Hy. cbn [bind].
  destruct (sign_prop r); [reflexivity | congruence].
Qed.

End DivisionAndAbs.

(** * Rendering and reading back *)

Section RenderParse.
Import DigitFacts.

Lemma stz_point_head t :
  strip_trailing_zeros (String "." t) = String "." (strip_trailing_zeros t).
Proof.
  cbn [strip_trailing_zeros]. destruct (strip_trailing_zeros t); reflexivity.
Qed.

Lemma stz_point s t :
  strip_trailing_zeros (s ++ String "." t)
  = (s ++ String "." (strip_trailing_zeros t))%string.
Proof.
  induction s as [| c s IH]; cbn [append]; [apply stz_point_head |].
  cbn [strip_trailing_zeros]. rewrite IH.
  destruct s; reflexivity.
Qed.

Lemma slz_point s t :
  strip_leading_zeros (s ++ String "." t)
  = (strip_leading_zeros s ++ String "." t)%string.
Proof.
  induction s as [| c s IH]; cbn [append strip_leading_zeros]; [reflexivity |].
  destruct (Ascii.eqb c "0"); [exact IH | reflexivity].
Qed.

Lemma all_digits_slz s :
  all_digits s = true -> all_digits (strip_leading_zeros s) = true.
Proof.
  induction s as [| c s IH]; cbn [strip_leading_zeros]; [reflexivity |].
  intros H. destruct (Ascii.eqb c "0"); [| exact H].
  cbn [all_digits] in H. apply andb_true_iff in H as [_ H]. exact (IH H).
Qed.

Lemma slz_starts s : startsWith "." (strip_leading_zeros s) = false
                     \/ all_digits s = false.
Proof.
  induction s as [| c s IH]; cbn [strip_leading_zeros]; [left; reflexivity |].
  destruct (Ascii.eqb_spec c "0") as [-> | N].
  - destruct IH as [IH | IH]; [left; exact IH | right].
    cbn [all_digits]. rewrite IH. apply andb_false_r.
  - cbn [startsWith all_digits].
    destruct (is_digit c) eqn:Hc; [| right; reflexivity].
    left. exact (proj1 (digit_not_point c Hc)).
Qed.

Lemma digits_value_slz s t :
  JsBigInt.digits_value 0 (strip_leading_zeros s ++ t)
  = JsBigInt.digits_value 0 (s ++ t) \/ all_digits s = false.
Proof.
  induction s as [| c s IH]; cbn [strip_leading_zeros]; [left; reflexivity |].
  destruct (Ascii.eqb_spec c "0") as [-> | N]; [| left; reflexivity].
  destruct IH as [IH | IH].
  - left. rewrite IH. reflexivity.
  - right. cbn [all_digits]. rewrite IH. apply andb_false_r.
Qed.

Lemma digits_value_zeros_app k t :
  JsBigInt.digits_value 0 (repeat_nat "0" k ++ t) = JsBigInt.digits_value 0 t.
Proof.
  rewrite digits_value_app, digits_value_zeros. rewrite Z.mul_0_l. reflexivity.
Qed.

(** A run of digits that does not end in a zero has a value that is not a
    multiple of ten. *)
Lemma digits_value_last s : forall acc m,
  all_digits s = true -> s <> EmptyString -> endsWith "0" s = false ->
  JsBigInt.digits_value acc s = Some m -> m mod 10 <> 0.
Proof.
  induction s as [| c r IH]; intros acc m Ha Hne He Hm; [congruence |].
  cbn [all_digits] in Ha. apply andb_true_iff in Ha as [Hc Hr].
  cbn [JsBigInt.digits_value] in Hm. rewrite Hc in Hm.
  destruct r as [| c' r'].
  - cbn [JsBigInt.digits_value] in Hm.
    assert (Em : m = 10 * acc + digit_value c) by congruence.
    rewrite Em. clear Hm Em.
    cbn [endsWith] in He.
    pose proof (digit_value_range c Hc) as Hd.
    assert (digit_value c <> 0).
    { intros E. apply digit_value_zero in E; [| exact Hc]. subst c.
      discriminate He. }
    rewrite Z.add_comm, Z.mul_comm, Z.mod_add by lia.
    rewrite Z.mod_small by lia. assumption.
  - apply (IH (10 * acc + digit_value c) m Hr); [discriminate | exact He | exact Hm].
Qed.

(** The [while] of [_simplifyPrecision] removes exactly the factors of
    ten that the scale allows. *)
Lemma simplify_strips k : forall fuel d m s,
  (k <= fuel)%nat -> Z.of_nat k <= d ->
  (d - Z.of_nat k = 0 \/ Z.rem m 10 <> 0) ->
  simplify_loop fuel {| dp := d; v := m * 10 ^ Z.of_nat k; sign_prop := s |}
  = {| dp := d - Z.of_nat k; v := m; sign_prop := s |}.
Proof.
  induction k as [| k IH]; intros fuel d m s Hf Hd Hstop.
  - change (10 ^ Z.of_nat 0) with 1. change (Z.of_nat 0) with 0 in *.
    rewrite Z.mul_1_r, Z.sub_0_r in *.
    destruct fuel as [| f]; cbn [simplify_loop dp v]; [reflexivity |].
    destruct Hstop as [-> | N].
    + reflexivity.
    + destruct (Z.eqb_spec (Z.rem m 10) 0); [contradiction |].
      rewrite andb_false_r. reflexivity.
  - destruct fuel as [| f]; [lia |].
    cbn [simplify_loop dp v sign_prop].
    rewrite Nat2Z.inj_succ in *. rewrite Z.pow_succ_r by lia.
    replace (m * (10 * 10 ^ Z.of_nat k)) with (m * 10 ^ Z.of_nat k * 10) by ring.
    rewrite Z.rem_mul, Z.quot_mul by lia.
    destruct (Z.gtb_spec d 0); [| lia]. cbn [andb Z.eqb].
    rewrite IH by lia. f_equal. lia.
Qed.

Lemma len_drop j s : len (drop j s) = len s - Z.min (Z.of_nat j) (len s).
Proof.
  pose proof (f_equal len (take_drop j s)) as E.
  rewrite len_app, len_take in E. lia.
Qed.

End RenderParse.

Section RenderParseMain.
Import DigitFacts.

(** The text [toString] builds from the padded digits [str] of a
    non-zero magnitude at a positive scale [d]: a literal whose digits
    are those of the magnitude without its [k] removable trailing
    zeros. *)
Lemma render_body (neg : bool) str d p :
  all_digits str = true -> JsBigInt.digits_value 0 str = Some p ->
  0 < d <= len str ->
  let pnt := len str - d in
  let s1 := strip_trailing_zeros
              (substring 0 pnt str ++ "." ++ substring_from pnt str) in
  let s2 := strip_leading_zeros s1 in
  let s3 := if startsWith "." s2 then ("0" ++ s2)%string else s2 in
  exists (k : nat) n a b,
    (minus_if neg ++ s3)%string = decimal_literal neg a b
    /\ all_digits a = true /\ all_digits b = true
    /\ JsBigInt.digits_value 0 (a ++ b) = Some n
    /\ len b = d - Z.of_nat k /\ 0 <= d - Z.of_nat k
    /\ p = n * 10 ^ Z.of_nat k
    /\ (d - Z.of_nat k = 0 \/ n mod 10 <> 0).
Proof.
  intros Hall Hval Hd. cbv zeta.
  unfold substring, substring_from.
  change (Z.to_nat 0) with 0%nat. cbn [drop]. rewrite Nat.sub_0_r.
  set (j := Z.to_nat (len str - d)).
  set (int := take j str). set (frac := drop j str).
  change ("." ++ frac)%string with (String "." frac).
  rewrite stz_point, slz_point.
  assert (Hint : all_digits int = true) by (apply all_digits_take, Hall).
  assert (Hfrac : all_digits frac = true) by (apply all_digits_drop, Hall).
  assert (Hlf : len frac = d).
  { unfold frac. rewrite len_drop. unfold j. lia. }
  destruct (strip_trailing_zeros_spec frac) as [Hend [k Hk]].
  set (F := strip_trailing_zeros frac) in *.
  assert (HF : all_digits F = true).
  { rewrite Hk, all_digits_app in Hfrac.
    apply andb_true_iff in Hfrac as [H _]. exact H. }
  assert (HlF : len F = d - Z.of_nat k).
  { pose proof (f_equal len Hk) as E. rewrite len_app, len_repeat in E. lia. }
  assert (HiF : all_digits (int ++ F) = true)
    by (rewrite all_digits_app, Hint, HF; reflexivity).
  destruct (digits_value_acc _ HiF) as [n [En [Bn _]]].
  assert (Hp : p = n * 10 ^ Z.of_nat k).
  { pose proof (take_drop j str) as Es. fold int frac in Es.
    rewrite Es, Hk in Hval.
    replace (int ++ F ++ repeat_nat "0" k)%string
      with ((int ++ F) ++ repeat_nat "0" k)%string in Hval.
    2:{ clear. induction int as [| c i IH]; cbn; [reflexivity | f_equal; exact IH]. }
    rewrite digits_value_app, En, digits_value_zeros in Hval. congruence. }
  assert (Hstop : d - Z.of_nat k = 0 \/ n mod 10 <> 0).
  { destruct F as [| c r] eqn:EF.
    - left. change (len "") with 0 in HlF. lia.
    - right. rewrite digits_value_app in En.
      destruct (digits_value_acc _ Hint) as [ni [Eni _]]. rewrite Eni in En.
      apply (digits_value_last (String c r) ni n HF); [discriminate | exact Hend | exact En]. }
  assert (Hslz : all_digits (strip_leading_zeros int) = true)
    by (apply all_digits_slz, Hint).
  assert (Hsv : JsBigInt.digits_value 0 (strip_leading_zeros int ++ F) = Some n).
  { destruct (digits_value_slz int F) as [E | E]; [congruence | congruence]. }
  pose proof (len_nonneg F) as HF0.
  destruct (strip_leading_zeros int) as [| c r] eqn:Ei.
  - cbn [append startsWith]. change (Ascii.eqb "." ".") with true. cbv iota.
    exists k, n, "0", F.
    repeat split; try assumption; try lia.
  - cbn [all_digits] in Hslz. apply andb_true_iff in Hslz as [Hc Hr].
    cbn [append startsWith]. rewrite (proj1 (digit_not_point c Hc)).
    exists k, n, (String c r), F.
    repeat split; try assumption; try lia.
    cbn [all_digits]. rewrite Hc, Hr. reflexivity.
Qed.

End RenderParseMain.

Section RenderParseTheorem.
Import DigitFacts.

Lemma toString_fraction (neg : bool) d p s :
  0 < d ->
  toString {| dp := d; v := signed neg (Zpos p); sign_prop := s |} =
  (let str := if len (JsBigInt.pos_digits p) <? d
              then (repeat_nat "0" (Z.to_nat (d - len (JsBigInt.pos_digits p)))
                    ++ JsBigInt.pos_digits p)%string
              else JsBigInt.pos_digits p in
   let pnt := len str - d in
   let s1 := strip_trailing_zeros
               (substring 0 pnt str ++ "." ++ substring_from pnt str) in
   let s2 := strip_leading_zeros s1 in
   let s3 := if startsWith "." s2 then ("0" ++ s2)%string else s2 in
   (minus_if neg ++ s3)%string).
Proof.
  intros Hd. unfold toString, isZero. cbn [dp v].
  destruct (Z.gtb_spec d 0) as [_ | G]; [| lia].
  destruct (pos_digits_cons p) as [c [r [E [Hc Hz]]]].
  destruct (digit_not_sign c Hc) as [Hm _].
  destruct neg; cbn [signed Z.opp minus_if].
  - change (Zneg p =? 0) with false. change (Zneg p >=? 0) with false. cbv iota.
    cbn [JsBigInt.toString startsWith].
    change (Ascii.eqb "-" "-") with true. cbv iota.
    change (substring_from 1 (String "-" (JsBigInt.pos_digits p)))
      with (JsBigInt.pos_digits p).
    reflexivity.
  - change (Zpos p =? 0) with false. change (Zpos p >=? 0) with true. cbv iota.
    cbn [JsBigInt.toString]. rewrite E. cbn [startsWith]. rewrite Hm.
    reflexivity.
Qed.

Lemma signed_rem neg n :
  0 <= n -> n mod 10 <> 0 -> Z.rem (signed neg n) 10 <> 0.
Proof.
  intros Hn Hm. destruct neg; cbn [signed].
  - rewrite Z.rem_opp_l by lia. rewrite Z.rem_mod_nonneg by lia. lia.
  - rewrite Z.rem_mod_nonneg by lia. exact Hm.
Qed.

Lemma signed_mul neg n k : signed neg (n * k) = signed neg n * k.
Proof. destruct neg; cbn [signed]; lia. Qed.

(** Reading back what [toString] printed gives the trimmed decimal:
    for an object without an own [sign] property, of scale 0 to 20 and
    magnitude below 2^53, [BigDec(x.toString())] is
    [x._simplifyPrecision()]. *)
Lemma render_parse_signed (neg : bool) d p :
  0 <= d <= FLOAT_PRECISION -> Zpos p < 2 ^ 53 ->
  BigDec_of_string
    (toString {| dp := d; v := signed neg (Zpos p); sign_prop := None |})
  = Ok (_simplifyPrecision
          {| dp := d; v := signed neg (Zpos p); sign_prop := None |}).
Proof.
  intros Hd Hp. unfold _simplifyPrecision. cbn [dp].
  destruct (Z.eq_dec d 0) as [-> | Hd0].
  - rewrite toString_scale_ignored by (cbn [dp]; lia). cbn [v].
    change (Z.to_nat 0) with 0%nat. cbn [simplify_loop].
    replace (JsBigInt.toString (signed neg (Zpos p)))
      with (integer_literal neg (JsBigInt.pos_digits p))
      by (destruct neg; reflexivity).
    rewrite (parse_integer_literal neg _ (Zpos p)
               (pos_digits_all p) (pos_digits_value p)).
    rewrite round_small by lia. rewrite signed_number. reflexivity.
  - rewrite toString_fraction by lia.
    set (pd := JsBigInt.pos_digits p).
    set (str := if len pd <? d
                then (repeat_nat "0" (Z.to_nat (d - len pd)) ++ pd)%string
                else pd).
    assert (Hall : all_digits str = true).
    { unfold str. destruct (len pd <? d); [| apply pos_digits_all].
      rewrite all_digits_app, all_digits_zeros. apply pos_digits_all. }
    assert (Hval : JsBigInt.digits_value 0 str = Some (Zpos p)).
    { unfold str. destruct (len pd <? d); [| apply pos_digits_value].
      rewrite digits_value_zeros_app. apply pos_digits_value. }
    assert (Hlen : 0 < d <= len str).
    { split; [lia |]. unfold str.
      destruct (Z.ltb_spec (len pd) d); [| lia].
      rewrite len_app, len_repeat. lia. }
    destruct (render_body neg str d (Zpos p) Hall Hval Hlen)
      as [k [n [a [b [E [Ha [Hb [Hn [Hlb [Hk [Hpn Hstop]]]]]]]]]]].
    cbv zeta in E. cbv zeta. rewrite E.
    rewrite (parse_decimal_literal neg a b n Ha Hb Hn).
    assert (HK : 0 < 10 ^ Z.of_nat k) by (apply Z.pow_pos_nonneg; lia).
    assert (Hn0 : 0 <= n).
    { destruct (digits_value_acc (a ++ b)) as [n' [En' [Bn' _]]].
      - rewrite all_digits_app, Ha, Hb. reflexivity.
      - assert (n' = n) by congruence. lia. }
    assert (Hn53 : n < 2 ^ 53) by nia.
    rewrite round_small by lia. rewrite signed_number. cbn [bind].
    rewrite clamp_small by (unfold dec; cbn [dp]; lia).
    f_equal. unfold dec. rewrite Hlb, Hpn, signed_mul.
    rewrite simplify_strips; [reflexivity | lia | lia |].
    destruct Hstop as [H0 | Hm]; [left; exact H0 | right].
    apply signed_rem; assumption.
Qed.

Lemma render_parse_zero d :
  0 <= d ->
  BigDec_of_string (toString {| dp := d; v := 0; sign_prop := None |})
  = Ok (_simplifyPrecision {| dp := d; v := 0; sign_prop := None |}).
Proof.
  intros Hd. unfold _simplifyPrecision. cbn [dp].
  change (toString {| dp := d; v := 0; sign_prop := None |}) with "0".
  change (BigDec_of_string "0") with (Ok ZERO). f_equal.
  pose proof (simplify_strips (Z.to_nat d) (Z.to_nat d) d 0 None) as S.
  rewrite Z.mul_0_l in S. rewrite S by lia.
  unfold ZERO. f_equal. lia.
Qed.

End RenderParseTheorem.

(** * Complex output *)

Section ComplexOutput.

(** A negative decimal prints as a minus followed by what its opposite
    prints. *)
Lemma toString_negative d p s :
  toString {| dp := d; v := Zneg p; sign_prop := s |}
  = String "-" (toString {| dp := d; v := Zpos p; sign_prop := s |}).
Proof.
  unfold toString, isZero. cbn [dp v].
  change (Zneg p =? 0) with false. change (Zpos p =? 0) with false.
  change (Zneg p >=? 0) with false. change (Zpos p >=? 0) with true.
  cbv iota. cbn [JsBigInt.toString startsWith].
  change (Ascii.eqb "-" "-") with true. cbv iota.
  change (substring_from 1 (String "-" (JsBigInt.pos_digits p)))
    with (JsBigInt.pos_digits p).
  destruct (pos_digits_cons p) as [c [r [E [Hc Hz]]]].
  destruct (DigitFacts.digit_not_sign c Hc) as [Hm _].
  rewrite E. cbn [startsWith]. rewrite Hm. reflexivity.
Qed.

Lemma BigNum_toString_plain a b :
  sign_prop b = None ->
  BigNum_toString (BigNum_of a b) =
  Ok (if isZero a && isZero b then "0"
      else ((if isZero a then EmptyString else toString a)
            ++ (if isZero b then EmptyString
                else if v b >? 0 then " + " ++ toString b ++ "i"
                else " - " ++ toString {| dp := dp b; v := - v b;
                                          sign_prop := None |} ++ "i"))%string).
Proof.
  intros Hb. unfold BigNum_toString, BigNum_of. cbn [re im].
  destruct (isZero a) eqn:Ea, (isZero b) eqn:Eb; cbn [andb negb];
    try reflexivity.
  - unfold sign. rewrite Hb. cbn [bind]. unfold isZero in Eb.
    destruct b as [d n s]. cbn [sign_prop v dp] in *. subst s.
    destruct n as [| p | p]; [discriminate Eb | reflexivity |].
    change (Zneg p >? 0) with false. cbv iota. change (-1 =? 1) with false.
    cbv iota. rewrite toString_negative. reflexivity.
  - rewrite append_empty_r. reflexivity.
  - unfold sign. rewrite Hb. cbn [bind]. unfold isZero in Eb.
    destruct b as [d n s]. cbn [sign_prop v dp] in *. subst s.
    destruct n as [| p | p]; [discriminate Eb | reflexivity |].
    change (Zneg p >? 0) with false. cbv iota. change (-1 =? 1) with false.
    cbv iota. rewrite toString_negative. reflexivity.
Qed.

End ComplexOutput.

(** * The string form of the [BigNum] constructor *)

Section ComplexLiterals.
Import DigitFacts.

Lemma sign_cases c : is_sign c = true -> c = "+"%char \/ c = "-"%char.
Proof.
  unfold is_sign. intros H. apply orb_true_iff in H as [H | H];
    apply Ascii.eqb_eq in H; auto.
Qed.

Lemma digit_not_i c :
  is_digit c = true -> Ascii.eqb c "i" = false /\ is_sign c = false.
Proof.
  intros H. destruct (digit_not_sign c H) as [E1 E2]. split.
  - apply Ascii.eqb_neq. intros ->. discriminate H.
  - unfold is_sign. rewrite E1, E2. reflexivity.
Qed.

Lemma remove_last_app_i b : remove_last (b ++ "i") = b.
Proof.
  induction b as [| c b IH]; [reflexivity |].
  cbn [append remove_last]. rewrite IH.
  destruct (b ++ "i")%string eqn:E; [destruct b; discriminate E | reflexivity].
Qed.

Lemma endsWith_app_i b : endsWith "i" (b ++ "i") = true.
Proof.
  induction b as [| c b IH]; [reflexivity |].
  cbn [append endsWith]. rewrite IH.
  destruct (b ++ "i")%string eqn:E; [destruct b; discriminate E | reflexivity].
Qed.

Lemma digits_point_digits_all b :
  all_digits b = true -> digits_point_digits b = true.
Proof.
  intros H. unfold digits_point_digits. rewrite (skip_digits_all b H).
  reflexivity.
Qed.

Lemma imaginary_notation_digits b :
  all_digits b = true -> imaginary_notation (b ++ "i") = true.
Proof.
  intros H. unfold imaginary_notation.
  rewrite endsWith_app_i, remove_last_app_i, (digits_point_digits_all b H).
  apply orb_true_r.
Qed.

Lemma after_real_part_digits a c t :
  all_digits a = true -> is_sign c = true ->
  after_real_part (a ++ String c t) = Some t.
Proof.
  intros Ha Hc. unfold after_real_part.
  rewrite (skip_digits_app a _ Ha). cbn [skip_digits].
  destruct (sign_cases c Hc) as [-> | ->]; reflexivity.
Qed.

Lemma remove_first_i_digits a :
  all_digits a = true -> remove_first_i a = a.
Proof.
  induction a as [| c a IH]; cbn [all_digits remove_first_i]; [reflexivity |].
  intros H. apply andb_true_iff in H as [Hc Ha].
  rewrite (proj1 (digit_not_i c Hc)), (IH Ha). reflexivity.
Qed.

Lemma remove_first_i_app b :
  all_digits b = true -> remove_first_i (b ++ "i") = b.
Proof.
  induction b as [| c b IH]; cbn [all_digits append remove_first_i];
    [reflexivity |].
  intros H. apply andb_true_iff in H as [Hc Hb].
  rewrite (proj1 (digit_not_i c Hc)), (IH Hb). reflexivity.
Qed.

Lemma split_signs_nonempty s : split_signs s <> [].
Proof.
  induction s as [| c s IH]; cbn [split_signs]; [discriminate |].
  destruct (is_sign c); [discriminate |].
  destruct (split_signs s); discriminate.
Qed.

Lemma split_signs_digits_app a s :
  all_digits a = true ->
  split_signs (a ++ s) =
  match split_signs s with
  | h :: t => (a ++ h)%string :: t
  | [] => [a]
  end.
Proof.
  induction a as [| c a IH]; cbn [all_digits append].
  - intros _. destruct (split_signs s) eqn:E; [| reflexivity].
    exfalso. exact (split_signs_nonempty s E).
  - intros H. apply andb_true_iff in H as [Hc Ha].
    cbn [split_signs]. rewrite (proj2 (digit_not_i c Hc)), (IH Ha).
    destruct (split_signs s) eqn:E; [| reflexivity].
    exfalso. exact (split_signs_nonempty s E).
Qed.

Lemma split_signs_tail b :
  all_digits b = true -> split_signs (b ++ "i") = [(b ++ "i")%string].
Proof.
  intros H. rewrite (split_signs_digits_app b "i" H). reflexivity.
Qed.

Lemma split_signs_literal a c b :
  all_digits a = true -> all_digits b = true -> is_sign c = true ->
  split_signs (a ++ String c (b ++ "i"))
  = [a; String c EmptyString; (b ++ "i")%string].
Proof.
  intros Ha Hb Hc. rewrite (split_signs_digits_app a _ Ha).
  cbn [split_signs]. rewrite Hc, (split_signs_tail b Hb), append_empty_r.
  reflexivity.
Qed.

Lemma sign_not_space c : is_sign c = true -> Ascii.eqb c " " = false.
Proof. intros H. destruct (sign_cases c H) as [-> | ->]; reflexivity. Qed.

Lemma remove_spaces_complex a c b :
  all_digits a = true -> all_digits b = true -> is_sign c = true ->
  remove_spaces (a ++ String c (b ++ "i")) = (a ++ String c (b ++ "i"))%string.
Proof.
  intros Ha Hb Hc. rewrite remove_spaces_app, (remove_spaces_digits a Ha).
  cbn [remove_spaces]. rewrite (sign_not_space c Hc).
  rewrite remove_spaces_app, (remove_spaces_digits b Hb). reflexivity.
Qed.

(** The constructor on [a], a sign, [b] and the letter i, for runs of
    digits [a] and [b]. *)
Lemma BigNum_new_unsigned a c b im0 :
  all_digits a = true -> all_digits b = true -> is_sign c = true ->
  BigNum_new (a ++ String c (b ++ "i")) im0 =
  (r <- BigDec_of_string a ;;
   i <- BigDec_of_string
          (String c (if String.eqb b EmptyString then "1" else b)) ;;
   Ok (BigNum_of r i)).
Proof.
  intros Ha Hb Hc. unfold BigNum_new.
  rewrite (remove_spaces_complex a c b Ha Hb Hc).
  assert (Hn : complex_notation (a ++ String c (b ++ "i")) = true).
  { unfold complex_notation.
    rewrite (after_real_part_digits a c _ Ha Hc),
      (imaginary_notation_digits b Hb).
    apply orb_true_r. }
  rewrite Hn, (split_signs_literal a c b Ha Hb Hc).
  cbv zeta. rewrite (remove_first_i_app b Hb). reflexivity.
Qed.

(** The same with a sign in front: the split starts with an empty
    string, so the real part is read from the empty string and the
    imaginary part from the leading sign and [a]. *)
Lemma BigNum_new_signed c0 a c b im0 :
  all_digits a = true -> all_digits b = true ->
  is_sign c0 = true -> is_sign c = true ->
  BigNum_new (String c0 (a ++ String c (b ++ "i"))) im0 =
  (i <- BigDec_of_string
          (String c0 (if String.eqb a EmptyString then "1" else a)) ;;
   Ok (BigNum_of ZERO i)).
Proof.
  intros Ha Hb Hc0 Hc. unfold BigNum_new.
  cbn [remove_spaces]. rewrite (sign_not_space c0 Hc0).
  rewrite (remove_spaces_complex a c b Ha Hb Hc).
  assert (Hn : complex_notation (String c0 (a ++ String c (b ++ "i"))) = true).
  { unfold complex_notation.
    rewrite Hc0, (after_real_part_digits a c _ Ha Hc),
      (imaginary_notation_digits b Hb).
    reflexivity. }
  rewrite Hn. cbn [split_signs]. rewrite Hc0.
  rewrite (split_signs_literal a c b Ha Hb Hc).
  cbv zeta. rewrite (remove_first_i_digits a Ha). reflexivity.
Qed.

End ComplexLiterals.

(** * Further properties of the kernel *)

Section Coverage.
Import DigitFacts.

(** X1: the constructor on an object literal keeps a scale of at most 20
    as it is; above 20 it cuts the magnitude toward zero to 20 fractional
    digits, except that a negative magnitude with exactly [dp - 20] digits
    is cut down to its minus sign and the constructor throws a
    SyntaxError. *)
Theorem constructor_clamps d s n :
  BigDec_of_fields d s n =
  if d >? FLOAT_PRECISION then
    if (n <? 0) && (len (JsBigInt.toString n) - 1 =? d - FLOAT_PRECISION)
    then Throw SyntaxError
    else Ok {| dp := FLOAT_PRECISION;
               v := Z.quot n (10 ^ (d - FLOAT_PRECISION));
               sign_prop := s |}
  else Ok {| dp := d; v := n; sign_prop := s |}.
Proof.
  unfold BigDec_of_fields.
  destruct (Z.gtb_spec d FLOAT_PRECISION) as [G | G].
  - rewrite clamp_truncates by (cbn [dp]; lia). reflexivity.
  - apply clamp_small. cbn [dp]. lia.
Qed.

(** X2: on a literal made of an optional minus, digits [a], a point and
    digits [b], the string constructor takes the integer written by
    [a ++ b], rounds it to a binary64 number, applies the sign and hands
    the result with scale [len b] to the precision clamp; without a
    point the scale is 0. *)
Theorem parse_literal_rounds (neg : bool) a b n :
  all_digits a = true -> all_digits b = true ->
  JsBigInt.digits_value 0 (a ++ b) = Some n ->
  BigDec_of_string (decimal_literal neg a b) =
  (m <- JsNumber.to_BigInt
          (JsNumber.mul_sign (if neg then -1 else 1)
             (JsNumber.round_binary64 n)) ;;
   BigDec_of_fields (len b) None m)
  /\ (b = EmptyString ->
      BigDec_of_string (integer_literal neg a) =
      (m <- JsNumber.to_BigInt
              (JsNumber.mul_sign (if neg then -1 else 1)
                 (JsNumber.round_binary64 n)) ;;
       Ok (dec 0 m))).
Proof.
  intros Ha Hb Hn. split.
  - exact (parse_decimal_literal neg a b n Ha Hb Hn).
  - intros ->. rewrite append_empty_r in Hn.
    exact (parse_integer_literal neg a n Ha Hn).
Qed.

(** [parse_literal_rounds] at -12.5. *)
Lemma parse_literal_rounds_witness :
  all_digits "12" = true /\ all_digits "5" = true
  /\ JsBigInt.digits_value 0 ("12" ++ "5") = Some 125
  /\ BigDec_of_string (decimal_literal true "12" "5") =
     (m <- JsNumber.to_BigInt
             (JsNumber.mul_sign (-1) (JsNumber.round_binary64 125)) ;;
      BigDec_of_fields (len "5") None m).
Proof.
  assert (H1 : all_digits "12" = true) by reflexivity.
  assert (H2 : all_digits "5" = true) by reflexivity.
  assert (H3 : JsBigInt.digits_value 0 ("12" ++ "5") = Some 125) by reflexivity.
  split; [exact H1 |]. split; [exact H2 |]. split; [exact H3 |].
  exact (proj1 (parse_literal_rounds true "12" "5" 125 H1 H2 H3)).
Defined.

(** X3: parsing is exact below 2^53: a literal whose digits write an
    integer below 2^53, with at most 20 digits after the point, parses to
    exactly that integer with the sign of the literal, at scale [len b]. *)
Theorem parse_exact_below_2_53 (neg : bool) a b n :
  all_digits a = true -> all_digits b = true ->
  JsBigInt.digits_value 0 (a ++ b) = Some n ->
  n < 2 ^ 53 -> len b <= FLOAT_PRECISION ->
  BigDec_of_string (decimal_literal neg a b) = Ok (dec (len b) (signed neg n))
  /\ (b = EmptyString ->
      BigDec_of_string (integer_literal neg a) = Ok (dec 0 (signed neg n))).
Proof.
  intros Ha Hb Hn Hlt Hl.
  assert (Hn0 : 0 <= n).
  { destruct (digits_value_acc (a ++ b)) as [n' [En' [Bn' _]]].
    - rewrite all_digits_app, Ha, Hb. reflexivity.
    - assert (n' = n) by congruence. lia. }
  split.
  - rewrite (parse_decimal_literal neg a b n Ha Hb Hn).
    rewrite round_small by lia. rewrite signed_number. cbn [bind].
    apply clamp_small. unfold dec. cbn [dp]. exact Hl.
  - intros ->. rewrite append_empty_r in Hn.
    rewrite (parse_integer_literal neg a n Ha Hn).
    rewrite round_small by lia. rewrite signed_number. reflexivity.
Qed.

(** [parse_exact_below_2_53] at -12.5. *)
Lemma parse_exact_below_2_53_witness :
  all_digits "12" = true /\ all_digits "5" = true
  /\ JsBigInt.digits_value 0 ("12" ++ "5") = Some 125
  /\ 125 < 2 ^ 53 /\ len "5" <= FLOAT_PRECISION
  /\ BigDec_of_string (decimal_literal true "12" "5")
     = Ok (dec (len "5") (signed true 125)).
Proof.
  assert (H1 : all_digits "12" = true) by reflexivity.
  assert (H2 : all_digits "5" = true) by reflexivity.
  assert (H3 : JsBigInt.digits_value 0 ("12" ++ "5") = Some 125) by reflexivity.
  assert (H4 : 125 < 2 ^ 53) by reflexivity.
  assert (H5 : len "5" <= FLOAT_PRECISION) by (vm_compute; discriminate).
  repeat (split; [assumption |]).
  exact (proj1 (parse_exact_below_2_53 true "12" "5" 125 H1 H2 H3 H4 H5)).
Defined.

(** X4: with a scale of zero or below, [toString] prints the magnitude
    alone: a negative scale, which [inverse] can produce, does not appear
    in the text. *)
Theorem toString_drops_nonpositive_scale x :
  dp x <= 0 -> toString x = JsBigInt.toString (v x).
Proof. apply toString_scale_ignored. Qed.

(** [toString_drops_nonpositive_scale] at magnitude 2, scale -1 (the
    reciprocal of 0.05). *)
Lemma toString_drops_nonpositive_scale_witness :
  dp (dec (-1) 2) <= 0
  /\ toString (dec (-1) 2) = JsBigInt.toString (v (dec (-1) 2)).
Proof.
  assert (H : dp (dec (-1) 2) <= 0) by (vm_compute; discriminate).
  split; [exact H |].
  exact (toString_drops_nonpositive_scale (dec (-1) 2) H).
Defined.

(** X5: an integer below 2^53 in absolute value survives the trip
    through the constructor: [BigDec(n)] has magnitude [n] and scale 0, and
    prints as [n.toString()]. *)
Theorem integer_round_trip n :
  - 2 ^ 53 < n < 2 ^ 53 ->
  BigDec_of_bigint n = Ok (dec 0 n)
  /\ toString (dec 0 n) = JsBigInt.toString n.
Proof.
  intros Hn. split.
  - unfold BigDec_of_bigint. destruct n as [| p | p]; [reflexivity | |].
    + change (JsBigInt.toString (Zpos p))
        with (integer_literal false (JsBigInt.pos_digits p)).
      rewrite (parse_integer_literal false _ (Zpos p)
                 (pos_digits_all p) (pos_digits_value p)).
      rewrite round_small by lia. reflexivity.
    + change (JsBigInt.toString (Zneg p))
        with (integer_literal true (JsBigInt.pos_digits p)).
      rewrite (parse_integer_literal true _ (Zpos p)
                 (pos_digits_all p) (pos_digits_value p)).
      rewrite round_small by lia. reflexivity.
  - apply toString_scale_ignored. cbn [dp dec]. lia.
Qed.

(** [integer_round_trip] at -42. *)
Lemma integer_round_trip_witness :
  - 2 ^ 53 < -42 < 2 ^ 53
  /\ BigDec_of_bigint (-42) = Ok (dec 0 (-42))
  /\ toString (dec 0 (-42)) = JsBigInt.toString (-42).
Proof.
  assert (H : - 2 ^ 53 < -42 < 2 ^ 53) by (split; reflexivity).
  split; [exact H |].
  exact (integer_round_trip (-42) H).
Defined.

(** X6: reading back what [toString] printed gives the trimmed decimal:
    for an object without an own [sign] property, of scale 0 to 20 and
    magnitude below 2^53, [BigDec(x.toString())] is
    [x._simplifyPrecision()]. *)
Theorem render_then_parse x :
  sign_prop x = None -> 0 <= dp x <= FLOAT_PRECISION ->
  - 2 ^ 53 < v x < 2 ^ 53 ->
  BigDec_of_string (toString x) = Ok (_simplifyPrecision x).
Proof.
  destruct x as [d n s]. cbn [dp v sign_prop]. intros -> Hd Hn.
  destruct n as [| p | p].
  - apply render_parse_zero. lia.
  - exact (render_parse_signed false d p Hd ltac:(lia)).
  - exact (render_parse_signed true d p Hd ltac:(lia)).
Qed.

(** [render_then_parse] at 100.0, stored as 1000 at scale 1. *)
Lemma render_then_parse_witness :
  sign_prop (dec 1 1000) = None
  /\ 0 <= dp (dec 1 1000) <= FLOAT_PRECISION
  /\ - 2 ^ 53 < v (dec 1 1000) < 2 ^ 53
  /\ BigDec_of_string (toString (dec 1 1000))
     = Ok (_simplifyPrecision (dec 1 1000)).
Proof.
  assert (H1 : sign_prop (dec 1 1000) = None) by reflexivity.
  assert (H2 : 0 <= dp (dec 1 1000) <= FLOAT_PRECISION)
    by (split; vm_compute; discriminate).
  assert (H3 : - 2 ^ 53 < v (dec 1 1000) < 2 ^ 53) by (split; reflexivity).
  repeat (split; [assumption |]).
  exact (render_then_parse (dec 1 1000) H1 H2 H3).
Defined.

End Coverage.

Section CoverageArithmetic.
Import DigitFacts.

(** X7: on decimals within the scale ceiling, [add] is commutative and
    associative: the results are the same objects, field by field. *)
Theorem add_commutative_associative x y z :
  dp x <= FLOAT_PRECISION -> dp y <= FLOAT_PRECISION ->
  dp z <= FLOAT_PRECISION ->
  add x y = add y x
  /\ (r <- add x y ;; add r z) = (r <- add y z ;; add x r).
Proof.
  intros Hx Hy Hz. split.
  - exact (add_comm_aligned x y Hx Hy).
  - exact (add_assoc_aligned x y z Hx Hy Hz).
Qed.

(** [add_commutative_associative] at 0.1, 0.25 and 3. *)
Lemma add_commutative_associative_witness :
  dp (dec 1 1) <= FLOAT_PRECISION /\ dp (dec 2 25) <= FLOAT_PRECISION
  /\ dp (dec 0 3) <= FLOAT_PRECISION
  /\ add (dec 1 1) (dec 2 25) = add (dec 2 25) (dec 1 1)
  /\ (r <- add (dec 1 1) (dec 2 25) ;; add r (dec 0 3))
     = (r <- add (dec 2 25) (dec 0 3) ;; add (dec 1 1) r).
Proof.
  assert (H1 : dp (dec 1 1) <= FLOAT_PRECISION) by (vm_compute; discriminate).
  assert (H2 : dp (dec 2 25) <= FLOAT_PRECISION) by (vm_compute; discriminate).
  assert (H3 : dp (dec 0 3) <= FLOAT_PRECISION) by (vm_compute; discriminate).
  repeat (split; [assumption |]).
  exact (add_commutative_associative (dec 1 1) (dec 2 25) (dec 0 3) H1 H2 H3).
Defined.

(** X8: a decimal within the scale ceiling plus its negation is zero:
    [x.add(x.negate()).isZero()]. *)
Theorem add_negate_is_zero x :
  dp x <= FLOAT_PRECISION ->
  exists r, (n <- negate x ;; add x n) = Ok r /\ isZero r = true.
Proof. apply add_negate_zero. Qed.

(** [add_negate_is_zero] at -0.25. *)
Lemma add_negate_is_zero_witness :
  dp (dec 2 (-25)) <= FLOAT_PRECISION
  /\ exists r, (n <- negate (dec 2 (-25)) ;; add (dec 2 (-25)) n) = Ok r
               /\ isZero r = true.
Proof.
  assert (H : dp (dec 2 (-25)) <= FLOAT_PRECISION) by (vm_compute; discriminate).
  split; [exact H |].
  exact (add_negate_is_zero (dec 2 (-25)) H).
Defined.

(** X9: [mul] is commutative, and when the two scales sum to at most 20
    it is exact: the value of the product is the product of the values and
    its scale is the sum of the scales. *)
Theorem mul_exact_commutative x y :
  dp x + dp y <= FLOAT_PRECISION ->
  mul x y = mul y x
  /\ exists r, mul x y = Ok r
               /\ (value r == value x * value y)%Q
               /\ dp r = dp x + dp y.
Proof.
  intros H. split; [apply mul_comm_fields |].
  destruct (mul_value x y H) as [r [E [V [D _]]]].
  exists r. auto.
Qed.

(** [mul_exact_commutative] at 1.5 and -0.25. *)
Lemma mul_exact_commutative_witness :
  dp (dec 1 15) + dp (dec 2 (-25)) <= FLOAT_PRECISION
  /\ mul (dec 1 15) (dec 2 (-25)) = mul (dec 2 (-25)) (dec 1 15)
  /\ exists r, mul (dec 1 15) (dec 2 (-25)) = Ok r
               /\ (value r == value (dec 1 15) * value (dec 2 (-25)))%Q
               /\ dp r = dp (dec 1 15) + dp (dec 2 (-25)).
Proof.
  assert (H : dp (dec 1 15) + dp (dec 2 (-25)) <= FLOAT_PRECISION)
    by (vm_compute; discriminate).
  split; [exact H |].
  exact (mul_exact_commutative (dec 1 15) (dec 2 (-25)) H).
Defined.

(** X10: [mul] is associative as long as no product leaves the scale
    ceiling. *)
Theorem mul_associative x y z :
  dp x + dp y <= FLOAT_PRECISION -> dp y + dp z <= FLOAT_PRECISION ->
  dp x + dp y + dp z <= FLOAT_PRECISION ->
  (r <- mul x y ;; mul r z) = (r <- mul y z ;; mul x r).
Proof. apply mul_assoc_small. Qed.

(** [mul_associative] at 1.5, -0.25 and 3. *)
Lemma mul_associative_witness :
  dp (dec 1 15) + dp (dec 2 (-25)) <= FLOAT_PRECISION
  /\ dp (dec 2 (-25)) + dp (dec 0 3) <= FLOAT_PRECISION
  /\ dp (dec 1 15) + dp (dec 2 (-25)) + dp (dec 0 3) <= FLOAT_PRECISION
  /\ (r <- mul (dec 1 15) (dec 2 (-25)) ;; mul r (dec 0 3))
     = (r <- mul (dec 2 (-25)) (dec 0 3) ;; mul (dec 1 15) r).
Proof.
  assert (H1 : dp (dec 1 15) + dp (dec 2 (-25)) <= FLOAT_PRECISION)
    by (vm_compute; discriminate).
  assert (H2 : dp (dec 2 (-25)) + dp (dec 0 3) <= FLOAT_PRECISION)
    by (vm_compute; discriminate).
  assert (H3 : dp (dec 1 15) + dp (dec 2 (-25)) + dp (dec 0 3)
               <= FLOAT_PRECISION) by (vm_compute; discriminate).
  repeat (split; [assumption |]).
  exact (mul_associative (dec 1 15) (dec 2 (-25)) (dec 0 3) H1 H2 H3).
Defined.

(** X11: [_simplifyPrecision] keeps the numeric value, never raises the
    scale, and stops only when the scale is not positive or the magnitude
    is not a multiple of ten. *)
Theorem simplifyPrecision_keeps_value x :
  (value (_simplifyPrecision x) == value x)%Q
  /\ dp (_simplifyPrecision x) <= dp x
  /\ (dp (_simplifyPrecision x) >? 0)
     && (Z.rem (v (_simplifyPrecision x)) 10 =? 0) = false.
Proof.
  split; [apply value_simplify_loop |].
  split; [apply simplify_loop_dp | apply _simplifyPrecision_done].
Qed.

(** X12: division is exact when the reciprocal is: if [y.inverse()] is a
    decimal [i] with [v i * v y = 10^(dp i + dp y)] and the product of
    [x] and [i] stays within the scale ceiling, then [x.div(y)] times [y]
    has exactly the value of [x]. *)
Theorem div_exact_when_reciprocal_exact x y i :
  inverse y = Ok i ->
  0 <= dp i + dp y -> v i * v y = 10 ^ (dp i + dp y) ->
  dp x + dp i <= FLOAT_PRECISION ->
  exists r, div x y = Ok r /\ (value r * value y == value x)%Q.
Proof. apply div_exact_value. Qed.

(** [div_exact_when_reciprocal_exact] at 1 / 4, with reciprocal 0.25. *)
Lemma div_exact_when_reciprocal_exact_witness :
  inverse (dec 0 4) = Ok (dec 2 25)
  /\ 0 <= dp (dec 2 25) + dp (dec 0 4)
  /\ v (dec 2 25) * v (dec 0 4) = 10 ^ (dp (dec 2 25) + dp (dec 0 4))
  /\ dp (dec 0 1) + dp (dec 2 25) <= FLOAT_PRECISION
  /\ exists r, div (dec 0 1) (dec 0 4) = Ok r
               /\ (value r * value (dec 0 4) == value (dec 0 1))%Q.
Proof.
  assert (H1 : inverse (dec 0 4) = Ok (dec 2 25)) by (vm_compute; reflexivity).
  assert (H2 : 0 <= dp (dec 2 25) + dp (dec 0 4)) by (vm_compute; discriminate).
  assert (H3 : v (dec 2 25) * v (dec 0 4)
               = 10 ^ (dp (dec 2 25) + dp (dec 0 4))) by reflexivity.
  assert (H4 : dp (dec 0 1) + dp (dec 2 25) <= FLOAT_PRECISION)
    by (vm_compute; discriminate).
  repeat (split; [assumption |]).
  exact (div_exact_when_reciprocal_exact (dec 0 1) (dec 0 4) (dec 2 25)
           H1 H2 H3 H4).
Defined.

(** X13: the reciprocal of a positive decimal always returns, and it is
    the exact reciprocal cut, not rounded, at the scale of the result:
    [v r] is the integer quotient of [10^(dp r + dp x)] by [v x]. *)
Theorem reciprocal_positive_truncated x :
  0 < v x ->
  exists r, inverse x = Ok r
            /\ v r = 10 ^ (dp r + dp x) / v x
            /\ dp r <= FLOAT_PRECISION.
Proof.
  intros H. destruct (inverse_positive_value x H) as [r [E [V [D _]]]].
  exists r. auto.
Qed.

(** [reciprocal_positive_truncated] at 3. *)
Lemma reciprocal_positive_truncated_witness :
  0 < v (dec 0 3)
  /\ exists r, inverse (dec 0 3) = Ok r
               /\ v r = 10 ^ (dp r + dp (dec 0 3)) / v (dec 0 3)
               /\ dp r <= FLOAT_PRECISION.
Proof.
  assert (H : 0 < v (dec 0 3)) by reflexivity.
  split; [exact H |].
  exact (reciprocal_positive_truncated (dec 0 3) H).
Defined.

(** X14: the reciprocal of a negative decimal whose magnitude is not a
    power of ten.  [digitCount] counts the minus sign as a digit, so the
    result is a tenth of the reciprocal, cut at the scale of the result;
    and when the integer-part digit count so computed is 21, the
    precision clamp throws a SyntaxError. *)
Theorem reciprocal_negative_tenth x :
  v x < 0 -> one_then_zeros (JsBigInt.toString (v x)) = false ->
  if posDigitCount x =? 21 then inverse x = Throw SyntaxError
  else exists r, inverse x = Ok r
                 /\ v r = - (10 ^ (dp r + dp x - 1) / (- v x))
                 /\ dp r <= FLOAT_PRECISION.
Proof.
  intros H1 H2. pose proof (inverse_negative_value x H1 H2) as H.
  destruct (posDigitCount x =? 21); [exact H |].
  destruct H as [r [E [V [D _]]]]. exists r. auto.
Qed.

(** [reciprocal_negative_tenth] at -4, whose reciprocal comes out as
    -0.025. *)
Lemma reciprocal_negative_tenth_witness :
  v (dec 0 (-4)) < 0
  /\ one_then_zeros (JsBigInt.toString (v (dec 0 (-4)))) = false
  /\ if posDigitCount (dec 0 (-4)) =? 21
     then inverse (dec 0 (-4)) = Throw SyntaxError
     else exists r, inverse (dec 0 (-4)) = Ok r
                    /\ v r = - (10 ^ (dp r + dp (dec 0 (-4)) - 1)
                                / (- v (dec 0 (-4))))
                    /\ dp r <= FLOAT_PRECISION.
Proof.
  assert (H1 : v (dec 0 (-4)) < 0) by reflexivity.
  assert (H2 : one_then_zeros (JsBigInt.toString (v (dec 0 (-4)))) = false)
    by reflexivity.
  repeat (split; [assumption |]).
  exact (reciprocal_negative_tenth (dec 0 (-4)) H1 H2).
Defined.

End CoverageArithmetic.

Section CoverageOrderAndErrors.

(** X15: on objects without an own [sign] property, [cmp] always answers
    0, 1 or -1; it answers 0 exactly when [eq] holds, 1 exactly when the
    swapped call answers -1, and its answer 1 is transitive.  ([gt] and
    [lt] mirror each other accordingly.) *)
Theorem cmp_is_an_order x y z :
  sign_prop x = None -> sign_prop y = None -> sign_prop z = None ->
  (cmp x y = Ok 0 \/ cmp x y = Ok 1 \/ cmp x y = Ok (-1))
  /\ (cmp x y = Ok 0 <-> eq x y = true)
  /\ (cmp x y = Ok 1 <-> cmp y x = Ok (-1))
  /\ (gt x y = Ok true <-> lt y x = Ok true)
  /\ (cmp x y = Ok 1 -> cmp y z = Ok 1 -> cmp x z = Ok 1).
Proof.
  intros Hx Hy Hz.
  split; [exact (cmp_values x y Hx Hy) |].
  split; [exact (cmp_zero_iff x y Hx Hy) |].
  split; [exact (cmp_antisym x y Hx Hy) |].
  split; [| exact (cmp_trans x y z Hx Hy Hz)].
  unfold gt, lt.
  destruct (cmp_values x y Hx Hy) as [E | [E | E]];
    destruct (cmp_values y x Hy Hx) as [F | [F | F]];
    pose proof (cmp_antisym x y Hx Hy) as A;
    pose proof (cmp_antisym y x Hy Hx) as B;
    rewrite E, F in *; cbn [bind];
    try (split; intros; (reflexivity || discriminate));
    exfalso;
    try (destruct A as [A1 A2]; specialize (A1 eq_refl); discriminate A1);
    try (destruct A as [A1 A2]; specialize (A2 eq_refl); discriminate A2);
    try (destruct B as [B1 B2]; specialize (B1 eq_refl); discriminate B1);
    try (destruct B as [B1 B2]; specialize (B2 eq_refl); discriminate B2).
Qed.

(** [cmp_is_an_order] at 0.5, 0.45 and -3. *)
Lemma cmp_is_an_order_witness :
  sign_prop (dec 1 5) = None /\ sign_prop (dec 2 45) = None
  /\ sign_prop (dec 0 (-3)) = None
  /\ (cmp (dec 1 5) (dec 2 45) = Ok 0 \/ cmp (dec 1 5) (dec 2 45) = Ok 1
      \/ cmp (dec 1 5) (dec 2 45) = Ok (-1))
  /\ (cmp (dec 1 5) (dec 2 45) = Ok 0 <-> eq (dec 1 5) (dec 2 45) = true)
  /\ (cmp (dec 1 5) (dec 2 45) = Ok 1 <-> cmp (dec 2 45) (dec 1 5) = Ok (-1))
  /\ (gt (dec 1 5) (dec 2 45) = Ok true <-> lt (dec 2 45) (dec 1 5) = Ok true)
  /\ (cmp (dec 1 5) (dec 2 45) = Ok 1 -> cmp (dec 2 45) (dec 0 (-3)) = Ok 1 ->
      cmp (dec 1 5) (dec 0 (-3)) = Ok 1).
Proof.
  assert (H1 : sign_prop (dec 1 5) = None) by reflexivity.
  assert (H2 : sign_prop (dec 2 45) = None) by reflexivity.
  assert (H3 : sign_prop (dec 0 (-3)) = None) by reflexivity.
  repeat (split; [assumption |]).
  exact (cmp_is_an_order (dec 1 5) (dec 2 45) (dec 0 (-3)) H1 H2 H3).
Defined.

(** X16: a decimal returned by [abs] carries an own property [sign]
    that hides the method, so comparing it, in either position, with a
    decimal that [eq] tells apart throws a TypeError. *)
Theorem cmp_after_abs_throws x r y :
  abs x = Ok r -> sign_prop y = None -> eq r y = false ->
  cmp r y = Throw TypeError /\ cmp y r = Throw TypeError.
Proof.
  intros Ha Hy He.
  assert (Hs : sign_prop r <> None)
    by (rewrite (abs_sign_prop x r Ha); discriminate).
  split.
  - exact (cmp_own_sign_left r y Hs He).
  - apply (cmp_own_sign_right r y Hy Hs).
    unfold eq in *. rewrite (Z.eqb_sym (v y)), (Z.eqb_sym (dp y)). exact He.
Qed.

(** [cmp_after_abs_throws] at [abs] of -5 against 3. *)
Lemma cmp_after_abs_throws_witness :
  abs (dec 0 (-5)) = Ok {| dp := 0; v := -5; sign_prop := Some 1 |}
  /\ sign_prop (dec 0 3) = None
  /\ eq {| dp := 0; v := -5; sign_prop := Some 1 |} (dec 0 3) = false
  /\ cmp {| dp := 0; v := -5; sign_prop := Some 1 |} (dec 0 3) = Throw TypeError
  /\ cmp (dec 0 3) {| dp := 0; v := -5; sign_prop := Some 1 |} = Throw TypeError.
Proof.
  assert (H1 : abs (dec 0 (-5)) = Ok {| dp := 0; v := -5; sign_prop := Some 1 |})
    by reflexivity.
  assert (H2 : sign_prop (dec 0 3) = None) by reflexivity.
  assert (H3 : eq {| dp := 0; v := -5; sign_prop := Some 1 |} (dec 0 3) = false)
    by reflexivity.
  repeat (split; [assumption |]).
  exact (cmp_after_abs_throws (dec 0 (-5)) _ (dec 0 3) H1 H2 H3).
Defined.

(** X17: [sqrt] raises NegativeSquareRoot exactly on a negative
    magnitude; whatever else it raises is a DivisionByZero or a
    SyntaxError coming from the divisions of the iteration. *)
Theorem sqrt_error_kinds x :
  (sqrt x = Throw NegativeSquareRoot <-> v x < 0)
  /\ (forall e, sqrt x = Throw e ->
                e = NegativeSquareRoot \/ e = DivisionByZero
                \/ e = SyntaxError).
Proof.
  split.
  - split.
    + intros H. destruct (sqrt_throw x _ H) as [[_ L] | [_ [E | E]]];
        [exact L | discriminate E | discriminate E].
    + intros L. unfold sqrt, sqrt_logged.
      destruct (Z.ltb_spec (v x) 0); [reflexivity | lia].
  - intros e H. destruct (sqrt_throw x e H) as [[E _] | [_ [E | E]]]; auto.
Qed.

(** X18: every decimal that leaves the string constructor, the object
    constructor or an arithmetic method has a scale of at most 20 ([sqrt]
    hands its operand back in two cases, so there the operand must have
    it). *)
Theorem scale_within_ceiling r :
  (exists s, BigDec_of_string s = Ok r)
  \/ (exists d s n, BigDec_of_fields d s n = Ok r)
  \/ (exists x, negate x = Ok r \/ abs x = Ok r \/ clone x = Ok r
                \/ inverse x = Ok r
                \/ (dp x <= FLOAT_PRECISION /\ sqrt x = Ok r))
  \/ (exists x y, add x y = Ok r \/ sub x y = Ok r \/ mul x y = Ok r
                  \/ div x y = Ok r) ->
  dp r <= FLOAT_PRECISION.
Proof.
  intros [[s H] | [[d [s [n H]]] | [[x H] | [x [y H]]]]].
  - exact (BigDec_of_string_dp _ _ H).
  - exact (BigDec_of_fields_dp _ _ _ _ H).
  - destruct H as [H | [H | [H | [H | [Hx H]]]]].
    + exact (negate_dp _ _ H).
    + exact (abs_dp _ _ H).
    + exact (clamp_dp _ _ H).
    + exact (inverse_dp _ _ H).
    + exact (sqrt_dp _ _ Hx H).
  - destruct H as [H | [H | [H | H]]].
    + exact (add_dp _ _ _ H).
    + exact (sub_dp _ _ _ H).
    + exact (mul_dp _ _ _ H).
    + exact (div_dp _ _ _ H).
Qed.

(** [scale_within_ceiling] at the product of two decimals of scale 15. *)
Lemma scale_within_ceiling_witness :
  mul (dec 15 7) (dec 15 30000000000) = Ok (dec 20 21)
  /\ dp (dec 20 21) <= FLOAT_PRECISION.
Proof.
  assert (H : mul (dec 15 7) (dec 15 30000000000) = Ok (dec 20 21))
    by (vm_compute; reflexivity).
  split; [exact H |].
  apply (scale_within_ceiling (dec 20 21)).
  right. right. right. exists (dec 15 7), (dec 15 30000000000).
  right. right. left. exact H.
Defined.

End CoverageOrderAndErrors.

Section CoverageComplex.

(** X19: complex addition and subtraction are exact, component by
    component, on components within the scale ceiling. *)
Theorem BigNum_add_sub_exact z w :
  dp (re z) <= FLOAT_PRECISION -> dp (im z) <= FLOAT_PRECISION ->
  dp (re w) <= FLOAT_PRECISION -> dp (im w) <= FLOAT_PRECISION ->
  (exists r, BigNum_add z w = Ok r
             /\ (value (re r) == value (re z) + value (re w))%Q
             /\ (value (im r) == value (im z) + value (im w))%Q)
  /\ (exists r, BigNum_sub z w = Ok r
                /\ (value (re r) == value (re z) - value (re w))%Q
                /\ (value (im r) == value (im z) - value (im w))%Q).
Proof.
  intros H1 H2 H3 H4. split.
  - exact (BigNum_add_value z w H1 H2 H3 H4).
  - exact (BigNum_sub_value z w H1 H2 H3 H4).
Qed.

(** [BigNum_add_sub_exact] at 3 + 4i and 1.5 - 2i. *)
Lemma BigNum_add_sub_exact_witness :
  dp (re (BigNum_of (dec 0 3) (dec 0 4))) <= FLOAT_PRECISION
  /\ dp (im (BigNum_of (dec 0 3) (dec 0 4))) <= FLOAT_PRECISION
  /\ dp (re (BigNum_of (dec 1 15) (dec 0 (-2)))) <= FLOAT_PRECISION
  /\ dp (im (BigNum_of (dec 1 15) (dec 0 (-2)))) <= FLOAT_PRECISION
  /\ exists r, BigNum_add (BigNum_of (dec 0 3) (dec 0 4))
                 (BigNum_of (dec 1 15) (dec 0 (-2))) = Ok r
               /\ (value (re r) == value (dec 0 3) + value (dec 1 15))%Q
               /\ (value (im r) == value (dec 0 4) + value (dec 0 (-2)))%Q.
Proof.
  assert (H1 : dp (re (BigNum_of (dec 0 3) (dec 0 4))) <= FLOAT_PRECISION)
    by (vm_compute; discriminate).
  assert (H2 : dp (im (BigNum_of (dec 0 3) (dec 0 4))) <= FLOAT_PRECISION)
    by (vm_compute; discriminate).
  assert (H3 : dp (re (BigNum_of (dec 1 15) (dec 0 (-2)))) <= FLOAT_PRECISION)
    by (vm_compute; discriminate).
  assert (H4 : dp (im (BigNum_of (dec 1 15) (dec 0 (-2)))) <= FLOAT_PRECISION)
    by (vm_compute; discriminate).
  repeat (split; [assumption |]).
  exact (proj1 (BigNum_add_sub_exact (BigNum_of (dec 0 3) (dec 0 4))
                  (BigNum_of (dec 1 15) (dec 0 (-2))) H1 H2 H3 H4)).
Defined.

(** X20: complex multiplication is exact when each of the four partial
    products stays within the scale ceiling: the result is
    [(ac - bd) + (ad + bc)i]. *)
Theorem BigNum_mul_exact z w :
  dp (re z) + dp (re w) <= FLOAT_PRECISION ->
  dp (im z) + dp (im w) <= FLOAT_PRECISION ->
  dp (re z) + dp (im w) <= FLOAT_PRECISION ->
  dp (im z) + dp (re w) <= FLOAT_PRECISION ->
  exists r, BigNum_mul z w = Ok r
            /\ (value (re r)
                == value (re z) * value (re w) - value (im z) * value (im w))%Q
            /\ (value (im r)
                == value (re z) * value (im w) + value (im z) * value (re w))%Q.
Proof. apply BigNum_mul_value. Qed.

(** [BigNum_mul_exact] at (3 + 4i)(1 + 2i). *)
Lemma BigNum_mul_exact_witness :
  dp (dec 0 3) + dp (dec 0 1) <= FLOAT_PRECISION
  /\ dp (dec 0 4) + dp (dec 0 2) <= FLOAT_PRECISION
  /\ dp (dec 0 3) + dp (dec 0 2) <= FLOAT_PRECISION
  /\ dp (dec 0 4) + dp (dec 0 1) <= FLOAT_PRECISION
  /\ exists r, BigNum_mul (BigNum_of (dec 0 3) (dec 0 4))
                 (BigNum_of (dec 0 1) (dec 0 2)) = Ok r
               /\ (value (re r)
                   == value (dec 0 3) * value (dec 0 1)
                      - value (dec 0 4) * value (dec 0 2))%Q
               /\ (value (im r)
                   == value (dec 0 3) * value (dec 0 2)
                      + value (dec 0 4) * value (dec 0 1))%Q.
Proof.
  assert (H1 : dp (dec 0 3) + dp (dec 0 1) <= FLOAT_PRECISION)
    by (vm_compute; discriminate).
  assert (H2 : dp (dec 0 4) + dp (dec 0 2) <= FLOAT_PRECISION)
    by (vm_compute; discriminate).
  assert (H3 : dp (dec 0 3) + dp (dec 0 2) <= FLOAT_PRECISION)
    by (vm_compute; discriminate).
  assert (H4 : dp (dec 0 4) + dp (dec 0 1) <= FLOAT_PRECISION)
    by (vm_compute; discriminate).
  repeat (split; [assumption |]).
  exact (BigNum_mul_exact (BigNum_of (dec 0 3) (dec 0 4))
           (BigNum_of (dec 0 1) (dec 0 2)) H1 H2 H3 H4).
Defined.

(** X21: the complex zero has no reciprocal: [inverse] of a [BigNum]
    whose two parts are zero, and any division by it, throws
    DivisionByZero. *)
Theorem BigNum_zero_has_no_reciprocal z w :
  BigNum_isZero z = true ->
  BigNum_inverse z = Throw DivisionByZero
  /\ BigNum_div w z = Throw DivisionByZero.
Proof.
  intros H. split; [exact (BigNum_inverse_zero z H) | exact (BigNum_div_zero w z H)].
Qed.

(** [BigNum_zero_has_no_reciprocal] at 0.00 + 0i. *)
Lemma BigNum_zero_has_no_reciprocal_witness :
  BigNum_isZero (BigNum_of (dec 2 0) ZERO) = true
  /\ BigNum_inverse (BigNum_of (dec 2 0) ZERO) = Throw DivisionByZero
  /\ BigNum_div (BigNum_of (dec 0 3) (dec 0 4)) (BigNum_of (dec 2 0) ZERO)
     = Throw DivisionByZero.
Proof.
  assert (H : BigNum_isZero (BigNum_of (dec 2 0) ZERO) = true) by reflexivity.
  split; [exact H |].
  exact (BigNum_zero_has_no_reciprocal (BigNum_of (dec 2 0) ZERO)
           (BigNum_of (dec 0 3) (dec 0 4)) H).
Defined.

(** X22: the text of a complex number whose imaginary part has no own
    [sign] property: "0" when both parts are zero; otherwise the text of
    the real part unless it is zero, followed, unless the imaginary part
    is zero, by " + ", its text and "i" when it is positive, and by
    " - ", the text of its opposite and "i" when it is negative. *)
Theorem BigNum_toString_format a b :
  sign_prop b = None ->
  BigNum_toString (BigNum_of a b) =
  Ok (if isZero a && isZero b then "0"
      else ((if isZero a then EmptyString else toString a)
            ++ (if isZero b then EmptyString
                else if v b >? 0 then " + " ++ toString b ++ "i"
                else " - " ++ toString {| dp := dp b; v := - v b;
                                          sign_prop := None |} ++ "i"))%string).
Proof. apply BigNum_toString_plain. Qed.

(** [BigNum_toString_format] at -5 - 2.5i. *)
Lemma BigNum_toString_format_witness :
  sign_prop (dec 1 (-25)) = None
  /\ BigNum_toString (BigNum_of (dec 0 (-5)) (dec 1 (-25))) = Ok "-5 - 2.5i".
Proof.
  assert (H : sign_prop (dec 1 (-25)) = None) by reflexivity.
  split; [exact H |].
  exact (BigNum_toString_format (dec 0 (-5)) (dec 1 (-25)) H).
Defined.

End CoverageComplex.

Section CoverageIdentities.

(** X23: the identities.  Adding [ZERO] to a decimal within the scale
    ceiling gives the same value at scale [max dp 0] (a negative scale is
    brought up to 0); on an object without an own [sign] property and with
    a scale from 0 to 20, adding [ZERO] or multiplying by one gives the
    object back. *)
Theorem identity_elements x :
  dp x <= FLOAT_PRECISION ->
  add x ZERO = Ok (dec (Z.max (dp x) 0) (v x * 10 ^ (Z.max (dp x) 0 - dp x)))
  /\ (sign_prop x = None -> 0 <= dp x ->
      add x ZERO = Ok x /\ mul x (dec 0 1) = Ok x).
Proof.
  intros Hx.
  assert (E : add x ZERO
              = Ok (dec (Z.max (dp x) 0) (v x * 10 ^ (Z.max (dp x) 0 - dp x)))).
  { rewrite add_aligned by (cbn; unfold FLOAT_PRECISION in *; lia).
    cbn [dp v ZERO]. unfold dec. do 2 f_equal. lia. }
  split; [exact E |].
  intros Hs Hd. destruct x as [d n s]. cbn [dp v sign_prop] in *. subst s.
  split.
  - rewrite E. cbn [dp v]. unfold dec. rewrite Z.max_l, Z.sub_diag by lia.
    change (10 ^ 0) with 1. do 2 f_equal. lia.
  - rewrite mul_small by (cbn [dp dec]; lia). cbn [dp v dec].
    do 2 f_equal; lia.
Qed.

(** [identity_elements] at the reciprocal of 0.05, stored as 2 at scale
    -1. *)
Lemma identity_elements_witness :
  dp (dec (-1) 2) <= FLOAT_PRECISION
  /\ add (dec (-1) 2) ZERO
     = Ok (dec (Z.max (dp (dec (-1) 2)) 0)
             (v (dec (-1) 2) * 10 ^ (Z.max (dp (dec (-1) 2)) 0 - dp (dec (-1) 2)))).
Proof.
  assert (H : dp (dec (-1) 2) <= FLOAT_PRECISION) by (vm_compute; discriminate).
  split; [exact H |].
  exact (proj1 (identity_elements (dec (-1) 2) H)).
Defined.

(** X24: [shiftLeft] by a non-negative amount that keeps the scale
    within the ceiling appends that many zeros to the magnitude and adds
    the amount to the scale, so the value is unchanged; a negative amount
    throws a RangeError. *)
Theorem shiftLeft_keeps_value x k :
  0 <= k -> dp x + k <= FLOAT_PRECISION ->
  shiftLeft x k = Ok (dec (dp x + k) (v x * 10 ^ k))
  /\ (value (dec (dp x + k) (v x * 10 ^ k)) == value x)%Q
  /\ (forall j, j < 0 -> shiftLeft x j = Throw RangeError).
Proof.
  intros Hk Hd. split; [exact (shiftLeft_exact x k Hk Hd) |]. split.
  - unfold value, dec. cbn [dp v]. apply value_rescale. exact Hk.
  - intros j Hj. unfold shiftLeft, repeat0.
    destruct (Z.ltb_spec j 0); [reflexivity | lia].
Qed.

(** [shiftLeft_keeps_value] at 0.5 shifted by 3. *)
Lemma shiftLeft_keeps_value_witness :
  0 <= 3 /\ dp (dec 1 5) + 3 <= FLOAT_PRECISION
  /\ shiftLeft (dec 1 5) 3 = Ok (dec (dp (dec 1 5) + 3) (v (dec 1 5) * 10 ^ 3)).
Proof.
  assert (H1 : 0 <= 3) by discriminate.
  assert (H2 : dp (dec 1 5) + 3 <= FLOAT_PRECISION) by (vm_compute; discriminate).
  split; [exact H1 |]. split; [exact H2 |].
  exact (proj1 (shiftLeft_keeps_value (dec 1 5) 3 H1 H2)).
Defined.

End CoverageIdentities.

Section CoverageComplexLiterals.

(** X25: the [BigNum] constructor on a string made of digits [a], a
    sign, digits [b] and the letter i reads the real part from [a] and the
    imaginary part from the sign followed by [b], or by 1 when [b] is
    empty; the second argument is ignored. *)
Theorem BigNum_literal_parts a c b im0 :
  all_digits a = true -> all_digits b = true -> is_sign c = true ->
  BigNum_new (a ++ String c (b ++ "i")) im0 =
  (r <- BigDec_of_string a ;;
   i <- BigDec_of_string
          (String c (if String.eqb b EmptyString then "1" else b)) ;;
   Ok (BigNum_of r i)).
Proof. apply BigNum_new_unsigned. Qed.

(** [BigNum_literal_parts] at 3+4i. *)
Lemma BigNum_literal_parts_witness :
  all_digits "3" = true /\ all_digits "4" = true /\ is_sign "+" = true
  /\ BigNum_new "3+4i" "0" = Ok (BigNum_of (dec 0 3) (dec 0 4)).
Proof.
  assert (H1 : all_digits "3" = true) by reflexivity.
  assert (H2 : all_digits "4" = true) by reflexivity.
  assert (H3 : is_sign "+" = true) by reflexivity.
  repeat (split; [assumption |]).
  exact (BigNum_literal_parts "3" "+" "4" "0" H1 H2 H3).
Defined.

(** X26: with a sign in front of the real part, the constructor loses
    it: the split on the signs starts with an empty string, so the real
    part is zero and the imaginary part is the leading sign followed by
    the digits [a] of the real part (by 1 when [a] is empty), whatever
    [b] is. *)
Theorem BigNum_signed_real_part_lost c0 a c b im0 :
  all_digits a = true -> all_digits b = true ->
  is_sign c0 = true -> is_sign c = true ->
  BigNum_new (String c0 (a ++ String c (b ++ "i"))) im0 =
  (i <- BigDec_of_string
          (String c0 (if String.eqb a EmptyString then "1" else a)) ;;
   Ok (BigNum_of ZERO i)).
Proof. apply BigNum_new_signed. Qed.

(** [BigNum_signed_real_part_lost] at -3+4i, which is read as -3i. *)
Lemma BigNum_signed_real_part_lost_witness :
  all_digits "3" = true /\ all_digits "4" = true
  /\ is_sign "-" = true /\ is_sign "+" = true
  /\ BigNum_new "-3+4i" "0" = Ok (BigNum_of ZERO (dec 0 (-3))).
Proof.
  assert (H1 : all_digits "3" = true) by reflexivity.
  assert (H2 : all_digits "4" = true) by reflexivity.
  assert (H3 : is_sign "-" = true) by reflexivity.
  assert (H4 : is_sign "+" = true) by reflexivity.
  repeat (split; [assumption |]).
  exact (BigNum_signed_real_part_lost "-" "3" "+" "4" "0" H1 H2 H3 H4).
Defined.

End CoverageComplexLiterals.
